(** * Blockwise quantization: equivalent transforms, rotation, clip search
      and mixed-bit allocation

    A shallow embedding of [BaseBlockwiseQuantization]
    (llmcompress/algorithm/quantization/base_blockwise_quantization.py)
    and the properties of it that the specification states.

    Conventions of the embedding.
    - A Python call that may raise is a function into [result]; the
      exception classes are the ones the source raises.  In-place mutation
      of a module is rendered by returning the updated module; a raised
      exception aborts the run, so the half-updated module is not returned.
    - Tensors are lists (vectors) and lists of rows (matrices) of scalars,
      tagged with their torch dtype.  The code is written once over a
      [Scalar] interface with two instances: IEEE binary64 ([float], the
      kernel's primitive floats) and exact rationals ([Qc]).  The algebraic
      statements are proved over [Qc]: they describe the transform in exact
      arithmetic, rounding is not part of them.  The dtype tag drives the
      dtype checks torch performs; the rounding of a cast is not modelled.
    - A Python float that is not a tensor element ([max_shrink]) is a
      binary64 value whatever the scalar instance, and [int] of a product
      with it truncates the rounded product.
    - Distinct arguments are distinct objects (no aliasing between the
      layers handed to one call). *)

From Stdlib Require Import ZArith QArith Qcanon Floats Uint63 Lia Ascii String.
From stdpp Require Import base option list gmap strings pretty.

Close Scope Qc_scope.
Close Scope Q_scope.
Open Scope nat_scope.

(* ===================================================================== *)
(** * Python results *)
(* ===================================================================== *)

Inductive exn : Type :=
  | AssertionError
  | ValueError
  | IndexError
  | KeyError
  | TypeError
  | AttributeError
  | RuntimeError
  | NotImplementedError
  | ZeroDivisionError
  | OverflowError
  | UnboundLocalError
  | Exception (msg : string).

Inductive result (T : Type) : Type :=
  | Ok (v : T)
  | Raise (e : exn).
Arguments Ok {T} v.
Arguments Raise {T} e.

#[global] Instance result_ret : MRet result := fun _ v => Ok v.
#[global] Instance result_bind : MBind result := fun _ _ k m =>
  match m with
  | Ok v => k v
  | Raise e => Raise e
  end.
#[global] Instance result_fmap : FMap result := fun _ _ f m =>
  match m with
  | Ok v => Ok (f v)
  | Raise e => Raise e
  end.

(** [assert c] and [assert c, msg]. *)
Definition assert (c : bool) : result unit :=
  if c then Ok tt else Raise AssertionError.

Definition is_ok {T} (r : result T) : bool :=
  match r with Ok _ => true | Raise _ => false end.

(** A loop [for x in xs: body] whose body may raise. *)
Fixpoint for_each {T S} (body : S → T → result S) (st : S) (xs : list T)
  : result S :=
  match xs with
  | [] => Ok st
  | x :: xs' => st' ← body st x; for_each body st' xs'
  end.

(** [[f(x) for x in xs]] with an [f] that may raise. *)
Fixpoint map_result {T U} (f : T → result U) (xs : list T) : result (list U) :=
  match xs with
  | [] => Ok []
  | x :: xs' => y ← f x; ys ← map_result f xs'; Ok (y :: ys)
  end.

(* ===================================================================== *)
(** * Strings and integers of the configuration *)
(* ===================================================================== *)

(** [s.split(sep)] for a one-character separator. *)
Fixpoint split (sep : ascii) (s : string) : list string :=
  match s with
  | EmptyString => [EmptyString]
  | String c s' =>
      if Ascii.eqb c sep then EmptyString :: split sep s'
      else match split sep s' with
           | p :: ps => String c p :: ps
           | [] => [String c EmptyString]
           end
  end.

(** The characters [int()] skips around a literal: tab to carriage return,
    the four separators 28-31 and the space. *)
Definition is_space (c : ascii) : bool :=
  let n := nat_of_ascii c in
  ((9 <=? n) && (n <=? 13)) || ((28 <=? n) && (n <=? 32)).

Fixpoint lstrip (cs : list ascii) : list ascii :=
  match cs with
  | c :: cs' => if is_space c then lstrip cs' else cs
  | [] => []
  end.

Definition strip (cs : list ascii) : list ascii :=
  rev (lstrip (rev (lstrip cs))).

Definition digit_val (c : ascii) : option Z :=
  let n := nat_of_ascii c in
  if (48 <=? n) && (n <=? 57) then Some (Z.of_nat (n - 48)) else None.

(** Decimal digits, single underscores allowed between two digits. *)
Fixpoint parse_digits (acc : Z) (prev_digit : bool) (cs : list ascii)
  : option Z :=
  match cs with
  | [] => if prev_digit then Some acc else None
  | c :: cs' =>
      match digit_val c with
      | Some d => parse_digits (10 * acc + d)%Z true cs'
      | None =>
          if Ascii.eqb c "_" && prev_digit then parse_digits acc false cs'
          else None
      end
  end.

(** [int(s)] on a string of ASCII characters: optional surrounding
    whitespace, an optional sign, then the digits; anything else is a
    ValueError.  (Python also reads non-ASCII decimal digits; a string
    here holds bytes, and a byte above 127 is rejected.) *)
Definition py_int (s : string) : result Z :=
  let cs := strip (list_ascii_of_string s) in
  let '(neg, ds) :=
    match cs with
    | "+"%char :: r => (false, r)
    | "-"%char :: r => (true, r)
    | _ => (false, cs)
    end in
  match parse_digits 0 false ds with
  | Some v => Ok (if neg : bool then (- v)%Z else v)
  | None => Raise ValueError
  end.

(** The position [l[k]] addresses in a list of [n] entries: negative
    indices count from the end, outside [-n, n) is an IndexError. *)
Definition py_index (n : nat) (k : Z) : result nat :=
  if ((0 <=? k) && (k <? Z.of_nat n))%Z then Ok (Z.to_nat k)
  else if ((- Z.of_nat n <=? k) && (k <? 0))%Z then Ok (Z.to_nat (Z.of_nat n + k))
  else Raise IndexError.

(* ===================================================================== *)
(** * Quantizer configuration and mixed-bit allocation *)
(* ===================================================================== *)

(** Modelled from the spec: the [Quantizer] class (quant.py) is not part
    of the sources.  A quantizer owns one QuantSpec (bit width,
    granularity, group size, symmetry, calibration algorithm, tensor
    parallel degree) and is constructed from the entries of one
    configuration mapping, which it stores. *)
Record Quantizer : Type := mkQuantizer {
  bit : nat;
  granularity : string;
  group_size : nat;
  sym : bool;
  calib_algo : string;
  q_tp : nat;
}.

(** One entry [setting_i] of [quant_config['mix_bits']]. *)
Record MixBitsSetting : Type := mkMixBitsSetting {
  ms_layer_name : list string;
  ms_do_quant : bool;
  ms_weight : option Quantizer;
  ms_act : option Quantizer;
}.

(** One entry of [self.quantizer_mix_bits]; the entry of a setting with
    [do_quant] false has the first two keys only. *)
Record QuantizerMixBits : Type := mkQuantizerMixBits {
  layer_name : list string;
  do_quant : bool;
  w_only_mix_bits : option bool;
  qm_wquantizer : option Quantizer;
  qm_aquantizer : option Quantizer;
}.

(** [self.mix_bits_map[k][n] = i]. *)
Definition mix_bits_map_set (m : list (gmap string nat)) (k : Z) (n : string)
    (i : nat) : result (list (gmap string nat)) :=
  pos ← py_index (length m) k;
  Ok (alter (insert n i) pos m).

(** The body of the loop [for name in layer_name] of [alloc_bits], for the
    entry at position [i] of [self.quantizer_mix_bits]. *)
Definition alloc_name (num_blocks i : nat) (m : list (gmap string nat))
    (name : string) : result (list (gmap string nat)) :=
  let n_layeridx := split "#" name in
  _ ← assert ((length n_layeridx =? 1) || (length n_layeridx =? 2));
  match n_layeridx with
  | [n; idx] =>
      layeridx ← map_result py_int (split "-" idx);
      for_each (fun m k => mix_bits_map_set m k n i) m layeridx
  | n :: _ =>
      for_each (fun m k => mix_bits_map_set m (Z.of_nat k) n i) m
               (seq 0 num_blocks)
  | [] => Raise IndexError
  end.

(** The first loop of [alloc_bits]: one [quantizer_mix_bits] entry per
    setting.  [mix_bits_setting['weight']] is read only when [do_quant]
    holds; a missing key is a KeyError. *)
Definition quantizer_of_setting (st : MixBitsSetting) : result QuantizerMixBits :=
  if ms_do_quant st then
    match ms_weight st with
    | Some wq =>
        Ok (mkQuantizerMixBits (ms_layer_name st) true
              (Some (negb (bool_decide (is_Some (ms_act st)))))
              (Some wq) (ms_act st))
    | None => Raise KeyError
    end
  else Ok (mkQuantizerMixBits (ms_layer_name st) false None None None).

(** The second loop of [alloc_bits] over [enumerate(quantizer_mix_bits)],
    started at index [i]. *)
Fixpoint alloc_loop (num_blocks i : nat) (m : list (gmap string nat))
    (qmb : list QuantizerMixBits) : result (list (gmap string nat)) :=
  match qmb with
  | [] => Ok m
  | q :: qmb' =>
      m' ← for_each (alloc_name num_blocks i) m (layer_name q);
      alloc_loop num_blocks (S i) m' qmb'
  end.

(** [alloc_bits]; [mix_bits_settings] lists [setting_0], [setting_1], ...
    in order.  [qmb0] and [m0] are [self.quantizer_mix_bits] and
    [self.mix_bits_map] on entry. *)
Definition alloc_bits (num_blocks : nat) (qmb0 : list QuantizerMixBits)
    (m0 : list (gmap string nat)) (mix_bits_settings : list MixBitsSetting)
  : result (list QuantizerMixBits * list (gmap string nat)) :=
  new ← map_result quantizer_of_setting mix_bits_settings;
  let qmb := qmb0 ++ new in
  m ← alloc_loop num_blocks 0 m0 qmb;
  Ok (qmb, m).

(** [quant_config['special']]; [None] is a key that is not set. *)
Record Special : Type := mkSpecial {
  sp_weight_clip : option bool;
  sp_save_scale : option bool;
  sp_save_clip : option bool;
  sp_clip_version : option string;
  sp_clip_sym : option bool;
  sp_clip_all : option bool;
  sp_scale_path : option string;
  sp_clip_path : option string;
  sp_online_rotate : option bool;
  sp_fp32_had : option bool;
}.

Definition no_special : Special :=
  mkSpecial None None None None None None None None None None.

(** [self.quant_config]. *)
Record QuantConfig : Type := mkQuantConfig {
  qc_mix_bits : option (list MixBitsSetting);
  qc_quant_out : option bool;
  qc_tp : option nat;
  qc_weight : Quantizer;
  qc_act : option Quantizer;
  qc_special : option Special;
}.

(** What the methods ask of [self.model] and [self.config]. *)
Record Model : Type := mkModel {
  model_type : string;               (* self.config['model']['type'] *)
  model_hidden_size : nat;           (* model_config.hidden_size *)
  model_num_attention_heads : nat;   (* model_config.num_attention_heads *)
  model_intermediate_size : nat;     (* model_config.intermediate_size *)
  get_num_attention_heads : nat;     (* self.model.get_num_attention_heads() *)
  n_head : option nat;   (* get_model_config().to_dict().get('n_head', None) *)
  has_bias : bool;                   (* self.model.has_bias() *)
}.

(** The attributes of [self] once [__init__] has returned. *)
Record Self : Type := mkSelf {
  model : Model;
  num_blocks : nat;
  use_shift : bool;      (* hasattr(self, 'use_shift') and self.use_shift *)
  mix_bits : bool;
  mix_bits_map : list (gmap string nat);
  quantizer_mix_bits : list QuantizerMixBits;
  quant_out : bool;
  tp : nat;
  wquantizer : Quantizer;
  w_only : bool;
  aquantizer : option Quantizer;
  weight_clip : bool;
  save_scale : bool;
  save_clip : bool;
  clip_version : string;
  clip_sym : bool;
  clip_all : bool;
  scale_path : option string;
  clip_path : option string;
  online_rotate : bool;
  hidden_size : nat;
  num_heads : option nat;
  head_dim : option nat;
  intermediate_size : option nat;
  fp32_had : option bool;
}.

Definition with_tp (q : Quantizer) (t : nat) : Quantizer :=
  mkQuantizer (bit q) (granularity q) (group_size q) (sym q) (calib_algo q) t.

(** [set_quant_config], the body of [__init__] after the base class has
    stored [model], [quant_config] and [num_blocks]. *)
Definition set_quant_config (mdl : Model) (nblocks : nat) (shift : bool)
    (quant_config : QuantConfig) : result Self :=
  let mix := bool_decide (is_Some (qc_mix_bits quant_config)) in
  let map0 := replicate nblocks (∅ : gmap string nat) in
  let quant_out := default false (qc_quant_out quant_config) in
  let tp := default 1 (qc_tp quant_config) in
  let wquantizer := with_tp (qc_weight quant_config) tp in
  let aquantizer := (fun a => with_tp a tp) <$> qc_act quant_config in
  let w_only := negb (bool_decide (is_Some (qc_act quant_config))) in
  '(qmb, map1) ←
    match qc_mix_bits quant_config with
    | Some mix_bits_settings => alloc_bits nblocks [] map0 mix_bits_settings
    | None => Ok ([], map0)
    end;
  let special_config := default no_special (qc_special quant_config) in
  let weight_clip := default true (sp_weight_clip special_config) in
  let save_scale := default false (sp_save_scale special_config) in
  let save_clip := default false (sp_save_clip special_config) in
  let clip_version := default "v1"%string (sp_clip_version special_config) in
  let clip_sym := default (sym wquantizer) (sp_clip_sym special_config) in
  let clip_all := default false (sp_clip_all special_config) in
  scale_path ←
    (if save_scale then
       match sp_scale_path special_config with
       | Some p => Ok (Some p)
       | None => Raise KeyError
       end
     else Ok None);
  clip_path ←
    (if save_clip then
       match sp_clip_path special_config with
       | Some p => Ok (Some p)
       | None => Raise KeyError
       end
     else Ok None);
  _ ← (if String.eqb clip_version "v2"
       then assert (String.eqb (calib_algo wquantizer) "learnable")
       else Ok tt);
  let online_rotate := default false (sp_online_rotate special_config) in
  _ ← (if online_rotate
       then assert (String.eqb (model_type mdl) "Opt"
                    || String.eqb (model_type mdl) "Llama")
       else Ok tt);
  head_dim ←
    (if online_rotate then
       if model_num_attention_heads mdl =? 0 then Raise ZeroDivisionError
       else Ok (Some (model_hidden_size mdl / model_num_attention_heads mdl))
     else Ok None);
  Ok (mkSelf mdl nblocks shift mix map1 qmb quant_out tp wquantizer w_only
        aquantizer weight_clip save_scale save_clip clip_version clip_sym
        clip_all scale_path clip_path online_rotate (model_hidden_size mdl)
        (if online_rotate then Some (model_num_attention_heads mdl) else None)
        head_dim
        (if online_rotate then Some (model_intermediate_size mdl) else None)
        (if online_rotate
         then Some (default false (sp_fp32_had special_config)) else None)).

(* ===================================================================== *)
(** * Scalars *)
(* ===================================================================== *)

(** What the code asks of a tensor element. *)
Class Scalar (A : Type) : Type := {
  s_of_Z : Z → A;
  s_add : A → A → A;
  s_sub : A → A → A;
  s_mul : A → A → A;
  s_div : A → A → A;
  s_neg : A → A;
  s_abs : A → A;
  s_ltb : A → A → bool;
  s_isnan : A → bool;
  s_isinf : A → bool;
}.

(** IEEE binary64, the arithmetic of a [torch.float64] tensor. *)
Definition float_of_Z (z : Z) : float :=
  match z with
  | Z0 => PrimFloat.zero
  | Zpos _ => PrimFloat.of_uint63 (Uint63.of_Z z)
  | Zneg p => PrimFloat.opp (PrimFloat.of_uint63 (Uint63.of_Z (Zpos p)))
  end.

#[global] Instance float_scalar : Scalar float := {|
  s_of_Z := float_of_Z;
  s_add := PrimFloat.add;
  s_sub := PrimFloat.sub;
  s_mul := PrimFloat.mul;
  s_div := PrimFloat.div;
  s_neg := PrimFloat.opp;
  s_abs := PrimFloat.abs;
  s_ltb := PrimFloat.ltb;
  s_isnan := PrimFloat.is_nan;
  s_isinf := PrimFloat.is_infinity;
|}.

(** [float(n)] of a Python integer, as [x * n] converts [n] before it
    multiplies: the nearest binary64, ties to even, and OverflowError when
    that is out of range. *)
Definition py_float_of_nat (n : nat) : result float :=
  match binary_normalize prec emax (Z.of_nat n) 0 false with
  | S754_infinity _ => Raise OverflowError
  | sf => Ok (SF2Prim sf)
  end.

(** [int(x)] of a Python float: the integer part, toward zero; an
    infinity is an OverflowError and a NaN a ValueError. *)
Definition py_int_of_float (x : float) : result Z :=
  match Prim2SF x with
  | S754_zero _ => Ok 0%Z
  | S754_finite s m e =>
      let a := if (0 <=? e)%Z then (Zpos m * 2 ^ e)%Z
               else (Zpos m / 2 ^ (- e))%Z in
      Ok (if s then (- a)%Z else a)
  | S754_infinity _ => Raise OverflowError
  | S754_nan => Raise ValueError
  end.

(** Exact rationals: no rounding, no infinities, no NaN.  Division by zero
    is [Qcdiv]'s (it gives 0); the statements proved over [Qc] keep the
    divisors away from zero. *)
Definition Qcltb (x y : Qc) : bool :=
  match Qccompare x y with Lt => true | _ => false end.

Definition Qcabs (x : Qc) : Qc :=
  if Qcltb x (Q2Qc 0) then Qcopp x else x.

#[global] Instance Qc_scalar : Scalar Qc := {|
  s_of_Z := fun z => Q2Qc (inject_Z z);
  s_add := Qcplus;
  s_sub := Qcminus;
  s_mul := Qcmult;
  s_div := Qcdiv;
  s_neg := Qcopp;
  s_abs := Qcabs;
  s_ltb := Qcltb;
  s_isnan := fun _ => false;
  s_isinf := fun _ => false;
|}.

(** A rational constant of the code ([0.5], [i_s / n_grid]) as a scalar. *)
Definition s_of_Q {A} `{Scalar A} (q : Q) : A :=
  s_div (s_of_Z (Qnum q)) (s_of_Z (Zpos (Qden q))).

(** [torch.isfinite]. *)
Definition s_isfinite {A} `{Scalar A} (x : A) : bool :=
  negb (s_isnan x || s_isinf x).

(* ===================================================================== *)
(** * Tensors *)
(* ===================================================================== *)

Inductive DType : Type := Float16 | BFloat16 | Float32 | Float64.

#[global] Instance DType_eq_dec : EqDecision DType.
Proof. solve_decision. Defined.

Record Tensor (T : Type) : Type := mkTensor {
  dtype : DType;
  data : T;
}.
Arguments mkTensor {T} dtype data.
Arguments dtype {T} t.
Arguments data {T} t.

(** [t.to(dtype=dt)]: the tag changes; the rounding of the values is not
    modelled. *)
Definition to_dtype {T} (dt : DType) (t : Tensor T) : Tensor T :=
  mkTensor dt (data t).

(** An in-place update of the values: the tensor keeps its dtype. *)
Definition set_data {T} (t : Tensor T) (d : T) : Tensor T :=
  mkTensor (dtype t) d.

Definition vector (A : Type) : Type := Tensor (list A).
Definition matrix (A : Type) : Type := Tensor (list (list A)).

Section Tensors.
Context {A : Type} `{Scalar A}.
#[local] Abbreviation vector := (vector A).
#[local] Abbreviation matrix := (matrix A).

(** Broadcasting a 1-D operand to [n] entries: it has [n] entries, or one
    entry that is repeated; anything else is torch's size-mismatch
    RuntimeError. *)
Definition expand (n : nat) (s : list A) : result (list A) :=
  if length s =? n then Ok s
  else match s with
       | [x] => Ok (replicate n x)
       | _ => Raise RuntimeError
       end.

(** The dimension torch infers for a [-1] in [reshape]: [total / known],
    when [known] is not zero and divides [total]. *)
Definition infer_dim (total known : nat) : result nat :=
  if known =? 0 then Raise RuntimeError
  else if total mod known =? 0 then Ok (total / known)
  else Raise RuntimeError.

(** The first [r] consecutive chunks of [c] entries of a flat buffer. *)
Fixpoint chunks {T} (c r : nat) (l : list T) : list (list T) :=
  match r with
  | 0 => []
  | S r' => take c l :: chunks c r' (drop c l)
  end.

(** [flat.reshape(r, c)] on row-major data. *)
Definition reshape {T} (r c : nat) (flat : list T) : result (list (list T)) :=
  if length flat =? r * c then Ok (chunks c r flat) else Raise RuntimeError.

(** [m.t()] of a matrix with [ncols] columns. *)
Fixpoint transpose {T} (ncols : nat) (m : list (list T)) : list (list T) :=
  match m with
  | [] => replicate ncols []
  | row :: m' => zip_with cons row (transpose ncols m')
  end.

(** Sum of products, accumulated from the left end. *)
Fixpoint dot (u v : list A) : A :=
  match u, v with
  | a :: u', b :: v' => s_add (s_mul a b) (dot u' v')
  | _, _ => s_of_Z 0
  end.

Definition vadd (u v : list A) : list A := zip_with s_add u v.
Definition vscale (k : A) (v : list A) : list A := map (s_mul k) v.

(** [t.div_(s)], [t.sub_(s)], [t.add_(s)] on a 1-D tensor. *)
Definition vec_op_ (op : A → A → A) (t : vector) (s : list A) : result vector :=
  s' ← expand (length (data t)) s;
  Ok (set_data t (zip_with op (data t) s')).

(** [w.div_(s.view(-1, 1))]: row [i] of [w] is divided by [s[i]]. *)
Definition rows_div_ (w : matrix) (s : list A) : result matrix :=
  s' ← expand (length (data w)) s;
  Ok (set_data w (zip_with (fun row si => map (fun x => s_div x si) row)
                           (data w) s')).

(** [w.mul_(s.view(1, -1))] on a matrix with [ncols] columns: column [j]
    of [w] is multiplied by [s[j]]. *)
Definition cols_mul_ (ncols : nat) (w : matrix) (s : list A) : result matrix :=
  s' ← expand ncols s;
  Ok (set_data w (map (fun row => zip_with s_mul row s') (data w))).

(** [w @ v] for a matrix with [ncols] columns: torch.matmul demands equal
    dtypes and matching sizes. *)
Definition matvec (ncols : nat) (w : matrix) (v : vector) : result vector :=
  if negb (bool_decide (dtype w = dtype v)) then Raise RuntimeError
  else if negb (length (data v) =? ncols) then Raise RuntimeError
  else Ok (mkTensor (dtype w) (map (fun row => dot row (data v)) (data w))).

(** [torch.isnan(p).sum() == 0]. *)
Definition no_nan (l : list A) : bool := forallb (fun x => negb (s_isnan x)) l.

(** The count of non-finite entries of [p] is zero. *)
Definition all_finite (l : list A) : bool := forallb s_isfinite l.

End Tensors.

(* ===================================================================== *)
(** * Modules of a block *)
(* ===================================================================== *)

Section Layers.
Context {A : Type} `{Scalar A}.
#[local] Abbreviation vector := (vector A).
#[local] Abbreviation matrix := (matrix A).

(** The [bias] attribute of a linear layer: absent ([None]), a parameter,
    or a buffer installed with [register_buffer].  Only parameters are
    enumerated by [parameters()]. *)
Inductive Bias : Type :=
  | BiasNone
  | BiasParam (b : vector)
  | BiasBuffer (b : vector).

(** A linear layer: [weight] has [out_features] rows of [in_features]
    entries. *)
Record Linear : Type := mkLinear {
  in_features : nat;
  out_features : nat;
  weight : matrix;
  bias : Bias;
}.

(** A normalization layer; [ln_bias] is absent for RMS-style norms. *)
Record Norm : Type := mkNorm {
  ln_weight : vector;
  ln_bias : option vector;
}.

(** What a subset lists as [prev_op] entries. *)
Inductive Module : Type :=
  | LinearOp (fc : Linear)
  | NormOp (ln : Norm)
  | OtherOp.

(** [hasattr(fc, 'bias') and fc.bias is not None], with the tensor. *)
Definition bias_tensor (b : Bias) : option vector :=
  match b with
  | BiasNone => None
  | BiasParam t | BiasBuffer t => Some t
  end.

(** The slot after an in-place update of its tensor. *)
Definition bias_update (b : Bias) (t : vector) : Bias :=
  match b with
  | BiasNone => BiasNone
  | BiasParam _ => BiasParam t
  | BiasBuffer _ => BiasBuffer t
  end.

Definition set_weight (fc : Linear) (w : matrix) : Linear :=
  mkLinear (in_features fc) (out_features fc) w (bias fc).

Definition set_bias (fc : Linear) (b : Bias) : Linear :=
  mkLinear (in_features fc) (out_features fc) (weight fc) b.

(** [fc.parameters()] and [ln.parameters()], each flattened. *)
Definition linear_parameters (fc : Linear) : list (list A) :=
  concat (data (weight fc)) ::
  match bias fc with
  | BiasParam b => [data b]
  | _ => []
  end.

Definition norm_parameters (ln : Norm) : list (list A) :=
  data (ln_weight ln) ::
  match ln_bias ln with
  | Some b => [data b]
  | None => []
  end.

(** The shape torch keeps for a linear layer: [weight] is
    (out_features, in_features) and [bias], when there is one, has
    out_features entries. *)
Definition wf_linear (fc : Linear) : Prop :=
  length (data (weight fc)) = out_features fc ∧
  Forall (fun row => length row = in_features fc) (data (weight fc)) ∧
  match bias_tensor (bias fc) with
  | Some b => length (data b) = out_features fc
  | None => True
  end.

(** [torch.nn.Linear.forward] on one input vector: [W x + b]. *)
Definition linear_forward (fc : Linear) (x : list A) : list A :=
  let y := map (fun row => dot row x) (data (weight fc)) in
  match bias_tensor (bias fc) with
  | Some b => zip_with s_add y (data b)
  | None => y
  end.

(* ------------------------------------------------------------------- *)
(** ** Scale fusion *)
(* ------------------------------------------------------------------- *)

(** The packed view [t.reshape(n, 3, -1)] of a flat buffer: [n] blocks of
    three parts of [hd] entries. *)
Definition view3 {T} (n hd : nat) (flat : list T) : list (list (list T)) :=
  map (chunks hd 3) (chunks (3 * hd) n flat).

(** [t[:, 2, :]] of such a view, and the assignment [t[:, 2, :] = v]. *)
Definition part2 {T} (t : list (list (list T))) : list (list T) :=
  map (fun blk => nth 2 blk []) t.

Definition set_part2 {T} (t : list (list (list T))) (v : list (list T))
  : list (list (list T)) :=
  zip_with (fun blk vi => <[2 := vi]> blk) t v.

(** The flat buffer of such a view, as [t.reshape(-1)] reads it. *)
Definition flat3 {T} (t : list (list (list T))) : list T :=
  concat (map (fun blk => concat blk) t).

(** The fused-QKV branch of [scale_fc_fc] on the transposed weight [wt]
    of shape [(org0, org1)]: view it as [(org0 * num_heads, 3, -1)],
    divide part 2, read as [(org0, -1)], by the scales, and restore the
    shape. *)
Definition scale_qkv_rows (num_heads org0 org1 : nat) (wt : list (list A))
    (scales : list A) : result (list (list A)) :=
  let flat := concat wt in
  hd ← infer_dim (length flat) (org0 * num_heads * 3);
  let w3 := view3 (org0 * num_heads) hd flat in
  let vflat := concat (part2 w3) in
  d ← infer_dim (length vflat) org0;
  let value := chunks d org0 vflat in
  s' ← expand d scales;
  let value' := map (fun r => zip_with s_div r s') value in
  v' ← reshape (org0 * num_heads) hd (concat value');
  let w3' := set_part2 w3 v' in
  reshape org0 org1 (flat3 w3').

(** The branch on the weight of [fc1], between [weight.t_()] and the
    final [.t_()]. *)
Definition scale_qkv_weight (num_heads : nat) (fc1 : Linear) (scales : list A)
  : result matrix :=
  let wt := transpose (in_features fc1) (data (weight fc1)) in
  wt' ← scale_qkv_rows num_heads (in_features fc1) (out_features fc1) wt scales;
  Ok (set_data (weight fc1) (transpose (out_features fc1) wt')).

(** The same branch on the bias of [fc1]. *)
Definition scale_qkv_bias (num_heads : nat) (b : vector) (scales : list A)
  : result vector :=
  hd ← infer_dim (length (data b)) (num_heads * 3);
  let b3 := view3 num_heads hd (data b) in
  let value := concat (part2 b3) in
  s' ← expand (length value) scales;
  v' ← reshape num_heads hd (zip_with s_div value s');
  Ok (set_data b (flat3 (set_part2 b3 v'))).

Definition scale_fc_fc (self : Self) (fc1 fc2 : Linear) (scales : vector)
  : result (Linear * Linear) :=
  fc1' ←
    (if out_features fc1 =? in_features fc2 * 3 then
       let num_heads := get_num_attention_heads (model self) in
       w' ← scale_qkv_weight num_heads fc1 (data scales);
       match bias_tensor (bias fc1) with
       | Some b =>
           b' ← scale_qkv_bias num_heads b (data scales);
           Ok (mkLinear (in_features fc1) (out_features fc1) w'
                        (bias_update (bias fc1) b'))
       | None => Ok (set_weight fc1 w')
       end
     else
       _ ← assert (out_features fc1 =? in_features fc2);
       b' ← match bias_tensor (bias fc1) with
            | Some b => bias_update (bias fc1) <$> vec_op_ s_div b (data scales)
            | None => Ok (bias fc1)
            end;
       w' ← rows_div_ (weight fc1) (data scales);
       Ok (mkLinear (in_features fc1) (out_features fc1) w' b'));
  w2 ← cols_mul_ (in_features fc2) (weight fc2) (data scales);
  Ok (fc1', set_weight fc2 w2).

Definition scale_ln_fcs (ln : Norm) (fcs : list Linear) (scales : vector)
  : result (Norm * list Linear) :=
  w' ← vec_op_ s_div (ln_weight ln) (data scales);
  b' ← match ln_bias ln with
       | Some b => Some <$> vec_op_ s_div b (data scales)
       | None => Ok None
       end;
  fcs' ← map_result
           (fun fc => set_weight fc <$>
                        cols_mul_ (in_features fc) (weight fc) (data scales))
           fcs;
  let ln' := mkNorm w' b' in
  _ ← assert (forallb no_nan (norm_parameters ln'));
  _ ← assert (forallb (fun fc => forallb no_nan (linear_parameters fc)) fcs');
  Ok (ln', fcs').

Definition apply_scale (self : Self) (scales : vector)
    (prev_op : list Module) (layers : list Linear)
  : result (Module * list Linear) :=
  match prev_op with
  | [LinearOp fc1] =>
      match layers with
      | [fc2] =>
          '(fc1', fc2') ← scale_fc_fc self fc1 fc2 scales;
          Ok (LinearOp fc1', [fc2'])
      | _ => Raise AssertionError
      end
  | [NormOp ln] =>
      '(ln', fcs') ← scale_ln_fcs ln layers scales;
      Ok (NormOp ln', fcs')
  | [OtherOp] => Raise NotImplementedError
  | _ => Raise AssertionError
  end.

(* ------------------------------------------------------------------- *)
(** ** Shift fusion *)
(* ------------------------------------------------------------------- *)

(** [fc.weight @ shifts], the term the shift folds into the bias of a
    following layer. *)
Definition shift_fold (fc : Linear) (shifts : vector) : result vector :=
  matvec (in_features fc) (weight fc) shifts.

(** The fused-QKV branch of [shift_fc_fc] on the bias of [fc1]. *)
Definition shift_qkv_bias (num_heads : nat) (b : vector) (shifts : list A)
  : result vector :=
  hd ← infer_dim (length (data b)) (num_heads * 3);
  let b3 := view3 num_heads hd (data b) in
  let value := concat (part2 b3) in
  s' ← expand (length value) shifts;
  v' ← reshape num_heads hd (zip_with s_sub value s');
  Ok (set_data b (flat3 (set_part2 b3 v'))).

(** The update of a following layer's bias, shared by both shift
    functions: add the fold to an existing bias; with no bias, install
    the fold as a buffer when [use_shift] is set. *)
Definition shift_fc_bias (self : Self) (fc : Linear) (shifts : vector)
  : result Linear :=
  match bias_tensor (bias fc) with
  | Some b =>
      t ← shift_fold fc shifts;
      b' ← vec_op_ s_add b (data t);
      Ok (set_bias fc (bias_update (bias fc) b'))
  | None =>
      if use_shift self then
        t ← shift_fold fc shifts;
        Ok (set_bias fc (BiasBuffer t))
      else Ok fc
  end.

Definition shift_fc_fc (self : Self) (fc1 fc2 : Linear) (shifts : vector)
  : result (Linear * Linear) :=
  fc1' ←
    (if out_features fc1 =? in_features fc2 * 3 then
       match bias_tensor (bias fc1) with
       | Some b =>
           match n_head (model self) with
           | Some num_heads =>
               b' ← shift_qkv_bias num_heads b (data shifts);
               Ok (set_bias fc1 (bias_update (bias fc1) b'))
           | None => Raise TypeError
           end
       | None => Ok fc1
       end
     else
       _ ← assert (out_features fc1 =? in_features fc2);
       match bias_tensor (bias fc1) with
       | Some b =>
           b' ← vec_op_ s_sub b (data shifts);
           Ok (set_bias fc1 (bias_update (bias fc1) b'))
       | None => Ok fc1
       end);
  fc2' ← shift_fc_bias self fc2 shifts;
  Ok (fc1', fc2').

Definition shift_ln_fcs (self : Self) (ln : Norm) (fcs : list Linear)
    (shifts : vector)
  : result (Norm * list Linear) :=
  ln' ← (if has_bias (model self) then
           match ln_bias ln with
           | Some b =>
               b' ← vec_op_ s_sub b (data shifts);
               Ok (mkNorm (ln_weight ln) (Some b'))
           | None => Raise AttributeError
           end
         else Ok ln);
  fcs' ← map_result
           (fun fc =>
              if has_bias (model self) then
                match bias_tensor (bias fc) with
                | Some b =>
                    t ← shift_fold fc shifts;
                    b' ← vec_op_ s_add b (data t);
                    Ok (set_bias fc (bias_update (bias fc) b'))
                | None => Raise AttributeError
                end
              else if use_shift self then
                t ← shift_fold fc shifts;
                Ok (set_bias fc (BiasBuffer t))
              else Ok fc)
           fcs;
  _ ← assert (forallb no_nan (norm_parameters ln'));
  _ ← assert (forallb (fun fc => forallb no_nan (linear_parameters fc)) fcs');
  Ok (ln', fcs').

Definition apply_shift (self : Self) (shifts : option vector)
    (prev_op : list Module) (layers : list Linear)
  : result (list Module * list Linear) :=
  match shifts with
  | None => Ok (prev_op, layers)
  | Some shifts =>
      match prev_op with
      | [LinearOp fc1] =>
          match layers with
          | [fc2] =>
              '(fc1', fc2') ← shift_fc_fc self fc1 fc2 shifts;
              Ok ([LinearOp fc1'], [fc2'])
          | _ => Raise AssertionError
          end
      | [NormOp ln] =>
          '(ln', fcs') ← shift_ln_fcs self ln layers shifts;
          Ok ([NormOp ln'], fcs')
      | [OtherOp] => Raise NotImplementedError
      | _ => Raise AssertionError
      end
  end.

End Layers.

Arguments Bias : clear implicits.
Arguments Linear : clear implicits.
Arguments Norm : clear implicits.
Arguments Module : clear implicits.

(* ===================================================================== *)
(** * Clip search *)
(* ===================================================================== *)

Section Clip.
Context {A : Type} `{Scalar A}.

(** The helpers of utils.py and the methods of [Quantizer] the clip code
    calls; none of them is part of the sources.  The first three receive
    [self.block_idx], the layer name, [self.mix_bits_map],
    [self.quantizer_mix_bits] and the global default. *)
Variable get_wquantizer :
  nat → string → list (gmap string nat) → list QuantizerMixBits →
  Quantizer → Quantizer.
Variable get_aquantizer :
  nat → string → list (gmap string nat) → list QuantizerMixBits →
  option Quantizer → Quantizer.
Variable check_w_only :
  nat → string → list (gmap string nat) → list QuantizerMixBits →
  bool → bool.
Variable reshape_tensor : Quantizer → list (list A) → list (list A).
Variable restore_tensor : Quantizer → list (list (list A)) → nat * nat → list (list A).
Variable fake_quant_weight_dynamic :
  Quantizer → list (list (list A)) → list (list (list A)).
Variable range : Type.
Variable qparams : Type.
Variable get_learnable_range :
  Quantizer → list (list (list A)) → list (list A) → list (list A) → range.
Variable get_qparams : Quantizer → range → qparams.
Variable fake_quant_weight_static :
  Quantizer → list (list (list A)) → qparams → list (list (list A)).
Variable fake_quant_act_dynamic :
  Quantizer → list (list (list A)) → list (list (list A)).
Variable get_minmax_range : Quantizer → list (list A) → list A * list A.
Variable s_log : A → A.

(** [logit]: [torch.log(x / (1 - x))]. *)
Definition logit (x : A) : A := s_log (s_div x (s_sub (s_of_Z 1) x)).

(** [torch.amax], [torch.amin] over a nonempty last dimension, and
    [torch.clamp]; a NaN entry propagates. *)
Definition s_max (a b : A) : A :=
  if s_isnan a then a else if s_isnan b then b
  else if s_ltb a b then b else a.

Definition s_min (a b : A) : A :=
  if s_isnan a then a else if s_isnan b then b
  else if s_ltb b a then b else a.

Definition amax (l : list A) : A :=
  match l with
  | [] => s_of_Z 0
  | a :: l' => foldl s_max a l'
  end.

Definition amin (l : list A) : A :=
  match l with
  | [] => s_of_Z 0
  | a :: l' => foldl s_min a l'
  end.

Definition clamp (lo hi x : A) : A :=
  if s_isnan x then x
  else let y := if s_ltb x lo then lo else x in
       if s_ltb hi y then hi else y.

(** [t.reshape(t.shape[0], 1, -1, group_size)] of a 2-D tensor: every row
    is cut into groups of [gs] entries.  The unit dimension is dropped. *)
Definition reshape_groups (gs : nat) (t : list (list A))
  : result (nat * list (list (list A))) :=
  let flat := concat t in
  ng ← infer_dim (length flat) (length t * gs);
  Ok (ng, map (chunks gs ng) (chunks (ng * gs) (length t) flat)).

(** The same inside [try ... except RuntimeError], with the fallback
    through [self.wquantizer.reshape_tensor]. *)
Definition reshape_groups_or (self : Self) (gs : nat) (t : list (list A))
  : result (nat * list (list (list A))) :=
  match reshape_groups gs t with
  | Ok r => Ok r
  | Raise RuntimeError =>
      reshape_groups gs (reshape_tensor (wquantizer self) t)
  | Raise e => Raise e
  end.

(** [l[0::stride]]. *)
Fixpoint every_nth {T} (stride skip : nat) (l : list T) : list T :=
  match l with
  | [] => []
  | a :: l' =>
      match skip with
      | 0 => a :: every_nth stride (stride - 1) l'
      | S k => every_nth stride k l'
      end
  end.

(** [x[:, 0 :: x.shape[1] // n_sample_token]]. *)
Definition subsample {T} (n_sample_token : nat) (x : list T) : result (list T) :=
  if n_sample_token =? 0 then Raise ZeroDivisionError
  else let stride := length x / n_sample_token in
       if stride =? 0 then Raise ValueError
       else Ok (every_nth stride 0 x).

(** [(x * w).sum(dim=-1)] for [x] of shape (1, tokens, groups, gs) and [w]
    of shape (channels, 1, groups, gs): indexed channel, token, group. *)
Definition group_dots (x w : list (list (list A))) : list (list (list A)) :=
  map (fun wc => map (fun xt => zip_with dot xt wc) x) w.

(** [(cur_out - org_out).pow(2).mean(dim=1)] for one channel: per group,
    the mean over the tokens. *)
Definition sq_err_mean (ng : nat) (cur org : list (list A)) : list A :=
  let sq := zip_with (zip_with
              (fun a b => let d := s_sub a b in s_mul d d)) cur org in
  map (fun sum => s_div sum (s_of_Z (Z.of_nat (length cur))))
      (foldl vadd (replicate ng (s_of_Z 0)) sq).

(** The three running tensors of one batch, indexed channel, group. *)
Record ClipState : Type := mkClipState {
  best_max_val : list (list A);
  best_min_val : list (list A);
  min_errs : list (list A);
}.

(** [dst[mask] = src[mask]]. *)
Definition masked_assign (dst : list (list A)) (mask : list (list bool))
    (src : list (list A)) : list (list A) :=
  zip_with (fun drow (ms : list bool * list A) =>
              zip_with (fun d (m : bool * A) => if fst m then snd m else d)
                       drow (zip (fst ms) (snd ms)))
           dst (zip mask src).

(** The end of one shrink level: [cur_best_idx = err_mean < min_errs] and
    the three masked assignments. *)
Definition clip_update (st : ClipState) (err_mean max_val min_val : list (list A))
  : ClipState :=
  let cur_best_idx := zip_with (zip_with s_ltb) err_mean (min_errs st) in
  mkClipState (masked_assign (best_max_val st) cur_best_idx max_val)
              (masked_assign (best_min_val st) cur_best_idx min_val)
              (masked_assign (min_errs st) cur_best_idx err_mean).

(** [1 - i_s / n_grid], where [i_s] has been raised by [eps] at level 0
    under clip version v2 with activation quantization. *)
Definition shrink_factor (bump : bool) (eps : A) (n_grid i_s : nat) : A :=
  let i := if bump && (i_s =? 0) then s_add (s_of_Z (Z.of_nat i_s)) eps
           else s_of_Z (Z.of_nat i_s) in
  s_sub (s_of_Z 1) (s_div i (s_of_Z (Z.of_nat n_grid))).

(** The candidate bounds of a shrink level. *)
Definition level_bounds (self : Self) (f : A) (org_max_val org_min_val : list (list A))
  : list (list A) * list (list A) :=
  let max_val := map (map (fun m => s_mul m f)) org_max_val in
  let min_val :=
    if clip_sym self then map (map s_neg) max_val
    else map (map (fun m => s_mul m f)) org_min_val in
  (max_val, min_val).

(** The simulated weight of a shrink level. *)
Definition quantized_weight (self : Self) (wq : Quantizer)
    (w : list (list (list A))) (org_max_val org_min_val max_val min_val : list (list A))
  : result (list (list (list A))) :=
  if String.eqb (clip_version self) "v1" then
    let cur_w :=
      zip_with (fun wc (b : list A * list A) =>
                  zip_with (fun g (lh : A * A) => map (clamp (fst lh) (snd lh)) g)
                           wc (zip (fst b) (snd b)))
               w (zip min_val max_val) in
    Ok (fake_quant_weight_dynamic wq cur_w)
  else if String.eqb (clip_version self) "v2" then
    let low_factor := zip_with (zip_with (fun a b => logit (s_div a b)))
                               min_val org_min_val in
    let up_factor := zip_with (zip_with (fun a b => logit (s_div a b)))
                              max_val org_max_val in
    let tensor_range := get_learnable_range wq w low_factor up_factor in
    Ok (fake_quant_weight_static wq w (get_qparams wq tensor_range))
  else Raise (Exception "Not support other clip version").

(** The body of [for i in range(len(input))] at one shrink level: the
    error of input [x] per channel and group.  [org_out] is recomputed
    where the source reads it from [org_out_dict]; the value is the same. *)
Definition input_error (self : Self) (block_idx : nat) (layer_name : string)
    (wq : Quantizer) (gs n_sample_token ng : nat)
    (w : list (list (list A))) (org_max_val org_min_val max_val min_val : list (list A))
    (x : list (list A)) : result (list (list A)) :=
  '(ngx, x3) ← reshape_groups_or self gs x;
  x3 ← subsample n_sample_token x3;
  _ ← (if ngx =? ng then Ok tt else Raise RuntimeError);
  let org_out := group_dots x3 w in
  q_w ← quantized_weight self wq w org_max_val org_min_val max_val min_val;
  let q_x :=
    if negb (check_w_only block_idx layer_name (mix_bits_map self)
               (quantizer_mix_bits self) (w_only self))
    then fake_quant_act_dynamic
           (get_aquantizer block_idx layer_name (mix_bits_map self)
              (quantizer_mix_bits self) (aquantizer self)) x3
    else x3 in
  let cur_out := group_dots q_x q_w in
  Ok (zip_with (sq_err_mean ng) cur_out org_out).

(** [err_mean += err], starting from the integer 0 ([None]). *)
Definition add_err (acc : option (list (list A))) (err : list (list A))
  : option (list (list A)) :=
  match acc with
  | None => Some (map (map (s_add (s_of_Z 0))) err)
  | Some a => Some (zip_with vadd a err)
  end.

(** One iteration of [for i_s in range(int(max_shrink * n_grid))]. *)
Definition shrink_level (self : Self) (block_idx : nat) (layer_name : string)
    (wq : Quantizer) (gs n_grid n_sample_token ng : nat) (eps : A)
    (input : list (list (list A)))
    (w : list (list (list A))) (org_max_val org_min_val : list (list A))
    (st : ClipState) (i_s : nat) : result ClipState :=
  let bump :=
    String.eqb (clip_version self) "v2"
    && negb (check_w_only block_idx layer_name (mix_bits_map self)
               (quantizer_mix_bits self) (w_only self)) in
  let '(max_val, min_val) :=
    level_bounds self (shrink_factor bump eps n_grid i_s) org_max_val org_min_val in
  acc ← for_each
          (fun acc x =>
             err ← input_error self block_idx layer_name wq gs n_sample_token
                     ng w org_max_val org_min_val max_val min_val x;
             Ok (add_err acc err))
          None input;
  match acc with
  | None => Raise ZeroDivisionError
  | Some sum =>
      let err_mean :=
        map (map (fun e => s_div e (s_of_Z (Z.of_nat (length input))))) sum in
      Ok (clip_update st err_mean max_val min_val)
  end.

(** The length of [range(int(max_shrink * n_grid))] for a Python float
    [max_shrink] and a Python integer [n_grid]: the product is the
    binary64 product, rounded as the machine rounds it, and a negative
    bound gives the empty range. *)
Definition n_levels (max_shrink : float) (n_grid : nat) : result nat :=
  g ← py_float_of_nat n_grid;
  k ← py_int_of_float (PrimFloat.mul max_shrink g);
  Ok (Z.to_nat k).

(** [org_max_val] and [org_min_val] of a batch. *)
Definition org_bounds (self : Self) (w : list (list (list A)))
  : list (list A) * list (list A) :=
  (if clip_sym self then map (map (fun g => amax (map s_abs g))) w
   else map (map amax) w,
   map (map amin) w).

(** The state of a batch before its first shrink level: the bounds are
    cloned and [min_errs] is [ones_like(org_max_val) * 1e9]. *)
Definition clip_init (org_max_val org_min_val : list (list A)) : ClipState :=
  mkClipState org_max_val org_min_val
    (map (map (fun _ => s_mul (s_of_Z 1) (s_of_Z 1000000000))) org_max_val).

(** The body of [for i_b in range(...)] on the batch [w], run for the
    shrink levels [levels].  [clip_batch_run] below is the same with the
    bound of the range evaluated first, as each batch does. *)
Definition clip_batch (self : Self) (block_idx : nat) (layer_name : string)
    (wq : Quantizer) (gs n_grid n_sample_token ng : nat) (eps : A)
    (input : list (list (list A))) (levels : list nat)
    (w : list (list (list A))) : result ClipState :=
  let '(org_max_val, org_min_val) := org_bounds self w in
  for_each (shrink_level self block_idx layer_name wq gs n_grid n_sample_token
              ng eps input w org_max_val org_min_val)
           (clip_init org_max_val org_min_val) levels.

(** [oc_batch_size]. *)
Definition oc_batch_size (oc : nat) : nat :=
  if oc mod 256 =? 0 then 256 else 64.

(** [[w_all[i_b * bs : (i_b + 1) * bs] for i_b in range(n)]]. *)
Definition batches {T} (bs n : nat) (w_all : list T) : list (list T) :=
  map (fun i_b => take bs (drop (i_b * bs) w_all)) (seq 0 n).

(** One batch as [auto_clip_layer] runs it: the bound of
    [range(int(max_shrink * n_grid))] is evaluated when the loop over the
    shrink levels is entered. *)
Definition clip_batch_run (self : Self) (block_idx : nat) (layer_name : string)
    (wq : Quantizer) (gs n_grid n_sample_token ng : nat) (eps : A)
    (input : list (list (list A))) (max_shrink : float)
    (w : list (list (list A))) : result ClipState :=
  k ← n_levels max_shrink n_grid;
  clip_batch self block_idx layer_name wq gs n_grid n_sample_token ng
    eps input (seq 0 k) w.

(** [auto_clip_layer(layer_name, w, input, n_grid, max_shrink,
    n_sample_token, eps)]; every input is given as its 2-D view
    [x.view(-1, x.shape[-1])].  The result is [(best_max_val,
    best_min_val)], indexed channel, group. *)
Definition auto_clip_layer (self : Self) (block_idx : nat) (layer_name : string)
    (w : list (list A)) (input : list (list (list A)))
    (n_grid : nat) (max_shrink : float) (n_sample_token : nat) (eps : A)
  : result (list (list A) * list (list A)) :=
  let wq := get_wquantizer block_idx layer_name (mix_bits_map self)
              (quantizer_mix_bits self) (wquantizer self) in
  let gs :=
    if String.eqb (granularity wq) "per_group" then group_size wq
    else match w with row :: _ => length row | [] => 0 end in
  '(ng, w_all) ← reshape_groups_or self gs w;
  let oc := length w_all in
  let bs := oc_batch_size oc in
  _ ← assert (oc mod bs =? 0);
  sts ← map_result
          (clip_batch_run self block_idx layer_name wq gs n_grid n_sample_token
             ng eps input max_shrink)
          (batches bs (oc / bs) w_all);
  match sts with
  | [] => Raise RuntimeError                       (* torch.cat of no tensor *)
  | _ =>
      match n_levels max_shrink n_grid with
      | Ok (S _) =>
          Ok (concat (map best_max_val sts), concat (map best_min_val sts))
      | _ => Raise UnboundLocalError                (* del org_out *)
      end
  end.

(** What [apply_clip] leaves on the layer: the clamped weight (v1), or the
    two factor buffers and the key they are saved under (v2). *)
Inductive Clipped : Type :=
  | ClippedWeight (w : list (list A))
  | ClipFactors (up_factor : list A) (low_factor : option (list A))
                (saved_as : option string).

(** [t.reshape(a, b, -1)] of a flat buffer, with the shape [(a, b)] of
    [max_val.shape[:2]]. *)
Definition reshape_like (bound : list (list A)) (flat : list A)
  : result (list (list (list A))) :=
  let a := length bound in
  let b := match bound with r :: _ => length r | [] => 0 end in
  k ← infer_dim (length flat) (a * b);
  Ok (map (chunks k b) (chunks (b * k) a flat)).

Definition get_clip_factor (self : Self) (block_idx : nat) (weight : list (list A))
    (min_val max_val : list (list A)) (layer_name : string)
  : result (list A * option (list A)) :=
  let wq := get_wquantizer block_idx layer_name (mix_bits_map self)
              (quantizer_mix_bits self) (wquantizer self) in
  let '(org_min_val, org_max_val) := get_minmax_range wq (reshape_tensor wq weight) in
  let factor bound org :=
    flat3 (zip_with (fun brow orow =>
                       zip_with (fun b og => map (fun o => logit (s_div b o)) og)
                                brow orow)
                    bound org) in
  if clip_sym self then
    let abs_max_val :=
      map (fun m => let lo := s_of_Q (1 # 100000) in
                    if s_isnan m then m else if s_ltb m lo then lo else m)
          (zip_with (fun a b => s_max (s_abs a) (s_abs b)) org_max_val org_min_val) in
    abs3 ← reshape_like max_val abs_max_val;
    Ok (factor max_val abs3, None)
  else
    max3 ← reshape_like max_val org_max_val;
    let up_factor := factor max_val max3 in
    min3 ← reshape_like min_val org_min_val;
    Ok (up_factor, Some (factor min_val min3)).

(** [apply_clip(layer, min_val, max_val, layer_name)] on the weight of
    [layer], a matrix of [org_shape] = (rows, columns). *)
Definition apply_clip (self : Self) (block_idx : nat) (block_name_prefix : string)
    (org_shape : nat * nat) (weight : list (list A))
    (min_val max_val : list (list A)) (layer_name : string)
  : result Clipped :=
  if String.eqb (clip_version self) "v1" then
    w3 ← match reshape_like max_val (concat weight) with
         | Ok t => Ok t
         | Raise RuntimeError =>
             reshape_like max_val (concat (reshape_tensor (wquantizer self) weight))
         | Raise e => Raise e
         end;
    let min_val := if clip_sym self then map (map s_neg) max_val else min_val in
    let clamped :=
      zip_with (fun wc (b : list A * list A) =>
                  zip_with (fun g (lh : A * A) => map (clamp (fst lh) (snd lh)) g)
                           wc (zip (fst b) (snd b)))
               w3 (zip min_val max_val) in
    match reshape (fst org_shape) (snd org_shape) (flat3 clamped) with
    | Ok w' => Ok (ClippedWeight w')
    | Raise RuntimeError =>
        Ok (ClippedWeight (restore_tensor (wquantizer self) clamped org_shape))
    | Raise e => Raise e
    end
  else if String.eqb (clip_version self) "v2" then
    '(up_factor, low_factor) ←
      get_clip_factor self block_idx weight min_val max_val layer_name;
    Ok (ClipFactors up_factor low_factor
          (if save_clip self
           then Some (block_name_prefix +:+ "." +:+ pretty block_idx +:+ "."
                        +:+ layer_name)
           else None))
  else Raise (Exception "Not support other clip version").

End Clip.

(* ===================================================================== *)
(** * Rotation *)
(* ===================================================================== *)

Section Rotation.
Context {A : Type} `{Scalar A}.
#[local] Abbreviation vector := (vector A).
#[local] Abbreviation matrix := (matrix A).
#[local] Abbreviation Linear := (Linear A).

(** A row vector times a matrix with [n] columns: the combination of the
    rows of [b] with the entries of [a] as coefficients. *)
Fixpoint vecmat (n : nat) (a : list A) (b : list (list A)) : list A :=
  match a, b with
  | x :: a', row :: b' => vadd (vscale x row) (vecmat n a' b')
  | _, _ => replicate n (s_of_Z 0)
  end.

(** The product of two matrices, the right one with [n] columns. *)
Definition mat_mul (n : nat) (a b : list (list A)) : list (list A) :=
  map (fun row => vecmat n row b) a.

(** [torch.matmul(a, b)] of two matrices, [a] with [inner] columns and
    [b] with [n] columns: equal dtypes and [b] with [inner] rows, else
    RuntimeError. *)
Definition matmul (inner n : nat) (a b : matrix) : result matrix :=
  if negb (bool_decide (dtype a = dtype b)) then Raise RuntimeError
  else if negb (length (data b) =? inner) then Raise RuntimeError
  else Ok (mkTensor (dtype a) (mat_mul n (data a) (data b))).

(** The identity matrix. *)
Fixpoint identity (n : nat) : list (list A) :=
  match n with
  | 0 => []
  | S n' => (s_of_Z 1 :: replicate n' (s_of_Z 0))
            :: map (cons (s_of_Z 0)) (identity n')
  end.

(** The rotation [Q], a 2-D tensor with its shape. *)
Record Rotation : Type := mkRotation {
  q_rows : nat;
  q_cols : nat;
  q_mat : matrix;
}.

(** [Q.T]. *)
Definition rot_T (Q : Rotation) : Rotation :=
  mkRotation (q_cols Q) (q_rows Q)
    (set_data (q_mat Q) (transpose (q_cols Q) (data (q_mat Q)))).

(** [t.shape[1]] of a weight: the length of its rows, whatever the
    [in_features] attribute says.  A weight without rows keeps no trace of
    its width in this representation and is taken as wide as it was
    created, [d]. *)
Definition n_columns (d : nat) (t : list (list A)) : nat :=
  match t with
  | row :: _ => length row
  | [] => d
  end.

(** One iteration of [rotate_pre_layers]: the weight is cast to float64,
    multiplied by [Q] on the right and cast back to its own dtype.  The
    product needs as many rows in [Q] as the weight has columns now: after
    a rotation that is not square these are no longer [in_features]. *)
Definition rotate_pre_layer (Q : Rotation) (layer : Linear) : result Linear :=
  let dt := dtype (weight layer) in
  let W := to_dtype Float64 (weight layer) in
  WQ ← matmul (n_columns (in_features layer) (data W)) (q_cols Q) W (q_mat Q);
  Ok (set_weight layer (to_dtype dt WQ)).

Definition rotate_pre_layers (pre_layers : list Linear) (Q : Rotation)
  : result (list Linear) :=
  map_result (rotate_pre_layer Q) pre_layers.

Section Post.
(** [apply_exact_had_to_linear(layer, had_dim=-1, output=False)] of
    hadamard_utils, which is not part of the sources. *)
Variable apply_exact_had_to_linear : Linear → Linear.

(** One iteration of [rotate_post_layers]. *)
Definition rotate_post_layer (self : Self) (Q : Rotation) (exact_had : bool)
    (layer : Linear) : result Linear :=
  let dt := dtype (weight layer) in
  let W := to_dtype Float64 (weight layer) in
  let QT := rot_T Q in
  QW ← matmul (q_cols QT) (in_features layer) (q_mat QT) W;
  let layer1 := set_weight layer (to_dtype dt QW) in
  let layer2 :=
    if exact_had && online_rotate self
    then apply_exact_had_to_linear layer1 else layer1 in
  match bias_tensor (bias layer2) with
  | Some b =>
      let b64 := to_dtype Float64 b in
      Qb ← matvec (q_cols QT) (q_mat QT) b64;
      Ok (set_bias layer2 (bias_update (bias layer2) (to_dtype dt Qb)))
  | None => Ok layer2
  end.

Definition rotate_post_layers (self : Self) (post_layers : list Linear)
    (Q : Rotation) (exact_had : bool) : result (list Linear) :=
  map_result (rotate_post_layer self Q exact_had) post_layers.
End Post.

(** A square float64 rotation of size [n]. *)
Definition wf_rotation (Q : Rotation) (n : nat) : Prop :=
  q_rows Q = n ∧ q_cols Q = n ∧ dtype (q_mat Q) = Float64 ∧
  length (data (q_mat Q)) = n ∧
  Forall (fun row => length row = n) (data (q_mat Q)).

End Rotation.

Arguments Rotation : clear implicits.

(* ===================================================================== *)
(** * Embeddings, heads and the folding of normalizations *)
(* ===================================================================== *)

Section Folding.
Context {A : Type} `{Scalar A}.
#[local] Abbreviation vector := (vector A).
#[local] Abbreviation matrix := (matrix A).
#[local] Abbreviation Linear := (Linear A).
#[local] Abbreviation Norm := (Norm A).
#[local] Abbreviation Rotation := (Rotation A).

(** An embedding layer: [weight] has one row of [embedding_dim] entries
    per token. *)
Record Embedding : Type := mkEmbedding {
  embedding_dim : nat;
  emb_weight : matrix;
}.

(** One iteration of [rotate_embeddings] and of [rotate_head]. *)
Definition rotate_embedding (Q : Rotation) (layer : Embedding) : result Embedding :=
  let dt := dtype (emb_weight layer) in
  let W := to_dtype Float64 (emb_weight layer) in
  WQ ← matmul (embedding_dim layer) (q_cols Q) W (q_mat Q);
  Ok (mkEmbedding (embedding_dim layer) (to_dtype dt WQ)).

Definition rotate_head_layer (Q : Rotation) (layer : Linear) : result Linear :=
  let dt := dtype (weight layer) in
  let W := to_dtype Float64 (weight layer) in
  WQ ← matmul (in_features layer) (q_cols Q) W (q_mat Q);
  Ok (set_weight layer (to_dtype dt WQ)).

(** [rotate_embeddings] and [rotate_head], on the layers
    [self.model.get_embed_layers()] and [self.model.get_head_layers()]
    return. *)
Definition rotate_embeddings (embeddings : list Embedding) (Q : Rotation)
  : result (list Embedding) :=
  _ ← assert (length embeddings =? 1);
  map_result (rotate_embedding Q) embeddings.

Definition rotate_head (heads : list Linear) (Q : Rotation)
  : result (list Linear) :=
  map_result (rotate_head_layer Q) heads.

(** [t.sum()] and [t.mean()] of a 1-D tensor; the mean of no entry is
    [0 / 0]. *)
Fixpoint vsum (l : list A) : A :=
  match l with
  | [] => s_of_Z 0
  | a :: l' => s_add a (vsum l')
  end.

Definition mean (l : list A) : A :=
  s_div (vsum l) (s_of_Z (Z.of_nat (length l))).

(** [W * g] for a matrix with [ncols] columns and a 1-D tensor, out of
    place: [g] has [ncols] entries, or one of the two sizes is 1 and that
    operand is repeated; else RuntimeError. *)
Definition mul_rows (ncols : nat) (w : list (list A)) (g : list A)
  : result (list (list A)) :=
  if length g =? ncols then Ok (map (fun row => zip_with s_mul row g) w)
  else match g with
       | [y] => Ok (map (map (fun x => s_mul x y)) w)
       | _ =>
           if ncols =? 1
           then Ok (map (flat_map (fun x => map (s_mul x) g)) w)
           else Raise RuntimeError
       end.

(** [a + b] of two 1-D tensors, out of place. *)
Definition add_bcast (a b : list A) : result (list A) :=
  if length a =? length b then Ok (zip_with s_add a b)
  else match a, b with
       | [x], _ => Ok (map (s_add x) b)
       | _, [y] => Ok (map (fun x => s_add x y) a)
       | _, _ => Raise RuntimeError
       end.

(** One iteration of [fuse_ln_fcs]: the weight of [ln] is multiplied into
    the columns of [fc.weight], and, when [ln] has a bias, [W @ ln.bias]
    (with the weight [W] read before the multiplication) is added to the
    bias of [fc], which is created as zeros when [fc] has none.  The
    products are taken on float64 operands; weight and bias are stored
    with the dtype the weight had. *)
Definition fuse_ln_fc (ln : Norm) (fc : Linear) : result Linear :=
  let fc_dtype := dtype (weight fc) in
  let W := to_dtype Float64 (weight fc) in
  w' ← mul_rows (in_features fc) (data W) (data (ln_weight ln));
  let fc1 := set_weight fc (to_dtype fc_dtype (set_data W w')) in
  match ln_bias ln with
  | Some lb =>
      let slot :=
        match bias fc1 with
        | BiasNone =>
            BiasParam (mkTensor Float64 (replicate (out_features fc1) (s_of_Z 0)))
        | b => b
        end in
      match bias_tensor slot with
      | Some b =>
          t ← matvec (in_features fc) W (to_dtype Float64 lb);
          b' ← add_bcast (data b) (data t);
          Ok (set_bias fc1 (bias_update slot (mkTensor fc_dtype b')))
      | None => Ok fc1
      end
  | None => Ok fc1
  end.

Definition fuse_ln_fcs (ln : Norm) (fcs : list Linear) : result (list Linear) :=
  map_result (fuse_ln_fc ln) fcs.

(** [remove_mean_from_embed]: every row of every embedding weight has its
    mean subtracted, in float64, and is stored with the dtype it had. *)
Definition remove_mean_from_embed (embeddings : list Embedding) : list Embedding :=
  map (fun layer =>
         let W := to_dtype Float64 (emb_weight layer) in
         mkEmbedding (embedding_dim layer)
           (to_dtype (dtype (emb_weight layer))
              (set_data W (map (fun row => let m := mean row in
                                           map (fun x => s_sub x m) row)
                               (data W)))))
      embeddings.

(** [bake_mean_into_fc]: every column of the weight has its mean (over
    the output features) subtracted, and the bias, when there is one, its
    own mean. *)
Definition bake_mean_into_fc (fc : Linear) : Linear :=
  let fc_dtype := dtype (weight fc) in
  let W_ := to_dtype Float64 (weight fc) in
  let col_mean := map mean (transpose (in_features fc) (data W_)) in
  let fc1 :=
    set_weight fc
      (to_dtype fc_dtype
         (set_data W_ (map (fun row => zip_with s_sub row col_mean) (data W_)))) in
  match bias_tensor (bias fc1) with
  | Some b =>
      let b_ := to_dtype Float64 b in
      let m := mean (data b_) in
      set_bias fc1
        (bias_update (bias fc1)
           (to_dtype fc_dtype (set_data b_ (map (fun x => s_sub x m) (data b_)))))
  | None => fc1
  end.

(** The elementwise affine map of a normalization layer, applied to an
    already normalized input: [weight * x + bias]. *)
Definition norm_affine (ln : Norm) (x : list A) : list A :=
  let y := zip_with s_mul (data (ln_weight ln)) x in
  match ln_bias ln with
  | Some b => zip_with s_add y (data b)
  | None => y
  end.

End Folding.

Arguments Embedding : clear implicits.

(* ===================================================================== *)
(** * Derived notions used by the statements *)
(* ===================================================================== *)

(** [1 / s]. *)
Definition reciprocal {A} `{Scalar A} (s : vector A) : vector A :=
  set_data s (map (s_div (s_of_Z 1)) (data s)).

(** The bias slot with [f] applied to its tensor. *)
Definition bias_map {A} (f : vector A → vector A) (b : Bias A) : Bias A :=
  match b with
  | BiasNone => BiasNone
  | BiasParam t => BiasParam (f t)
  | BiasBuffer t => BiasBuffer (f t)
  end.

(** The pairs the scale transform supports, for a scale vector of [n]
    entries: a linear layer feeding one linear layer of equal (non-zero)
    width [n], or a normalization of width [n] feeding linear layers of
    input width [n]. *)
Definition scalable {A} `{Scalar A} (prev : Module A) (layers : list (Linear A))
    (n : nat) : Prop :=
  match prev with
  | LinearOp fc1 =>
      ∃ fc2, layers = [fc2] ∧ wf_linear fc1 ∧ wf_linear fc2 ∧
             out_features fc1 = in_features fc2 ∧ in_features fc2 ≠ 0 ∧
             n = out_features fc1
  | NormOp ln =>
      length (data (ln_weight ln)) = n ∧
      (∀ b, ln_bias ln = Some b → length (data b) = n) ∧
      Forall (fun fc => wf_linear fc ∧ in_features fc = n) layers
  | OtherOp => False
  end.

(** A selector the allocator accepts for [n] blocks: a bare name, or
    [name#i-j-k] whose pieces [int()] reads and that index one of the
    blocks. *)
Definition selector_ok (n : nat) (name : string) : bool :=
  match split "#" name with
  | [_] => true
  | [_; idx] =>
      forallb (fun p => match py_int p with
                        | Ok k => is_ok (py_index n k)
                        | Raise _ => false
                        end)
              (split "-" idx)
  | _ => false
  end.

(** The packed layout of a fused projection with heads of width [hd]:
    the output index [o] lies in head [o / (3 hd)], whose rows are the
    Q, K and V parts in this order; [o] is in a V part when its offset in
    the head is at least [2 hd], and is then scaled by entry
    [v_index hd o] of the scale vector. *)
Definition is_v (hd o : nat) : bool := 2 * hd <=? o mod (3 * hd).

Definition v_index (hd o : nat) : nat :=
  o / (3 * hd) * hd + (o mod (3 * hd) - 2 * hd).

Definition qkv_scale {A} `{Scalar A} (hd : nat) (s : list A) (o : nat) (x : A) : A :=
  if is_v hd o then s_div x (nth (v_index hd o) s (s_of_Z 0)) else x.

(** The fused-QKV rescaling of one packed row of [num_heads] heads. *)
Definition qkv_row {A} `{Scalar A} (num_heads hd : nat) (s r : list A) : list A :=
  let b3 := view3 num_heads hd r in
  flat3 (set_part2 b3 (chunks hd num_heads (zip_with s_div (concat (part2 b3)) s))).

(** The override recorded for layer [n] of block [k]: the index of an
    entry of [quantizer_mix_bits], or [None], with which the layer falls
    back to the global default quantizer. *)
Definition mix_bits_lookup (m : list (gmap string nat)) (k : nat) (n : string)
  : option nat :=
  m !! k ≫= (fun block => block !! n).

(** Whether the index [z] addresses block [k] of [n] blocks. *)
Definition hits (n : nat) (z : Z) (k : nat) : bool :=
  match py_index n z with
  | Ok pos => pos =? k
  | Raise _ => false
  end.

(** The mixed-bit map as the specification words it.  A selector [name]
    applies to that layer name in every block, a selector [name#i-j-k]
    only to the blocks with the listed indices. *)
Definition spec_selects (num_blocks : nat) (selector : string) (k : nat)
    (n : string) : bool :=
  match split "#" selector with
  | [name] => String.eqb name n && (k <? num_blocks)
  | [name; idx] =>
      String.eqb name n &&
      existsb (fun p => match py_int p with
                        | Ok z => match py_index num_blocks z with
                                  | Ok pos => pos =? k
                                  | Raise _ => false
                                  end
                        | Raise _ => false
                        end)
              (split "-" idx)
  | _ => false
  end.

(** Later settings overwrite earlier ones: the override of block [k] and
    layer [n] is the index of the last setting with a selector that
    applies ([acc] when there is none); settings are numbered from [i]. *)
Fixpoint spec_override (num_blocks i : nat) (settings : list (list string))
    (k : nat) (n : string) (acc : option nat) : option nat :=
  match settings with
  | [] => acc
  | selectors :: rest =>
      spec_override num_blocks (S i) rest k n
        (if existsb (fun s => spec_selects num_blocks s k n) selectors
         then Some i else acc)
  end.

(** The entry of channel [c] and group [g]. *)
Definition at2 {T} (t : list (list T)) (c g : nat) : option T :=
  t !! c ≫= (fun row => row !! g).

(** The integer [z] as an exact rational. *)
Definition qz (z : Z) : Qc := Q2Qc (inject_Z z).

(** The relative error of the double [x] against [y], and the tolerance
    [1e-6], in binary64. *)
Definition rel_err (x y : float) : float :=
  PrimFloat.div (PrimFloat.abs (PrimFloat.sub x y)) (PrimFloat.abs y).

Definition tol_1e6 : float := PrimFloat.div 1 1000000.

(* ===================================================================== *)
(** * Data of the scenarios *)
(* ===================================================================== *)

Definition quantizer0 : Quantizer :=
  mkQuantizer 4 "per_channel" 0 true "minmax" 1.

(** A model with [heads] attention heads and [blocks] blocks, and [self]
    for it as [set_quant_config] leaves it for a configuration with the
    [weight] entry only. *)
Definition model_with (heads : nat) : Model :=
  mkModel "Llama" 4 heads 16 heads (Some heads) false.

Definition self_with (heads blocks : nat) : Self :=
  mkSelf (model_with heads) blocks false false (replicate blocks ∅) [] false 1
    quantizer0 true None true false false "v1" true false None None false 4
    None None None None.

(** Scenario 1: [W = diag(1, 2, 3, 4)], [s = (1, 2, 1, 2)], the input
    [(1, 1, 1, 1)]; over the rationals and in binary64. *)
Definition diag1234 : list (list Z) :=
  [[1; 0; 0; 0]; [0; 2; 0; 0]; [0; 0; 3; 0]; [0; 0; 0; 4]]%Z.

Definition fc_diag {A} `{Scalar A} : Linear A :=
  mkLinear 4 4 (mkTensor Float64 (map (map s_of_Z) diag1234)) BiasNone.

Definition s1212 {A} `{Scalar A} : vector A :=
  mkTensor Float64 (map s_of_Z [1; 2; 1; 2]%Z).

Definition ones4 {A} `{Scalar A} : list A := map s_of_Z [1; 1; 1; 1]%Z.

(** A normalization of width 1 feeding a 1-by-1 linear layer, in binary64,
    with a scale vector and a weight that hold a zero. *)
Definition ln_one : Norm float := mkNorm (mkTensor Float64 [1%float]) None.
Definition ln_zero : Norm float := mkNorm (mkTensor Float64 [0%float]) None.
Definition fc_one : Linear float :=
  mkLinear 1 1 (mkTensor Float64 [[1%float]]) BiasNone.
Definition fc_zero : Linear float :=
  mkLinear 1 1 (mkTensor Float64 [[0%float]]) BiasNone.
Definition s_zero : vector float := mkTensor Float64 [0%float].

Definition ln_2m1073 : Norm float :=
  mkNorm (mkTensor Float64 [0x1p-1073%float]) None.
Definition s_three : vector float := mkTensor Float64 [3%float].
Definition ln_03 : Norm float :=
  mkNorm (mkTensor Float64 [0x1.3333333333333p-2%float]) None.
Definition s_seven : vector float := mkTensor Float64 [7%float].

(** A half-precision layer with a bias, and half-precision and
    double-precision shift vectors. *)
Definition fc_half : Linear Qc :=
  mkLinear 2 2 (mkTensor Float16 [[qz 1; qz 2]; [qz 3; qz 4]])
           (BiasParam (mkTensor Float16 [qz 1; qz 1])).
Definition shifts_half : vector Qc := mkTensor Float16 [qz 1; qz 1].
Definition shifts_double : vector Qc := mkTensor Float64 [qz 1; qz 1].
Definition ln_half : Norm Qc :=
  mkNorm (mkTensor Float16 [qz 1; qz 1]) (Some (mkTensor Float16 [qz 2; qz 2])).
Definition self_biased : Self :=
  mkSelf (mkModel "Llama" 4 1 16 1 (Some 1) true) 3 false false
    (replicate 3 ∅) [] false 1 quantizer0 true None true false false "v1" true
    false None None false 4 None None None None.

(** Configurations: weight-only with defaults; with clip version ["v3"];
    with clip version ["v2"] on a min-max quantizer; with a selector that
    has two ['#']. *)
Definition special_with (version : string) : Special :=
  mkSpecial None None None (Some version) None None None None None None.

Definition config_plain : QuantConfig :=
  mkQuantConfig None None None quantizer0 None None.

Definition config_v3 : QuantConfig :=
  mkQuantConfig None None None quantizer0 None (Some (special_with "v3")).

Definition config_v2_minmax : QuantConfig :=
  mkQuantConfig None None None quantizer0 None (Some (special_with "v2")).

Definition config_bad_selector : QuantConfig :=
  mkQuantConfig (Some [mkMixBitsSetting ["a#0#1"] false None None])
    None None quantizer0 None None.

(** [self] after [set_quant_config] on [config_v3]. *)
Definition self_v3 : Self :=
  mkSelf (model_with 1) 3 false false (replicate 3 ∅) [] false 1
    quantizer0 true None true false false "v3" true false None None false 4
    None None None None.

(** Scenario 3: the weight row [(-5, -1, 0, 3)] as one channel with one
    group of four, and one captured input of four tokens, the identity
    pattern.  The quantizer stand-ins: every layer uses the default
    quantizer, weight-only, and simulated quantization is exact. *)
Definition row3 : list (list (list Qc)) := [[[qz (-5); qz (-1); qz 0; qz 3]]].

Definition identity4 : list (list Qc) :=
  [[qz 1; qz 0; qz 0; qz 0]; [qz 0; qz 1; qz 0; qz 0];
   [qz 0; qz 0; qz 1; qz 0]; [qz 0; qz 0; qz 0; qz 1]].

Definition default_aquantizer (_ : nat) (_ : string) (_ : list (gmap string nat))
    (_ : list QuantizerMixBits) (_ : option Quantizer) : Quantizer := quantizer0.

Definition default_w_only (_ : nat) (_ : string) (_ : list (gmap string nat))
    (_ : list QuantizerMixBits) (b : bool) : bool := b.

Definition exact_quant {T} (_ : Quantizer) (t : T) : T := t.

(** Scenario 4: one setting with the selector ["block.0.mlp.fc1#0-2"] on
    three blocks; and a second setting that names the layer again. *)
Definition setting_fc1 : MixBitsSetting :=
  mkMixBitsSetting ["block.0.mlp.fc1#0-2"] true (Some quantizer0) None.

Definition setting_fc1_all : MixBitsSetting :=
  mkMixBitsSetting ["block.0.mlp.fc1"] false None None.

(** The rotation that swaps the two coordinates, and the layer
    [diag(1, 2)], in binary64. *)
Definition Q_swap : Rotation float :=
  mkRotation 2 2 (mkTensor Float64 [[0; 1]; [1; 0]]%float).

Definition fc_diag12 : Linear float :=
  mkLinear 2 2 (mkTensor Float64 [[1; 0]; [0; 2]]%float) BiasNone.

Definition Qc_swap : Rotation Qc :=
  mkRotation 2 2 (mkTensor Float64 [[qz 0; qz 1]; [qz 1; qz 0]]).

Definition fc_scalar3 : Linear Qc :=
  mkLinear 2 2 (mkTensor Float32 [[qz 3; qz 0]; [qz 0; qz 3]]) BiasNone.

(** Scenario 2: a fused-QKV layer of output width 12 (row [i] of its
    weight is [(i, 100 + i)], its bias is [(1, ..., 12)]) feeding a layer
    of input width 4, with the scale [(2, 2, 2, 2)]. *)
Definition fc_qkv : Linear float :=
  mkLinear 2 12
    (mkTensor Float64
       [[1; 101]; [2; 102]; [3; 103]; [4; 104]; [5; 105]; [6; 106];
        [7; 107]; [8; 108]; [9; 109]; [10; 110]; [11; 111]; [12; 112]]%float)
    (BiasParam (mkTensor Float64 [1; 2; 3; 4; 5; 6; 7; 8; 9; 10; 11; 12]%float)).

Definition s2222 : vector float := mkTensor Float64 [2; 2; 2; 2]%float.

(* ===================================================================== *)
(** * Notions and data of the further properties *)
(* ===================================================================== *)

(** [-t]. *)
Definition negated {A} `{Scalar A} (t : vector A) : vector A :=
  set_data t (map s_neg (data t)).

(** The pairs on which a shift can be taken back, for a shift vector
    [t]: two linear layers of equal (non-zero) width, the second with a
    bias or in a run without [use_shift]; or, in a model with biases, a
    normalization with a bias feeding linear layers with biases. *)
Definition shiftable {A} `{Scalar A} (self : Self) (prev : Module A)
    (layers : list (Linear A)) (t : vector A) : Prop :=
  match prev with
  | LinearOp fc1 =>
      ∃ fc2, layers = [fc2] ∧ wf_linear fc1 ∧ wf_linear fc2 ∧
             out_features fc1 = in_features fc2 ∧ in_features fc2 ≠ 0 ∧
             length (data t) = out_features fc1 ∧
             dtype (weight fc2) = dtype t ∧
             (is_Some (bias_tensor (bias fc2)) ∨ use_shift self = false)
  | NormOp ln =>
      has_bias (model self) = true ∧
      (∃ b, ln_bias ln = Some b ∧ length (data b) = length (data t)) ∧
      Forall (fun fc => wf_linear fc ∧ in_features fc = length (data t) ∧
                        dtype (weight fc) = dtype t ∧
                        is_Some (bias_tensor (bias fc))) layers
  | OtherOp => False
  end.

(** The V parts of a packed vector of [num_heads] heads of width [hd],
    head after head: what [y.reshape(num_heads, 3, -1)[:, 2, :]] reads. *)
Definition v_part {T} (num_heads hd : nat) (y : list T) : list T :=
  concat (part2 (view3 num_heads hd y)).

(** A normalization of width 2 with a bias, a 2-by-2 layer with a bias,
    and a scale vector. *)
Definition ln_12 : Norm Qc :=
  mkNorm (mkTensor Float32 [qz 1; qz 2]) (Some (mkTensor Float32 [qz 3; qz 4])).
Definition fc_1234 : Linear Qc :=
  mkLinear 2 2 (mkTensor Float32 [[qz 1; qz 2]; [qz 3; qz 4]])
           (BiasParam (mkTensor Float32 [qz 5; qz 6])).
Definition s_24 : vector Qc := mkTensor Float32 [qz 2; qz 4].


(** An embedding of two tokens of width 2. *)
Definition emb_1234 : Embedding Qc :=
  mkEmbedding 2 (mkTensor Float16 [[qz 1; qz 2]; [qz 3; qz 4]]).

(** A configuration with the two mixed-bit settings of scenario 4, and
    [self] as [set_quant_config] leaves it. *)
Definition config_fc1 : QuantConfig :=
  mkQuantConfig (Some [setting_fc1; setting_fc1_all]) None None quantizer0 None None.

Definition self_fc1 : Self :=
  mkSelf (model_with 1) 3 false true
    [{["block.0.mlp.fc1"%string := 1]}; {["block.0.mlp.fc1"%string := 1]};
     {["block.0.mlp.fc1"%string := 1]}]
    [mkQuantizerMixBits ["block.0.mlp.fc1#0-2"%string] true (Some true)
       (Some quantizer0) None;
     mkQuantizerMixBits ["block.0.mlp.fc1"%string] false None None None]
    false 1 quantizer0 true None true false false "v1" true false None None
    false 4 None None None None.

(** A configuration that quantizes activations on two tensor-parallel
    ranks, saves scales and clips and rotates online, and [self] as
    [set_quant_config] leaves it on a Llama model of two heads. *)
Definition special_all : Special :=
  mkSpecial None (Some true) (Some true) None None None (Some "scales.pth"%string)
    (Some "clips.pth"%string) (Some true) None.

Definition config_all : QuantConfig :=
  mkQuantConfig None None (Some 2) quantizer0 (Some quantizer0) (Some special_all).

Definition self_all : Self :=
  mkSelf (model_with 2) 3 false false (replicate 3 ∅) [] false 2
    (with_tp quantizer0 2) false (Some (with_tp quantizer0 2)) true true true
    "v1" true false (Some "scales.pth"%string) (Some "clips.pth"%string) true 4
    (Some 2) (Some 2) (Some 16) (Some false).

(** A fused projection of one head of width 1 (three outputs) feeding a
    layer of input width 1. *)
Definition fc_qkv1 : Linear Qc :=
  mkLinear 2 3 (mkTensor Float32 [[qz 1; qz 2]; [qz 3; qz 4]; [qz 5; qz 6]])
           (BiasParam (mkTensor Float32 [qz 1; qz 2; qz 3])).
Definition fc_out1 : Linear Qc :=
  mkLinear 1 1 (mkTensor Float32 [[qz 2]]) BiasNone.
Definition s_2 : vector Qc := mkTensor Float32 [qz 2].

(* ===================================================================== *)
(** * Properties *)
(* ===================================================================== *)

(** ** Broadcasting and in-place operations on matching sizes *)

Lemma expand_same {A} `{Scalar A} (n : nat) (s : list A) :
  length s = n → expand n s = Ok s.
Proof. intros <-. unfold expand. by rewrite Nat.eqb_refl. Qed.

Lemma vec_op_same {A} `{Scalar A} (op : A → A → A) (t : vector A) (s : list A) :
  length s = length (data t) →
  vec_op_ op t s = Ok (set_data t (zip_with op (data t) s)).
Proof. intros Hl. unfold vec_op_. by rewrite expand_same. Qed.

Lemma rows_div_same {A} `{Scalar A} (w : matrix A) (s : list A) :
  length s = length (data w) →
  rows_div_ w s
  = Ok (set_data w (zip_with (λ row si, map (λ x, s_div x si) row) (data w) s)).
Proof. intros Hl. unfold rows_div_. by rewrite expand_same. Qed.

Lemma cols_mul_same {A} `{Scalar A} (n : nat) (w : matrix A) (s : list A) :
  length s = n →
  cols_mul_ n w s = Ok (set_data w (map (λ row, zip_with s_mul row s) (data w))).
Proof. intros Hl. unfold cols_mul_. by rewrite expand_same. Qed.

(** ** Exact arithmetic *)

Open Scope Qc_scope.

Ltac qc_norm :=
  cbn [s_add s_sub s_mul s_div s_neg s_of_Z Qc_scalar] in *;
  change (Q2Qc (inject_Z 0)) with (Q2Qc 0) in *;
  change (Q2Qc (inject_Z 1)) with (Q2Qc 1) in *.
Ltac qc_field := qc_norm; field; auto.

Lemma Qc_pos_nonzero (s : list Qc) :
  Forall (λ c, 0 < c) s → Forall (λ c, c ≠ 0) s.
Proof.
  intros Hp. eapply Forall_impl; [exact Hp|].
  intros c Hc Heq. symmetry in Heq. by apply Qclt_not_eq in Hc.
Qed.

Lemma Qc_dot_div_l (s : Qc) (row x : list Qc) :
  s ≠ 0 → dot (map (λ a, a / s) row) x = dot row x / s.
Proof.
  intros Hs. revert x. induction row as [|a row IH]; intros [|b x]; simpl.
  1-3: qc_field.
  rewrite IH. qc_field.
Qed.

Lemma Qc_dot_scale_cancel (s r y : list Qc) :
  (length r ≤ length s)%nat → Forall (λ c, c ≠ 0) s →
  dot (zip_with Qcmult r s) (zip_with Qcdiv y s) = dot r y.
Proof.
  intros Hlen Hs. revert r y Hlen.
  induction Hs as [|c s Hc Hs IH]; intros [|a r] [|b y] Hlen;
    simpl in *; try done; try lia.
  rewrite IH by lia. qc_field.
Qed.

Lemma Qc_forward_rows_div (rows : list (list Qc)) (s x : list Qc) :
  Forall (λ c, c ≠ 0) s →
  map (λ row, dot row x) (zip_with (λ row si, map (λ a, a / si) row) rows s)
  = zip_with Qcdiv (map (λ row, dot row x) rows) s.
Proof.
  intros Hs. revert rows.
  induction Hs as [|c s Hc Hs IH]; intros [|r rows]; simpl; try done.
  by rewrite Qc_dot_div_l, IH.
Qed.

Lemma Qc_zip_div_add (y b s : list Qc) :
  Forall (λ c, c ≠ 0) s →
  zip_with Qcplus (zip_with Qcdiv y s) (zip_with Qcdiv b s)
  = zip_with Qcdiv (zip_with Qcplus y b) s.
Proof.
  intros Hs. revert y b.
  induction Hs as [|c s Hc Hs IH]; intros [|a y] [|d b]; simpl; try done.
  rewrite IH. f_equal. qc_field.
Qed.

(** The preceding layer after the division computes the old output
    divided by [s]. *)
Lemma Qc_forward_scaled_prev (i o : nat) (w : matrix Qc) (b : Bias Qc)
    (s x : list Qc) (w' : matrix Qc) (b' : Bias Qc) :
  Forall (λ c, c ≠ 0) s →
  data w' = zip_with (λ row si, map (λ a, a / si) row) (data w) s →
  (data <$> bias_tensor b') = ((λ t, zip_with Qcdiv (data t) s) <$> bias_tensor b) →
  linear_forward (mkLinear i o w' b') x
  = zip_with Qcdiv (linear_forward (mkLinear i o w b) x) s.
Proof.
  intros Hs Hw Hb. unfold linear_forward; simpl. rewrite Hw.
  rewrite Qc_forward_rows_div by done.
  destruct (bias_tensor b') as [t'|], (bias_tensor b) as [t|]; simpl in Hb; try done.
  injection Hb as ->. by apply Qc_zip_div_add.
Qed.

(** The following layer after the multiplication undoes a division of its
    input by [s]. *)
Lemma Qc_forward_scaled_next (fc2 : Linear Qc) (w' : matrix Qc) (s y : list Qc) :
  Forall (λ row, length row = in_features fc2) (data (weight fc2)) →
  length s = in_features fc2 →
  Forall (λ c, c ≠ 0) s →
  data w' = map (λ row, zip_with Qcmult row s) (data (weight fc2)) →
  linear_forward (set_weight fc2 w') (zip_with Qcdiv y s) = linear_forward fc2 y.
Proof.
  intros Hr Hlen Hs Hw. unfold linear_forward; simpl. rewrite Hw, map_map.
  assert (map (λ x, dot (zip_with Qcmult x s) (zip_with Qcdiv y s)) (data (weight fc2))
          = map (λ row, dot row y) (data (weight fc2))) as ->; [|done].
  apply map_ext_Forall. eapply Forall_impl; [exact Hr|]. simpl. intros r Hrl.
  apply Qc_dot_scale_cancel; [lia|done].
Qed.

(** C1.  For two linear layers with [fc1.out_features = fc2.in_features]
    and a positive scale vector [s] with one entry per channel,
    [scale_fc_fc] returns; row [i] of [fc1.weight] and entry [i] of
    [fc1.bias] are divided by [s[i]], column [j] of [fc2.weight] is
    multiplied by [s[j]], and the composed map [fc2 ∘ fc1] is the same
    before and after, on every input.  (Exact arithmetic; the zero-width
    layer, on which the code takes the fused-QKV branch, is excluded.) *)
Theorem scale_fc_fc_equal_dims (self : Self) (fc1 fc2 : Linear Qc) (scales : vector Qc) :
  wf_linear fc1 → wf_linear fc2 →
  out_features fc1 = in_features fc2 → in_features fc2 ≠ 0%nat →
  length (data scales) = out_features fc1 →
  Forall (λ c, 0 < c) (data scales) →
  ∃ fc1' fc2',
    scale_fc_fc self fc1 fc2 scales = Ok (fc1', fc2') ∧
    data (weight fc1') =
      zip_with (λ row si, map (λ a, a / si) row) (data (weight fc1)) (data scales) ∧
    (data <$> bias_tensor (bias fc1')) =
      ((λ b, zip_with Qcdiv (data b) (data scales)) <$> bias_tensor (bias fc1)) ∧
    data (weight fc2') =
      map (λ row, zip_with Qcmult row (data scales)) (data (weight fc2)) ∧
    bias fc2' = bias fc2 ∧
    ∀ x, linear_forward fc2' (linear_forward fc1' x)
         = linear_forward fc2 (linear_forward fc1 x).
Proof.
  intros (Hw1 & Hr1 & Hb1) (Hw2 & Hr2 & Hb2) Hdim Hnz Hlen Hpos.
  pose proof (Qc_pos_nonzero _ Hpos) as Hs.
  unfold scale_fc_fc.
  assert ((out_features fc1 =? in_features fc2 * 3) = false) as ->
    by (apply Nat.eqb_neq; lia).
  assert ((out_features fc1 =? in_features fc2) = true) as ->
    by (apply Nat.eqb_eq; lia).
  rewrite rows_div_same, cols_mul_same by lia.
  destruct fc1 as [i1 o1 w1 [|b|b]]; simpl in *.
  all: rewrite ?vec_op_same by lia; simpl.
  all: eexists _, _; split; [reflexivity|]; simpl.
  all: repeat split; try done.
  all: intros x.
  1: rewrite (Qc_forward_scaled_prev i1 o1 w1 BiasNone (data scales)) by done.
  2: rewrite (Qc_forward_scaled_prev i1 o1 w1 (BiasParam b) (data scales)) by done.
  3: rewrite (Qc_forward_scaled_prev i1 o1 w1 (BiasBuffer b) (data scales)) by done.
  all: apply Qc_forward_scaled_next; [done|lia|done|done].
Qed.

(** Scenario 1 through the theorem: with [fc1 = fc2 = diag(1, 2, 3, 4)]
    and [s = (1, 2, 1, 2)] the composed output on [(1, 1, 1, 1)] is
    unchanged. *)
Lemma scale_fc_fc_equal_dims_witness :
  ∃ fc1' fc2',
    scale_fc_fc (self_with 1 3) fc_diag fc_diag s1212 = Ok (fc1', fc2') ∧
    linear_forward fc2' (linear_forward fc1' ones4)
    = linear_forward fc_diag (linear_forward fc_diag ones4).
Proof.
  destruct (scale_fc_fc_equal_dims (self_with 1 3) fc_diag fc_diag s1212)
    as (fc1' & fc2' & Hrun & _ & _ & _ & _ & Hfwd).
  - repeat split; repeat constructor.
  - repeat split; repeat constructor.
  - reflexivity.
  - simpl; lia.
  - reflexivity.
  - repeat constructor.
  - exists fc1', fc2'. split; [exact Hrun | apply Hfwd].
Defined.

(** The same scenario evaluated in binary64: the weights after the
    transform, and the composed output before and after. *)
Example scale_fc_fc_diag_float64 :
  scale_fc_fc (self_with 1 3) fc_diag fc_diag s1212
  = Ok (mkLinear 4 4 (mkTensor Float64
          [[1; 0; 0; 0]; [0; 1; 0; 0]; [0; 0; 3; 0]; [0; 0; 0; 2]]%float) BiasNone,
        mkLinear 4 4 (mkTensor Float64
          [[1; 0; 0; 0]; [0; 4; 0; 0]; [0; 0; 3; 0]; [0; 0; 0; 8]]%float) BiasNone)
  ∧ linear_forward (A:=float) fc_diag (linear_forward fc_diag ones4)
    = [1; 4; 9; 16]%float
  ∧ (∀ fc1' fc2',
       scale_fc_fc (self_with 1 3) fc_diag fc_diag s1212 = Ok (fc1', fc2') →
       linear_forward fc2' (linear_forward fc1' ones4) = [1; 4; 9; 16]%float).
Proof.
  split; [vm_compute; reflexivity|]. split; [vm_compute; reflexivity|].
  intros fc1' fc2' Hrun. vm_compute in Hrun. injection Hrun as <- <-.
  vm_compute. reflexivity.
Qed.

(** ** What the scale functions compute on matching sizes *)

Lemma map_result_ok {T U} (f : T → result U) (g : T → U) (l : list T) :
  Forall (λ x, f x = Ok (g x)) l → map_result f l = Ok (map g l).
Proof.
  induction 1 as [|x l Hx _ IH]; simpl; [done|]. by rewrite Hx, IH.
Qed.


Lemma Qc_no_nan (l : list Qc) : no_nan l = true.
Proof. unfold no_nan. by induction l. Qed.

Lemma Qc_forallb_no_nan (ls : list (list Qc)) : forallb no_nan ls = true.
Proof. induction ls as [|l ls IH]; simpl; [done|]. by rewrite Qc_no_nan. Qed.

Lemma Qc_scale_ln_fcs_run (ln : Norm Qc) (fcs : list (Linear Qc)) (scales : vector Qc) :
  length (data (ln_weight ln)) = length (data scales) →
  (∀ b, ln_bias ln = Some b → length (data b) = length (data scales)) →
  Forall (λ fc, in_features fc = length (data scales)) fcs →
  scale_ln_fcs ln fcs scales
  = Ok (mkNorm (set_data (ln_weight ln)
                  (zip_with Qcdiv (data (ln_weight ln)) (data scales)))
               ((λ b, set_data b (zip_with Qcdiv (data b) (data scales)))
                  <$> ln_bias ln),
        map (λ fc, set_weight fc
                     (set_data (weight fc)
                        (map (λ row, zip_with Qcmult row (data scales))
                             (data (weight fc)))))
            fcs).
Proof.
  intros Hw Hb Hfcs. unfold scale_ln_fcs.
  assert (map_result
            (λ fc, set_weight fc <$>
                     cols_mul_ (in_features fc) (weight fc) (data scales)) fcs
          = Ok (map (λ fc, set_weight fc
                     (set_data (weight fc)
                        (map (λ row, zip_with Qcmult row (data scales))
                             (data (weight fc))))) fcs)) as Hmap.
  { apply map_result_ok. eapply Forall_impl; [exact Hfcs|]. simpl. intros fc Hfc.
    by rewrite cols_mul_same. }
  assert (∀ l : list (Linear Qc),
            forallb (λ fc, forallb no_nan (linear_parameters fc)) l = true) as Hnn.
  { intros l. apply forallb_forall. intros fc _. apply Qc_forallb_no_nan. }
  destruct ln as [w [b|]]; simpl in *.
  - rewrite !vec_op_same by (lia || by rewrite (Hb b)). simpl.
    rewrite Hmap. simpl. by rewrite !Qc_no_nan, Hnn.
  - rewrite !vec_op_same by lia. simpl.
    rewrite Hmap. simpl. by rewrite !Qc_no_nan, Hnn.
Qed.

(** ** Undoing a scale with its reciprocal *)












(** Underflow does the same at the other end: a weight of two units of
    the smallest subnormal scaled by [3] and by [1 / 3] comes back as
    three units, half as much again. *)
Example apply_scale_round_trip_underflows :
  (r ← apply_scale (self_with 1 3) s_three [NormOp ln_2m1073] [fc_one];
   apply_scale (self_with 1 3) (reciprocal s_three) [r.1] r.2)
  = Ok (NormOp (mkNorm (mkTensor Float64 [(3 * 0x1p-1074)%float]) None), [fc_one]) ∧
  rel_err (3 * 0x1p-1074) 0x1p-1073 = 0.5%float.
Proof. split; vm_compute; reflexivity. Qed.

(** Away from the ends of the range the round trip rounds within the
    tolerance, without being exact: the double next to [0.3] scaled by
    [7] and by [1 / 7] comes back one unit in the last place higher. *)
Example apply_scale_round_trip_rounds :
  (r ← apply_scale (self_with 1 3) s_seven [NormOp ln_03] [fc_one];
   apply_scale (self_with 1 3) (reciprocal s_seven) [r.1] r.2)
  = Ok (NormOp (mkNorm (mkTensor Float64 [0x1.3333333333334p-2%float]) None),
        [fc_one]) ∧
  PrimFloat.ltb (rel_err 0x1.3333333333334p-2 0x1.3333333333333p-2) tol_1e6 = true.
Proof. split; vm_compute; reflexivity. Qed.

(** ** The NaN assertions of the normalization fusions *)

Close Scope Qc_scope.

Lemma bind_ok {T U} (m : result T) (k : T → result U) (u : U) :
  m ≫= k = Ok u → ∃ t, m = Ok t ∧ k t = Ok u.
Proof. destruct m as [t|e]; simpl; [eauto|done]. Qed.

Lemma assert_ok (c : bool) (u : unit) : assert c = Ok u → c = true.
Proof. by destruct c. Qed.

Ltac bind_inv H :=
  repeat (apply bind_ok in H; destruct H as (? & ? & H)).

(** C3 (as amended).  When [scale_ln_fcs] or [shift_ln_fcs] returns, no
    parameter of the normalization layer and no parameter of a following
    layer holds a NaN: a NaN fails the assertion.  Infinite entries pass. *)
Theorem ln_fusion_nan_guard {A} `{Scalar A} (self : Self) (ln : Norm A)
    (fcs : list (Linear A)) (v : vector A) :
  ∀ ln' fcs',
    scale_ln_fcs ln fcs v = Ok (ln', fcs') ∨
    shift_ln_fcs self ln fcs v = Ok (ln', fcs') →
    forallb no_nan (norm_parameters ln') = true ∧
    forallb (λ fc, forallb no_nan (linear_parameters fc)) fcs' = true.
Proof.
  intros ln' fcs' [Hrun|Hrun].
  - unfold scale_ln_fcs in Hrun. bind_inv Hrun.
    injection Hrun as <- <-.
    split; eapply assert_ok; eassumption.
  - unfold shift_ln_fcs in Hrun. bind_inv Hrun.
    injection Hrun as <- <-.
    split; eapply assert_ok; eassumption.
Qed.

(** A run that returns: the scale [(0)] on the normalization weight [(1)]. *)
Lemma ln_fusion_nan_guard_witness :
  forallb no_nan (norm_parameters (mkNorm (mkTensor Float64 [infinity]) None)) = true ∧
  forallb (λ fc, forallb no_nan (linear_parameters fc)) [fc_zero] = true.
Proof.
  apply (ln_fusion_nan_guard (self_with 1 3) ln_one [fc_one] s_zero).
  left. vm_compute. reflexivity.
Defined.

(** C3 fails as stated: dividing the normalization weight [(1)] by the
    scale [(0)] returns, and leaves an infinite weight behind. *)
Lemma scale_zero_divisor_not_raised :
  scale_ln_fcs ln_one [fc_one] s_zero
  = Ok (mkNorm (mkTensor Float64 [infinity]) None, [fc_zero])
  ∧ forallb all_finite (norm_parameters (mkNorm (mkTensor Float64 [infinity]) None))
    = false.
Proof. split; vm_compute; reflexivity. Qed.

(** Where the zero produces a NaN (0 / 0) the assertion does fail. *)
Example scale_zero_by_zero_raises :
  scale_ln_fcs ln_zero [fc_one] s_zero = Raise AssertionError.
Proof. vm_compute. reflexivity. Qed.

(** The linear-linear fusion has no assertion: the same 0 / 0 returns with
    a NaN weight. *)
Example scale_fc_fc_keeps_nan :
  ∃ fc1' fc2',
    scale_fc_fc (self_with 1 3) fc_zero fc_one s_zero = Ok (fc1', fc2') ∧
    forallb no_nan (linear_parameters fc1') = false.
Proof. eexists _, _. split; vm_compute; reflexivity. Qed.

(** ** The precision of the shift fold *)

Lemma shift_fold_dtype {A} `{Scalar A} (fc : Linear A) (shifts t : vector A) :
  shift_fold fc shifts = Ok t →
  dtype t = dtype (weight fc) ∧ dtype shifts = dtype (weight fc) ∧
  data t = map (λ row, dot row (data shifts)) (data (weight fc)).
Proof.
  unfold shift_fold, matvec. case_bool_decide as Hd; simpl; [|done].
  destruct (length (data shifts) =? in_features fc); simpl; [|done].
  intros [= <-]. done.
Qed.

Lemma vec_op_dtype {A} `{Scalar A} (op : A → A → A) (b b' : vector A) (s : list A) :
  vec_op_ op b s = Ok b' → dtype b' = dtype b.
Proof.
  unfold vec_op_. intros Hrun. bind_inv Hrun. by injection Hrun as <-.
Qed.

Lemma map_result_Forall2 {T U} (f : T → result U) (l : list T) (l' : list U) :
  map_result f l = Ok l' → Forall2 (λ x y, f x = Ok y) l l'.
Proof.
  revert l'. induction l as [|x l IH]; simpl; intros l' Hrun.
  - injection Hrun as <-. constructor.
  - bind_inv Hrun. injection Hrun as <-. constructor; [done|by apply IH].
Qed.

(** C10 (as amended).  In both shift functions the term folded into the
    bias of a following layer is the single product [fc.weight @ shifts],
    a tensor of the dtype of [fc.weight] (which [shifts] has to share);
    it is added in place to the bias, which keeps its dtype.  Nothing is
    cast to float64 or back. *)
Theorem shift_fold_in_weight_dtype {A} `{Scalar A} (self : Self)
    (fc1 fc2 : Linear A) (ln : Norm A) (fcs : list (Linear A)) (shifts : vector A) :
  (∀ fc1' fc2' b,
     shift_fc_fc self fc1 fc2 shifts = Ok (fc1', fc2') →
     bias_tensor (bias fc2) = Some b →
     ∃ t b', shift_fold fc2 shifts = Ok t ∧ dtype t = dtype (weight fc2) ∧
             bias_tensor (bias fc2') = Some b' ∧ dtype b' = dtype b ∧
             vec_op_ s_add b (data t) = Ok b') ∧
  (∀ ln' fcs',
     shift_ln_fcs self ln fcs shifts = Ok (ln', fcs') →
     has_bias (model self) = true →
     Forall2 (λ fc fc',
                ∃ b t b', bias_tensor (bias fc) = Some b ∧
                          shift_fold fc shifts = Ok t ∧
                          dtype t = dtype (weight fc) ∧
                          bias_tensor (bias fc') = Some b' ∧ dtype b' = dtype b ∧
                          vec_op_ s_add b (data t) = Ok b')
             fcs fcs').
Proof.
  split.
  - intros fc1' fc2' b Hrun Hb. unfold shift_fc_fc in Hrun.
    apply bind_ok in Hrun as (f1 & _ & Hrun).
    apply bind_ok in Hrun as (f2 & Hf2 & Hrun). injection Hrun as <- <-.
    unfold shift_fc_bias in Hf2. rewrite Hb in Hf2.
    apply bind_ok in Hf2 as (t & Ht & Hf2).
    apply bind_ok in Hf2 as (b' & Hb' & Hf2). injection Hf2 as <-.
    exists t, b'. repeat split; try done.
    + by apply shift_fold_dtype in Ht as (? & _).
    + simpl. by destruct (bias fc2).
    + by eapply vec_op_dtype.
  - intros ln' fcs' Hrun Hhas. unfold shift_ln_fcs in Hrun. rewrite Hhas in Hrun.
    apply bind_ok in Hrun as (l1 & _ & Hrun).
    apply bind_ok in Hrun as (l2 & Hl2 & Hrun).
    bind_inv Hrun. injection Hrun as <- <-.
    apply map_result_Forall2 in Hl2.
    eapply Forall2_impl; [exact Hl2|]. simpl. intros fc fc' Hfc.
    destruct (bias_tensor (bias fc)) as [b|] eqn:Hb; [|done].
    apply bind_ok in Hfc as (t & Ht & Hfc).
    apply bind_ok in Hfc as (b' & Hb' & Hfc). injection Hfc as <-.
    exists b, t, b'. repeat split; try done.
    + by apply shift_fold_dtype in Ht as (? & _).
    + simpl. by destruct (bias fc).
    + by eapply vec_op_dtype.
Qed.

(** A half-precision layer shifted by a half-precision vector: the fold
    is a half-precision tensor. *)
Lemma shift_fold_in_weight_dtype_witness :
  ∃ t b', shift_fold fc_half shifts_half = Ok t ∧ dtype t = Float16 ∧
          bias_tensor (bias fc_half) = Some b' ∧ dtype b' = Float16.
Proof.
  destruct (shift_fold_in_weight_dtype self_biased fc_half fc_half ln_half
              [fc_half] shifts_half) as [Hfc _].
  destruct (Hfc (mkLinear 2 2 (weight fc_half)
                   (BiasParam (mkTensor Float16 [qz 0; qz 0])))
                (mkLinear 2 2 (weight fc_half)
                   (BiasParam (mkTensor Float16 [qz 4; qz 8])))
                (mkTensor Float16 [qz 1; qz 1]))
    as (t & b' & Ht & Hdt & Hb & Hdb & _).
  - vm_compute. repeat f_equal; apply Qc_is_canon; reflexivity.
  - reflexivity.
  - exists t, (mkTensor Float16 [qz 1; qz 1]). repeat split; done.
Defined.

(** C10 fails as stated: on half-precision operands the fold is computed
    and returned in half precision, and a double-precision shift vector is
    refused by the product. *)
Lemma shift_fold_not_double :
  (∃ t, shift_fold fc_half shifts_half = Ok t ∧ dtype t = Float16) ∧
  is_ok (shift_fc_fc self_biased fc_half fc_half shifts_half) = true ∧
  is_ok (shift_ln_fcs self_biased ln_half [fc_half] shifts_half) = true ∧
  shift_fold fc_half shifts_double = Raise RuntimeError.
Proof.
  split; [eexists; split; reflexivity|].
  repeat split; vm_compute; reflexivity.
Qed.

(** ** What is checked when the configuration is read *)

Lemma py_index_lt (n : nat) (k : Z) (pos : nat) :
  py_index n k = Ok pos → pos < n.
Proof.
  unfold py_index.
  destruct ((0 <=? k)%Z && (k <? Z.of_nat n)%Z) eqn:E1.
  - intros [= <-]. apply andb_prop in E1 as [? ?]. lia.
  - destruct ((- Z.of_nat n <=? k)%Z && (k <? 0)%Z) eqn:E2; [|done].
    intros [= <-]. apply andb_prop in E2 as [? ?]. lia.
Qed.

Lemma mix_bits_map_set_length (m m' : list (gmap string nat)) k n i :
  mix_bits_map_set m k n i = Ok m' → length m' = length m.
Proof.
  unfold mix_bits_map_set. intros Hrun. bind_inv Hrun. injection Hrun as <-.
  by rewrite length_alter.
Qed.

Lemma for_each_set_length {T} (f : T → Z) (n : string) (i : nat)
    (ks : list T) (m m' : list (gmap string nat)) :
  for_each (λ m k, mix_bits_map_set m (f k) n i) m ks = Ok m' →
  length m' = length m ∧ Forall (λ k, is_ok (py_index (length m) (f k)) = true) ks.
Proof.
  revert m. induction ks as [|k ks IH]; simpl; intros m Hrun.
  - by injection Hrun as <-.
  - apply bind_ok in Hrun as (m1 & Hset & Hrun).
    pose proof (mix_bits_map_set_length _ _ _ _ _ Hset) as Hlen.
    apply IH in Hrun as [Hl Hks]. rewrite Hlen in Hl, Hks. split; [done|].
    constructor; [|done].
    unfold mix_bits_map_set in Hset. apply bind_ok in Hset as (pos & -> & _). done.
Qed.

Lemma forallb_parsed {T U} (f : T → result U) (P : U → bool) (l : list T) (l' : list U) :
  Forall2 (λ x y, f x = Ok y) l l' → Forall (λ k, P k = true) l' →
  forallb (λ p, match f p with Ok k => P k | Raise _ => false end) l = true.
Proof.
  induction 1 as [|x y l l' Hxy _ IH]; simpl; [done|].
  intros HP. inversion HP; subst. rewrite Hxy. rewrite IH by done.
  by apply andb_true_intro.
Qed.

Lemma alloc_name_ok (nb i : nat) (m m' : list (gmap string nat)) (name : string) :
  alloc_name nb i m name = Ok m' →
  length m' = length m ∧ selector_ok (length m) name = true.
Proof.
  unfold alloc_name, selector_ok. intros Hrun.
  apply bind_ok in Hrun as (u & Hassert & Hrun). apply assert_ok in Hassert.
  destruct (split "#" name) as [|n [|idx [|x rest]]]; simpl in Hassert; try done.
  - apply (for_each_set_length Z.of_nat) in Hrun as [Hl _]. done.
  - apply bind_ok in Hrun as (layeridx & Hparse & Hrun).
    apply (for_each_set_length id) in Hrun as [Hl Hks]. split; [done|].
    apply map_result_Forall2 in Hparse.
    by apply (forallb_parsed py_int (λ k, is_ok (py_index (length m) k)) _ layeridx).
Qed.

Lemma for_each_alloc_name_ok (nb i : nat) (names : list string)
    (m m' : list (gmap string nat)) :
  for_each (alloc_name nb i) m names = Ok m' →
  length m' = length m ∧ Forall (λ name, selector_ok (length m) name = true) names.
Proof.
  revert m. induction names as [|name names IH]; simpl; intros m Hrun.
  - by injection Hrun as <-.
  - apply bind_ok in Hrun as (m1 & Hname & Hrun).
    apply alloc_name_ok in Hname as [Hl1 Hok].
    apply IH in Hrun as [Hl Hoks]. rewrite Hl1 in Hl, Hoks. split; [done|].
    by constructor.
Qed.

Lemma alloc_loop_ok (nb i : nat) (qmb : list QuantizerMixBits)
    (m m' : list (gmap string nat)) :
  alloc_loop nb i m qmb = Ok m' →
  length m' = length m ∧
  Forall (λ q, Forall (λ name, selector_ok (length m) name = true) (layer_name q)) qmb.
Proof.
  revert i m. induction qmb as [|q qmb IH]; simpl; intros i m Hrun.
  - by injection Hrun as <-.
  - apply bind_ok in Hrun as (m1 & Hnames & Hrun).
    apply for_each_alloc_name_ok in Hnames as [Hl1 Hoks].
    apply IH in Hrun as [Hl Hrest]. rewrite Hl1 in Hl, Hrest. split; [done|].
    by constructor.
Qed.

Lemma quantizer_of_setting_name (st : MixBitsSetting) (q : QuantizerMixBits) :
  quantizer_of_setting st = Ok q → layer_name q = ms_layer_name st.
Proof.
  unfold quantizer_of_setting.
  destruct (ms_do_quant st); [destruct (ms_weight st)|]; by intros [= <-].
Qed.

Lemma alloc_bits_ok (nb : nat) (settings : list MixBitsSetting)
    (qmb : list QuantizerMixBits) (m : list (gmap string nat)) :
  alloc_bits nb [] (replicate nb ∅) settings = Ok (qmb, m) →
  length m = nb ∧
  Forall (λ st, Forall (λ name, selector_ok nb name = true) (ms_layer_name st))
         settings.
Proof.
  unfold alloc_bits. intros Hrun.
  apply bind_ok in Hrun as (new & Hnew & Hrun).
  apply bind_ok in Hrun as (m1 & Hloop & Hrun). injection Hrun as <- <-.
  apply alloc_loop_ok in Hloop as [Hl Hoks].
  rewrite length_replicate in Hl, Hoks. split; [done|].
  apply map_result_Forall2 in Hnew. simpl in Hoks.
  clear -Hnew Hoks. induction Hnew as [|st q sts qs Hq _ IH]; [done|].
  inversion Hoks; subst. constructor; [|by apply IH].
  by rewrite <- (quantizer_of_setting_name st q).
Qed.

(** C9 (as amended).  While the configuration is read ([set_quant_config],
    in the constructor, before any block is processed): every mixed-bit
    selector has to be a bare name or [name#i-j-k] with pieces [int()]
    reads and that index a block, and clip version ["v2"] has to come with
    the ["learnable"] calibration algorithm; otherwise the constructor
    raises.  The clip version itself is not checked there: with a version
    other than ["v1"] and ["v2"] it is [apply_clip], during block
    processing, that raises. *)
Theorem configuration_checks {A} `{Scalar A} (mdl : Model) (nb : nat) (shift : bool)
    (quant_config : QuantConfig) (self : Self) :
  set_quant_config mdl nb shift quant_config = Ok self →
  (∀ settings, qc_mix_bits quant_config = Some settings →
     Forall (λ st, Forall (λ name, selector_ok nb name = true) (ms_layer_name st))
            settings) ∧
  (clip_version self = "v2"%string → calib_algo (wquantizer self) = "learnable"%string) ∧
  (clip_version self ≠ "v1"%string → clip_version self ≠ "v2"%string →
   ∀ get_wquantizer reshape_tensor restore_tensor get_minmax_range s_log
     block_idx prefix org_shape (w : list (list A)) min_val max_val layer_name,
     apply_clip get_wquantizer reshape_tensor restore_tensor get_minmax_range s_log
       self block_idx prefix org_shape w min_val max_val layer_name
     = Raise (Exception "Not support other clip version")).
Proof.
  intros Hrun. unfold set_quant_config in Hrun.
  apply bind_ok in Hrun as ([qmb m1] & Halloc & Hrun).
  apply bind_ok in Hrun as (sp & _ & Hrun).
  apply bind_ok in Hrun as (cp & _ & Hrun).
  apply bind_ok in Hrun as (u1 & Hv2 & Hrun).
  apply bind_ok in Hrun as (u2 & _ & Hrun).
  apply bind_ok in Hrun as (hd & _ & Hrun).
  injection Hrun as <-. simpl. repeat split.
  - intros settings Hs. rewrite Hs in Halloc.
    by apply alloc_bits_ok in Halloc as [_ ?].
  - intros Hver. rewrite Hver in Hv2. simpl in Hv2.
    apply assert_ok in Hv2. by apply String.eqb_eq in Hv2.
  - intros Hv1 Hv2' *. unfold apply_clip. simpl.
    apply String.eqb_neq in Hv1, Hv2'. by rewrite Hv1, Hv2'.
Qed.

(** The checks on a configuration with clip version ["v3"]. *)
Lemma configuration_checks_witness :
  (∀ settings, qc_mix_bits config_v3 = Some settings →
     Forall (λ st, Forall (λ name, selector_ok 3 name = true) (ms_layer_name st))
            settings) ∧
  (clip_version self_v3 = "v2"%string →
   calib_algo (wquantizer self_v3) = "learnable"%string) ∧
  (clip_version self_v3 ≠ "v1"%string → clip_version self_v3 ≠ "v2"%string →
   ∀ get_wquantizer reshape_tensor restore_tensor get_minmax_range s_log
     block_idx prefix org_shape (w : list (list float)) min_val max_val layer_name,
     apply_clip get_wquantizer reshape_tensor restore_tensor get_minmax_range s_log
       self_v3 block_idx prefix org_shape w min_val max_val layer_name
     = Raise (Exception "Not support other clip version")).
Proof.
  apply (configuration_checks (A:=float) (model_with 1) 3 false config_v3 self_v3).
  reflexivity.
Defined.

(** C9 fails as stated for the clip version: the constructor accepts
    version ["v3"], and the error is raised by [apply_clip] once a layer
    of a block is clipped. *)
Lemma unknown_clip_version_not_rejected :
  set_quant_config (model_with 1) 3 false config_v3 = Ok self_v3 ∧
  apply_clip (A:=float) (λ _ _ _ _ q, q) (λ _ w, w) (λ _ _ _, []) (λ _ _, ([], []))
    (λ x, x) self_v3 0 "model.layers" (1, 1) [[1%float]] [[1%float]] [[1%float]]
    "mlp.fc1"
  = Raise (Exception "Not support other clip version").
Proof. split; reflexivity. Qed.

(** The two checks the constructor does make. *)
Example v2_without_learnable_raises :
  set_quant_config (model_with 1) 3 false config_v2_minmax = Raise AssertionError.
Proof. reflexivity. Qed.

Example selector_with_two_hashes_raises :
  set_quant_config (model_with 1) 3 false config_bad_selector = Raise AssertionError.
Proof. reflexivity. Qed.

(** ** Batches of output channels *)

Lemma batches_from {T} (bs n : nat) (w : list T) :
  length w = n * bs →
  concat (map (λ i_b, take bs (drop (i_b * bs) w)) (seq 0 n)) = w ∧
  Forall (λ b, length b = bs)
         (map (λ i_b, take bs (drop (i_b * bs) w)) (seq 0 n)).
Proof.
  revert w. induction n as [|n IH]; intros w Hlen.
  - destruct w; [done|simpl in Hlen; lia].
  - simpl. rewrite drop_0.
    destruct (IH (drop bs w)) as [Hcat Hall].
    { rewrite length_drop. lia. }
    assert (map (λ i_b, take bs (drop (i_b * bs) w)) (seq 1 n)
            = map (λ i_b, take bs (drop (i_b * bs) (drop bs w))) (seq 0 n)) as ->.
    { rewrite <- seq_shift, map_map. apply map_ext. intros i.
      by rewrite drop_drop. }
    rewrite Hcat. split; [apply take_drop|].
    constructor; [|done]. rewrite length_take. lia.
Qed.

Lemma oc_batch_size_cases (oc : nat) :
  (oc mod 256 = 0 ∧ oc_batch_size oc = 256) ∨
  (oc mod 256 ≠ 0 ∧ oc_batch_size oc = 64).
Proof.
  unfold oc_batch_size. destruct (oc mod 256 =? 0) eqn:E.
  - left. by apply Nat.eqb_eq in E.
  - right. by apply Nat.eqb_neq in E.
Qed.

Lemma mod_256_64 (oc : nat) : oc mod 256 = 0 → oc mod 64 = 0.
Proof.
  intros Hm. apply Nat.Div0.mod_divides in Hm as [k ->].
  replace (256 * k) with ((4 * k) * 64) by lia. apply Nat.Div0.mod_mul.
Qed.

(** The number of channels is kept through a batch when simulated
    quantization keeps it. *)
Section ClipShapes.
Context {A : Type} `{Scalar A}.
Variable get_aquantizer :
  nat → string → list (gmap string nat) → list QuantizerMixBits →
  option Quantizer → Quantizer.
Variable check_w_only :
  nat → string → list (gmap string nat) → list QuantizerMixBits → bool → bool.
Variable reshape_tensor : Quantizer → list (list A) → list (list A).
Variable fake_quant_weight_dynamic :
  Quantizer → list (list (list A)) → list (list (list A)).
Variable range : Type.
Variable qparams : Type.
Variable get_learnable_range :
  Quantizer → list (list (list A)) → list (list A) → list (list A) → range.
Variable get_qparams : Quantizer → range → qparams.
Variable fake_quant_weight_static :
  Quantizer → list (list (list A)) → qparams → list (list (list A)).
Variable fake_quant_act_dynamic :
  Quantizer → list (list (list A)) → list (list (list A)).
Variable s_log : A → A.

Hypothesis dynamic_keeps_channels :
  ∀ q t, length (fake_quant_weight_dynamic q t) = length t.
Hypothesis static_keeps_channels :
  ∀ q t p, length (fake_quant_weight_static q t p) = length t.

Variable self : Self.
Variable block_idx : nat.
Variable layer_name : string.
Variable wq : Quantizer.
Variable gs n_grid n_sample_token ng : nat.
Variable eps : A.
Variable input : list (list (list A)).
Variable w : list (list (list A)).

Lemma org_bounds_length :
  length (fst (org_bounds self w)) = length w ∧
  length (snd (org_bounds self w)) = length w.
Proof.
  unfold org_bounds. simpl. destruct (clip_sym self); by rewrite !length_map.
Qed.

Lemma level_bounds_length (f : A) (mx mn : list (list A)) :
  length mx = length w → length mn = length w →
  length (fst (level_bounds self f mx mn)) = length w ∧
  length (snd (level_bounds self f mx mn)) = length w.
Proof.
  intros Hmx Hmn. unfold level_bounds. simpl.
  destruct (clip_sym self); rewrite ?length_map; done.
Qed.

Lemma length_masked_assign (dst : list (list A)) (mask : list (list bool))
    (src : list (list A)) (n : nat) :
  length dst = n → length mask = n → length src = n →
  length (masked_assign dst mask src) = n.
Proof.
  intros Hd Hm Hs. unfold masked_assign.
  rewrite length_zip_with, length_zip. lia.
Qed.

Lemma input_error_length (mx mn max_val min_val : list (list A))
    (x : list (list A)) (err : list (list A)) :
  length max_val = length w → length min_val = length w →
  input_error get_aquantizer check_w_only reshape_tensor fake_quant_weight_dynamic
    range qparams get_learnable_range get_qparams fake_quant_weight_static
    fake_quant_act_dynamic s_log self block_idx layer_name wq gs n_sample_token
    ng w mx mn max_val min_val x = Ok err →
  length err = length w.
Proof.
  intros Hmax Hmin Hrun. unfold input_error in Hrun.
  apply bind_ok in Hrun as ([ngx x3] & _ & Hrun).
  apply bind_ok in Hrun as (x3' & _ & Hrun).
  apply bind_ok in Hrun as (u & _ & Hrun).
  apply bind_ok in Hrun as (q_w & Hq & Hrun).
  injection Hrun as <-.
  assert (length q_w = length w) as Hqw.
  { unfold quantized_weight in Hq.
    destruct (String.eqb (clip_version self) "v1").
    - injection Hq as <-. rewrite dynamic_keeps_channels.
      rewrite length_zip_with, length_zip. lia.
    - destruct (String.eqb (clip_version self) "v2"); [|done].
      injection Hq as <-. apply static_keeps_channels. }
  unfold group_dots. rewrite length_zip_with, !length_map. lia.
Qed.

Lemma for_each_errors_length (mx mn max_val min_val : list (list A))
    (xs : list (list (list A))) (acc0 acc : option (list (list A))) :
  length max_val = length w → length min_val = length w →
  (∀ a, acc0 = Some a → length a = length w) →
  for_each
    (λ acc x,
       err ← input_error get_aquantizer check_w_only reshape_tensor
                fake_quant_weight_dynamic range qparams get_learnable_range
                get_qparams fake_quant_weight_static fake_quant_act_dynamic s_log
                self block_idx layer_name wq gs n_sample_token ng w mx mn
                max_val min_val x;
       Ok (add_err acc err))
    acc0 xs = Ok acc →
  ∀ a, acc = Some a → length a = length w.
Proof.
  intros Hmax Hmin. revert acc0.
  induction xs as [|x xs IH]; intros acc0 Hacc0 Hfold.
  - by injection Hfold as <-.
  - simpl in Hfold. apply bind_ok in Hfold as (acc1 & Hstep & Hfold).
    apply bind_ok in Hstep as (err & Herr & Hstep). injection Hstep as <-.
    apply input_error_length in Herr; [|done|done].
    eapply IH; [|exact Hfold].
    intros a Ha. destruct acc0 as [a0|]; simpl in Ha; injection Ha as <-.
    + unfold vadd. rewrite length_zip_with, (Hacc0 a0) by done. lia.
    + by rewrite length_map.
Qed.

Lemma shrink_level_length (mx mn : list (list A)) (st st' : ClipState) (i_s : nat) :
  length mx = length w → length mn = length w →
  length (best_max_val st) = length w → length (best_min_val st) = length w →
  length (min_errs st) = length w →
  shrink_level get_aquantizer check_w_only reshape_tensor fake_quant_weight_dynamic
    range qparams get_learnable_range get_qparams fake_quant_weight_static
    fake_quant_act_dynamic s_log self block_idx layer_name wq gs n_grid
    n_sample_token ng eps input w mx mn st i_s = Ok st' →
  length (best_max_val st') = length w ∧ length (best_min_val st') = length w ∧
  length (min_errs st') = length w.
Proof.
  intros Hmx Hmn Hbmax Hbmin Herrs. unfold shrink_level.
  match goal with
  | |- context [level_bounds self ?f mx mn] =>
      destruct (level_bounds_length f mx mn Hmx Hmn) as [Hmax Hmin];
      destruct (level_bounds self f mx mn) as [max_val min_val]
  end.
  simpl in Hmax, Hmin. intros Hrun.
  apply bind_ok in Hrun as (acc & Hacc & Hrun).
  pose proof (for_each_errors_length mx mn max_val min_val input None acc
                Hmax Hmin ltac:(done) Hacc) as Hsum.
  destruct acc as [sum|]; [|done]. injection Hrun as <-.
  unfold clip_update. simpl.
  assert (length (zip_with (zip_with s_ltb)
            (map (map (λ e, s_div e (s_of_Z (Z.of_nat (length input))))) sum)
            (min_errs st)) = length w) as Hmask.
  { rewrite length_zip_with, length_map, (Hsum sum) by done. lia. }
  repeat split; apply length_masked_assign; try done.
  by rewrite length_map, (Hsum sum).
Qed.

Lemma clip_batch_length (levels : list nat) (st : ClipState) :
  clip_batch get_aquantizer check_w_only reshape_tensor fake_quant_weight_dynamic
    range qparams get_learnable_range get_qparams fake_quant_weight_static
    fake_quant_act_dynamic s_log self block_idx layer_name wq gs n_grid
    n_sample_token ng eps input levels w = Ok st →
  length (best_max_val st) = length w ∧ length (best_min_val st) = length w.
Proof.
  unfold clip_batch. pose proof org_bounds_length as [Hmx Hmn].
  destruct (org_bounds self w) as [mx mn]. simpl in Hmx, Hmn.
  assert (length (best_max_val (clip_init mx mn)) = length w ∧
          length (best_min_val (clip_init mx mn)) = length w ∧
          length (min_errs (clip_init mx mn)) = length w) as Hinit.
  { unfold clip_init. simpl. by rewrite length_map. }
  revert Hinit. generalize (clip_init mx mn). revert st.
  induction levels as [|i_s levels IH]; intros st st0 (H1 & H2 & H3) Hrun.
  - injection Hrun as <-. done.
  - simpl in Hrun. apply bind_ok in Hrun as (st1 & Hstep & Hrun).
    apply (shrink_level_length mx mn) in Hstep; try done.
    by apply (IH st st1).
Qed.

End ClipShapes.

Lemma length_concat_same {T} (n : nat) (ls : list (list T)) :
  Forall (λ l, length l = n) ls → length (concat ls) = length ls * n.
Proof.
  induction 1 as [|l ls Hl _ IH]; simpl; [done|].
  rewrite length_app, IH. lia.
Qed.

(** C7 (as amended).  When [auto_clip_layer] returns, the number of
    output channels is a non-zero multiple of 64; the channels are cut
    into consecutive batches of 256 when their number is a multiple of
    256 and of 64 otherwise, which together are exactly the output
    channels; the search of the shrink levels is run on every one of
    these batches, and the bounds returned are the bounds of the batches
    joined in this order, so that with a simulated quantization that keeps
    the number of channels there is one row of bounds for every output
    channel.  For a number of channels that is not a multiple of 64 the
    assertion on the batch size fails and [auto_clip_layer] raises. *)
Theorem oc_batches_cover {A} `{Scalar A}
    get_wquantizer get_aquantizer check_w_only reshape_tensor
    fake_quant_weight_dynamic range qparams get_learnable_range get_qparams
    fake_quant_weight_static fake_quant_act_dynamic s_log
    (self : Self) (block_idx : nat) (layer_name : string)
    (w : list (list A)) (input : list (list (list A)))
    (n_grid : nat) (max_shrink : float) (n_sample_token : nat) (eps : A)
    (ng : nat) (w_all : list (list (list A))) :
  let wq := get_wquantizer block_idx layer_name (mix_bits_map self)
              (quantizer_mix_bits self) (wquantizer self) in
  let gs := if String.eqb (granularity wq) "per_group" then group_size wq
            else match w with row :: _ => length row | [] => 0 end in
  let oc := length w_all in
  let bs := oc_batch_size oc in
  let run :=
    auto_clip_layer get_wquantizer get_aquantizer check_w_only reshape_tensor
      fake_quant_weight_dynamic range qparams get_learnable_range get_qparams
      fake_quant_weight_static fake_quant_act_dynamic s_log
      self block_idx layer_name w input n_grid max_shrink n_sample_token eps in
  let search :=
    clip_batch_run get_aquantizer check_w_only reshape_tensor
      fake_quant_weight_dynamic range qparams get_learnable_range get_qparams
      fake_quant_weight_static fake_quant_act_dynamic s_log
      self block_idx layer_name wq gs n_grid n_sample_token ng eps input
      max_shrink in
  reshape_groups_or reshape_tensor self gs w = Ok (ng, w_all) →
  (∀ max_val min_val,
     run = Ok (max_val, min_val) →
     oc ≠ 0 ∧ oc mod 64 = 0 ∧
     (bs = 256 ∧ oc mod 256 = 0 ∨ bs = 64 ∧ oc mod 256 ≠ 0) ∧
     concat (batches bs (oc / bs) w_all) = w_all ∧
     Forall (λ b, length b = bs) (batches bs (oc / bs) w_all) ∧
     ∃ sts,
       Forall2 (λ b st, search b = Ok st) (batches bs (oc / bs) w_all) sts ∧
       max_val = concat (map best_max_val sts) ∧
       min_val = concat (map best_min_val sts) ∧
       ((∀ q t, length (fake_quant_weight_dynamic q t) = length t) →
        (∀ q t p, length (fake_quant_weight_static q t p) = length t) →
        length max_val = oc ∧ length min_val = oc)) ∧
  (oc mod 64 ≠ 0 → run = Raise AssertionError).
Proof.
  intros wq gs oc bs run search Hreshape.
  assert (run = (_ ← assert (oc mod bs =? 0);
                 sts ← map_result search (batches bs (oc / bs) w_all);
                 match sts with
                 | [] => Raise RuntimeError
                 | _ =>
                     match n_levels max_shrink n_grid with
                     | Ok (S _) => Ok (concat (map best_max_val sts),
                                       concat (map best_min_val sts))
                     | _ => Raise UnboundLocalError
                     end
                 end)) as Hrun.
  { subst run. unfold auto_clip_layer. fold wq gs. rewrite Hreshape. reflexivity. }
  assert (bs ≠ 0 ∧ (bs = 256 ∧ oc mod 256 = 0 ∨ bs = 64 ∧ oc mod 256 ≠ 0))
    as [Hbs Hcases].
  { subst bs. destruct (oc_batch_size_cases oc) as [[Hm ->]|[Hm ->]]; auto. }
  split.
  - intros max_val min_val Hok. rewrite Hrun in Hok.
    apply bind_ok in Hok as (u & Hmod%assert_ok%Nat.eqb_eq & Hok).
    apply bind_ok in Hok as (sts & Hsts & Hok).
    apply map_result_Forall2 in Hsts.
    assert (oc mod 64 = 0) as H64.
    { destruct Hcases as [[_ Hm]|[Hb _]]; [by apply mod_256_64|].
      by rewrite Hb in Hmod. }
    destruct (batches_from bs (oc / bs) w_all) as [Hcat Hall].
    { pose proof (Nat.div_mod oc bs Hbs). fold oc. lia. }
    assert (oc ≠ 0) as Hoc.
    { intros H0. rewrite H0, Nat.Div0.div_0_l in Hsts.
      apply Forall2_nil_inv_l in Hsts. by subst sts. }
    split; [done|]. split; [done|]. split; [done|]. split; [done|].
    split; [done|]. exists sts. split; [done|].
    destruct sts as [|st sts]; [done|].
    destruct (n_levels max_shrink n_grid) as [[|k]|e]; try done.
    injection Hok as <- <-. split; [done|]. split; [done|].
    intros Hdyn Hsta.
    assert (Forall (λ st0, length (best_max_val st0) = bs
                           ∧ length (best_min_val st0) = bs) (st :: sts)) as Hlen.
    { unfold batches in Hsts, Hall. revert Hsts Hall.
      generalize (map (λ i_b, take bs (drop (i_b * bs) w_all)) (seq 0 (oc / bs))).
      generalize (st :: sts). intros l bl Hl. 
      induction Hl as [|b s0 bl l Hb _ IH]; intros Hall; [constructor|].
      inversion Hall as [|? ? Hblen Hall']; subst.
      constructor; [|by apply IH].
      subst search. unfold clip_batch_run in Hb.
      apply bind_ok in Hb as (k' & _ & Hb).
      apply clip_batch_length in Hb; [|done|done]. by rewrite Hblen in Hb. }
    assert (length (st :: sts) = oc / bs) as Hn.
    { apply Forall2_length in Hsts. unfold batches in Hsts.
      by rewrite length_map, length_seq in Hsts. }
    assert (oc / bs * bs = oc) as Hprod.
    { pose proof (Nat.div_mod oc bs Hbs). lia. }
    split.
    + pose proof (length_concat_same bs (map best_max_val (st :: sts))) as Hc.
      rewrite length_map, Hn, Hprod in Hc. apply Hc.
      apply Forall_map. eapply Forall_impl; [exact Hlen|]. by intros ? [? ?].
    + pose proof (length_concat_same bs (map best_min_val (st :: sts))) as Hc.
      rewrite length_map, Hn, Hprod in Hc. apply Hc.
      apply Forall_map. eapply Forall_impl; [exact Hlen|]. by intros ? [? ?].
  - intros H64. rewrite Hrun.
    assert ((oc mod bs =? 0) = false) as ->; [|done].
    apply Nat.eqb_neq. destruct Hcases as [[_ Hm]|[-> _]]; [|done].
    by apply mod_256_64 in Hm.
Qed.

(** Two batches: 128 channels of two weights with one captured input of
    two tokens are searched and return 128 rows of bounds; the single
    channel of scenario 3 fails the assertion. *)
Lemma oc_batches_cover_witness :
  (∃ max_val min_val,
     auto_clip_layer (λ _ _ _ _ q, q) default_aquantizer default_w_only exact_quant
       exact_quant unit unit (λ _ _ _ _, tt) (λ _ _, tt) (λ _ t _, t)
       exact_quant (λ x, x)
       (self_with 1 3) 0 "mlp.fc1" (replicate 128 [1; -2]%float)
       [[[1; 0]; [0; 1]]%float] 20 0.5%float 2 0%float
     = Ok (max_val, min_val) ∧
     length max_val = 128 ∧ length min_val = 128) ∧
  auto_clip_layer (λ _ _ _ _ q, q) default_aquantizer default_w_only exact_quant
    exact_quant unit unit (λ _ _ _ _, tt) (λ _ _, tt) (λ _ t _, t)
    exact_quant (λ x, x)
    (self_with 1 3) 0 "mlp.fc1" [[-5; -1; 0; 3]%float]
    [[[1; 0; 0; 0]; [0; 1; 0; 0]; [0; 0; 1; 0]; [0; 0; 0; 1]]%float]
    20 0.5%float 4 0%float
  = Raise AssertionError.
Proof.
  split.
  - destruct (oc_batches_cover (λ _ _ _ _ q, q) default_aquantizer default_w_only
                exact_quant exact_quant unit unit (λ _ _ _ _, tt) (λ _ _, tt)
                (λ _ t _, t) exact_quant (λ x, x)
                (self_with 1 3) 0 "mlp.fc1" (replicate 128 [1; -2]%float)
                [[[1; 0]; [0; 1]]%float] 20 0.5%float 2 0%float 1
                (replicate 128 [[1; -2]%float])) as [Hok _];
      [vm_compute; reflexivity|].
    cbv zeta in Hok.
    assert (∃ bmax bmin,
              auto_clip_layer (λ _ _ _ _ q, q) default_aquantizer default_w_only
                exact_quant exact_quant unit unit (λ _ _ _ _, tt) (λ _ _, tt)
                (λ _ t _, t) exact_quant (λ x, x)
                (self_with 1 3) 0 "mlp.fc1" (replicate 128 [1; -2]%float)
                [[[1; 0]; [0; 1]]%float] 20 0.5%float 2 0%float
              = Ok (bmax, bmin)) as (bmax & bmin & Hr).
    { vm_compute. eexists _, _. reflexivity. }
    exists bmax, bmin. split; [exact Hr|].
    destruct (Hok bmax bmin Hr) as (_ & _ & _ & _ & _ & sts & _ & _ & _ & Hlen).
    apply Hlen; done.
  - destruct (oc_batches_cover (λ _ _ _ _ q, q) default_aquantizer default_w_only
                exact_quant exact_quant unit unit (λ _ _ _ _, tt) (λ _ _, tt)
                (λ _ t _, t) exact_quant (λ x, x)
                (self_with 1 3) 0 "mlp.fc1" [[-5; -1; 0; 3]%float]
                [[[1; 0; 0; 0]; [0; 1; 0; 0]; [0; 0; 1; 0]; [0; 0; 0; 1]]%float]
                20 0.5%float 4 0%float 1
                [[[-5; -1; 0; 3]%float]]) as [_ Hfail];
      [vm_compute; reflexivity|].
    apply Hfail. vm_compute. lia.
Defined.

(** C7 fails as stated: a weight with a single output channel (here
    scenario 3's row) is not processed at all, the assertion on the batch
    size fails. *)
Lemma single_channel_not_covered :
  auto_clip_layer (λ _ _ _ _ q, q) (λ _ _ _ _ _, quantizer0) (λ _ _ _ _ b, b)
    (λ _ t, t) (λ _ t, t) unit unit (λ _ _ _ _, tt) (λ _ _, tt) (λ _ t _, t)
    (λ _ t, t) (λ x, x)
    (self_with 1 3) 0 "mlp.fc1" [[-5; -1; 0; 3]%float]
    [[[1; 0; 0; 0]; [0; 1; 0; 0]; [0; 0; 1; 0]; [0; 0; 0; 1]]%float]
    20 0.5%float 512 0%float
  = Raise AssertionError.
Proof. vm_compute. reflexivity. Qed.

(** ** The running minimum of the clip search *)

Lemma for_each_app {T S} (body : S → T → result S) (st : S) (xs ys : list T) :
  for_each body st (xs ++ ys) = for_each body st xs ≫= λ st', for_each body st' ys.
Proof.
  revert st. induction xs as [|x xs IH]; simpl; intros st; [done|].
  destruct (body st x) as [st1|e]; simpl; [apply IH|done].
Qed.

Lemma at2_zip_with {T U V} (f : T → U → V) (a : list (list T)) (b : list (list U))
    (c g : nat) :
  at2 (zip_with (zip_with f) a b) c g
  = x ← at2 a c g; y ← at2 b c g; Some (f x y).
Proof.
  unfold at2. rewrite lookup_zip_with.
  destruct (a !! c) as [ra|]; simpl; [|done].
  destruct (b !! c) as [rb|]; simpl.
  - by rewrite lookup_zip_with.
  - by destruct (ra !! g).
Qed.

Lemma at2_masked_assign {A} `{Scalar A} (dst : list (list A))
    (mask : list (list bool)) (src : list (list A)) (c g : nat) :
  at2 (masked_assign dst mask src) c g
  = d ← at2 dst c g; m ← at2 mask c g; s ← at2 src c g;
    Some (if (m : bool) then s else d).
Proof.
  unfold at2, masked_assign. rewrite lookup_zip_with.
  destruct (dst !! c) as [rd|]; simpl; [|done].
  rewrite lookup_zip_with.
  destruct (mask !! c) as [rm|]; simpl; [|by destruct (rd !! g)].
  destruct (src !! c) as [rs|]; simpl.
  - rewrite lookup_zip_with. destruct (rd !! g) as [d|]; simpl; [|done].
    rewrite lookup_zip_with.
    destruct (rm !! g) as [m|]; simpl; [|done].
    by destruct (rs !! g).
  - destruct (rd !! g); simpl; [|done]. by destruct (rm !! g).
Qed.

(** The entries of the state after [clip_update], where they exist. *)
Lemma clip_update_entry {A} `{Scalar A} (st : ClipState)
    (err_mean max_val min_val : list (list A)) (c g : nat) (e_new : A) :
  at2 (min_errs (clip_update st err_mean max_val min_val)) c g = Some e_new →
  ∃ e_old e,
    at2 (min_errs st) c g = Some e_old ∧ at2 err_mean c g = Some e ∧
    e_new = (if s_ltb e e_old then e else e_old) ∧
    (∀ b b', at2 (best_max_val st) c g = Some b →
             at2 (best_max_val (clip_update st err_mean max_val min_val)) c g = Some b' →
             b' ≠ b → s_ltb e e_old = true) ∧
    (∀ b b', at2 (best_min_val st) c g = Some b →
             at2 (best_min_val (clip_update st err_mean max_val min_val)) c g = Some b' →
             b' ≠ b → s_ltb e e_old = true).
Proof.
  unfold clip_update; simpl. rewrite !at2_masked_assign, !at2_zip_with.
  destruct (at2 (min_errs st) c g) as [e_old|]; simpl; [|done].
  destruct (at2 err_mean c g) as [e|]; simpl; [|done].
  intros [= <-]. exists e_old, e. repeat split; try done.
  - intros b b' ->. simpl. destruct (at2 max_val c g); simpl; [|done].
    destruct (s_ltb e e_old); [done|]. by intros [= <-].
  - intros b b' ->. simpl. destruct (at2 min_val c g); simpl; [|done].
    destruct (s_ltb e e_old); [done|]. by intros [= <-].
Qed.

Lemma clip_update_bound_defined {A} `{Scalar A} (st : ClipState)
    (err_mean max_val min_val : list (list A)) (c g : nat) :
  (∀ b', at2 (best_max_val (clip_update st err_mean max_val min_val)) c g = Some b' →
         ∃ b, at2 (best_max_val st) c g = Some b) ∧
  (∀ b', at2 (best_min_val (clip_update st err_mean max_val min_val)) c g = Some b' →
         ∃ b, at2 (best_min_val st) c g = Some b).
Proof.
  unfold clip_update; simpl. rewrite !at2_masked_assign.
  split; intros b'.
  - destruct (at2 (best_max_val st) c g); simpl; [eauto|done].
  - destruct (at2 (best_min_val st) c g); simpl; [eauto|done].
Qed.

Lemma Qcltb_lt (x y : Qc) : Qcltb x y = true → (x < y)%Qc.
Proof.
  unfold Qcltb. intros Hlt. apply Qclt_alt. by destruct (x ?= y)%Qc.
Qed.

Section ClipSearch.
Variable get_aquantizer :
  nat → string → list (gmap string nat) → list QuantizerMixBits →
  option Quantizer → Quantizer.
Variable check_w_only :
  nat → string → list (gmap string nat) → list QuantizerMixBits → bool → bool.
Variable reshape_tensor : Quantizer → list (list Qc) → list (list Qc).
Variable fake_quant_weight_dynamic :
  Quantizer → list (list (list Qc)) → list (list (list Qc)).
Variable range : Type.
Variable qparams : Type.
Variable get_learnable_range :
  Quantizer → list (list (list Qc)) → list (list Qc) → list (list Qc) → range.
Variable get_qparams : Quantizer → range → qparams.
Variable fake_quant_weight_static :
  Quantizer → list (list (list Qc)) → qparams → list (list (list Qc)).
Variable fake_quant_act_dynamic :
  Quantizer → list (list (list Qc)) → list (list (list Qc)).
Variable s_log : Qc → Qc.

Variable self : Self.
Variable block_idx : nat.
Variable layer_name : string.
Variable wq : Quantizer.
Variable gs n_grid n_sample_token ng : nat.
Variable eps : Qc.
Variable input : list (list (list Qc)).
Variable w : list (list (list Qc)).
Variable org_max_val org_min_val : list (list Qc).

#[local] Abbreviation level :=
  (shrink_level get_aquantizer check_w_only reshape_tensor fake_quant_weight_dynamic
     range qparams get_learnable_range get_qparams fake_quant_weight_static
     fake_quant_act_dynamic s_log self block_idx layer_name wq gs n_grid
     n_sample_token ng eps input w org_max_val org_min_val).

(** A shrink level ends in [clip_update]. *)
Lemma shrink_level_update (st : ClipState) (i_s : nat) (st' : ClipState) :
  level st i_s = Ok st' →
  ∃ err_mean max_val min_val, st' = clip_update st err_mean max_val min_val.
Proof.
  unfold shrink_level. destruct (level_bounds _ _ _ _) as [max_val min_val].
  intros Hrun. apply bind_ok in Hrun as (acc & _ & Hrun).
  destruct acc as [sum|]; [|done]. injection Hrun as <-. eauto.
Qed.

(** C6.  Over any run of successive shrink levels of a batch, the
    recorded minimum error of every channel and group does not increase,
    and a best bound (maximum or minimum) differs from the one recorded
    before only if the recorded error has become strictly lower: a level
    whose error ties the best so far leaves the earlier, less shrunk
    bound in place. *)
Theorem clip_search_min_errs (levels : list nat) (st st' : ClipState) :
  for_each level st levels = Ok st' →
  ∀ c g e_old e_new,
    at2 (min_errs st) c g = Some e_old →
    at2 (min_errs st') c g = Some e_new →
    (e_new <= e_old)%Qc ∧
    (∀ b b', at2 (best_max_val st) c g = Some b →
             at2 (best_max_val st') c g = Some b' → b' ≠ b → (e_new < e_old)%Qc) ∧
    (∀ b b', at2 (best_min_val st) c g = Some b →
             at2 (best_min_val st') c g = Some b' → b' ≠ b → (e_new < e_old)%Qc).
Proof.
  revert st'. induction levels as [|i_s levels IH] using rev_ind; intros st' Hrun.
  - injection Hrun as <-. intros c g e_old e_new -> [= <-].
    split; [apply Qcle_refl|]. split; intros b b' -> [= <-]; done.
  - rewrite for_each_app in Hrun. apply bind_ok in Hrun as (st1 & Hrun1 & Hstep).
    simpl in Hstep. apply bind_ok in Hstep as (st2 & Hstep & Hret).
    injection Hret as <-.
    apply shrink_level_update in Hstep as (err & mx & mn & ->).
    intros c g e_old e_new Hold Hnew.
    destruct (clip_update_entry _ _ _ _ _ _ _ Hnew) as (e1 & e & H1 & He & -> & Hmax & Hmin).
    destruct (clip_update_bound_defined st1 err mx mn c g) as [Dmax Dmin].
    destruct (IH st1 Hrun1 c g e_old e1 Hold H1) as (Hle & Imax & Imin).
    assert ((if s_ltb e e1 then e else e1) <= e1)%Qc as Hstep_le.
    { destruct (s_ltb e e1) eqn:E; [|apply Qcle_refl].
      apply Qclt_le_weak. by apply Qcltb_lt. }
    split; [eapply Qcle_trans; eassumption|].
    split; intros b b' Hb Hb' Hne.
    + destruct (Dmax b' Hb') as (b1 & Hb1).
      destruct (decide (b1 = b)) as [->|Hne1].
      * specialize (Hmax b b' Hb1 Hb' Hne). rewrite Hmax.
        eapply Qclt_le_trans; [by apply Qcltb_lt|done].
      * eapply Qcle_lt_trans; [exact Hstep_le|]. by apply (Imax b b1).
    + destruct (Dmin b' Hb') as (b1 & Hb1).
      destruct (decide (b1 = b)) as [->|Hne1].
      * specialize (Hmin b b' Hb1 Hb' Hne). rewrite Hmin.
        eapply Qclt_le_trans; [by apply Qcltb_lt|done].
      * eapply Qcle_lt_trans; [exact Hstep_le|]. by apply (Imin b b1).
Qed.

End ClipSearch.

(** Scenario 3 over two shrink levels: level 0 records the error 0 with
    the unclipped bound 5, and level 1 (bound 4.75) does not replace it. *)
Lemma clip_search_min_errs_witness :
  ∃ st',
    for_each
      (shrink_level default_aquantizer default_w_only exact_quant exact_quant
         unit unit (λ _ _ _ _, tt) (λ _ _, tt) (λ _ t _, t) exact_quant (λ x, x)
         (self_with 1 3) 0 "mlp.fc1" quantizer0 4 20 4 1 (qz 0) [identity4] row3
         [[qz 5]] [[qz (-5)]])
      (clip_init [[qz 5]] [[qz (-5)]]) [0; 1] = Ok st' ∧
    at2 (best_max_val st') 0 0 = Some (qz 5) ∧
    at2 (min_errs st') 0 0 = Some (qz 0) ∧
    (qz 0 <= qz 1000000000)%Qc.
Proof.
  exists (mkClipState [[qz 5]] [[qz (-5)]] [[qz 0]]).
  assert (for_each
      (shrink_level default_aquantizer default_w_only exact_quant exact_quant
         unit unit (λ _ _ _ _, tt) (λ _ _, tt) (λ _ t _, t) exact_quant (λ x, x)
         (self_with 1 3) 0 "mlp.fc1" quantizer0 4 20 4 1 (qz 0) [identity4] row3
         [[qz 5]] [[qz (-5)]])
      (clip_init [[qz 5]] [[qz (-5)]]) [0; 1]
      = Ok (mkClipState [[qz 5]] [[qz (-5)]] [[qz 0]])) as Hrun.
  { vm_compute. repeat f_equal; apply Qc_is_canon; reflexivity. }
  split; [exact Hrun|]. split; [reflexivity|]. split; [reflexivity|].
  apply (clip_search_min_errs _ _ _ _ _ _ _ _ _ _ _ _ _ _ _ _ _ _ _ _ _ _ _ _
           [0; 1] _ _ Hrun 0 0 (qz 1000000000) (qz 0)).
  - vm_compute. repeat f_equal; apply Qc_is_canon; reflexivity.
  - reflexivity.
Defined.

(** ** The mixed-bit map *)

Lemma py_index_nat (n k : nat) :
  k < n → py_index n (Z.of_nat k) = Ok k.
Proof.
  intros Hk. unfold py_index.
  assert (((0 <=? Z.of_nat k)%Z && (Z.of_nat k <? Z.of_nat n)%Z) = true) as ->.
  { apply andb_true_intro. split; [apply Z.leb_le|apply Z.ltb_lt]; lia. }
  by rewrite Nat2Z.id.
Qed.

(** One assignment [mix_bits_map[z][n] = i]. *)
Lemma mix_bits_map_set_lookup (m m' : list (gmap string nat)) (z : Z)
    (n : string) (i k : nat) (n' : string) :
  mix_bits_map_set m z n i = Ok m' →
  mix_bits_lookup m' k n' =
    (if hits (length m) z k && String.eqb n n' then Some i
     else mix_bits_lookup m k n').
Proof.
  unfold mix_bits_map_set, hits, mix_bits_lookup. intros Hrun.
  apply bind_ok in Hrun as (pos & Hpos & Hrun). injection Hrun as <-.
  rewrite Hpos. pose proof (py_index_lt _ _ _ Hpos) as Hlt.
  destruct (Nat.eqb_spec pos k) as [->|Hne]; simpl.
  - rewrite list_lookup_alter_eq.
    destruct (lookup_lt_is_Some_2 m k Hlt) as [g Hg]. rewrite Hg. simpl.
    destruct (String.eqb_spec n n') as [->|Hn].
    + by rewrite lookup_insert_eq.
    + by rewrite lookup_insert_ne.
  - by rewrite list_lookup_alter_ne.
Qed.

Lemma for_each_set_lookup {T} (f : T → Z) (n : string) (i : nat) (ks : list T)
    (m m' : list (gmap string nat)) (k : nat) (n' : string) :
  for_each (λ m x, mix_bits_map_set m (f x) n i) m ks = Ok m' →
  mix_bits_lookup m' k n' =
    (if String.eqb n n' && existsb (λ x, hits (length m) (f x) k) ks then Some i
     else mix_bits_lookup m k n').
Proof.
  revert m. induction ks as [|x ks IH]; simpl; intros m Hrun.
  - injection Hrun as <-. by rewrite andb_false_r.
  - apply bind_ok in Hrun as (m1 & Hset & Hrun).
    rewrite (IH _ Hrun).
    rewrite (mix_bits_map_set_length _ _ _ _ _ Hset).
    rewrite (mix_bits_map_set_lookup _ _ _ _ _ k n' Hset).
    destruct (String.eqb n n'), (hits (length m) (f x) k),
      (existsb (λ x0, hits (length m) (f x0) k) ks); done.
Qed.

Lemma existsb_hits_seq (nb k : nat) (start len : nat) :
  start + len ≤ nb →
  existsb (λ x, hits nb (Z.of_nat x) k) (seq start len)
  = (start <=? k) && (k <? start + len).
Proof.
  revert start. induction len as [|len IH]; simpl; intros start Hle.
  - destruct (Nat.leb_spec start k), (Nat.ltb_spec k (start + 0)); simpl; lia.
  - rewrite IH by lia. unfold hits. rewrite py_index_nat by lia.
    destruct (Nat.eqb_spec start k), (Nat.leb_spec start k),
      (Nat.leb_spec (S start) k), (Nat.ltb_spec k (S start + len)),
      (Nat.ltb_spec k (start + S len)); simpl; lia.
Qed.

Lemma existsb_parsed (nb k : nat) (pieces : list string) (layeridx : list Z) :
  Forall2 (λ p z, py_int p = Ok z) pieces layeridx →
  existsb (λ z, hits nb (id z) k) layeridx
  = existsb (λ p, match py_int p with
                  | Ok z => match py_index nb z with
                            | Ok pos => pos =? k
                            | Raise _ => false
                            end
                  | Raise _ => false
                  end) pieces.
Proof.
  induction 1 as [|p z ps zs Hp _ IH]; cbn [existsb]; [done|].
  rewrite IH. unfold hits, id. by rewrite Hp.
Qed.

Lemma alloc_name_lookup (nb i : nat) (m m' : list (gmap string nat))
    (name : string) (k : nat) (n : string) :
  length m = nb →
  alloc_name nb i m name = Ok m' →
  mix_bits_lookup m' k n =
    (if spec_selects nb name k n then Some i else mix_bits_lookup m k n).
Proof.
  intros Hlen. unfold alloc_name, spec_selects. intros Hrun.
  apply bind_ok in Hrun as (u & Hassert & Hrun). apply assert_ok in Hassert.
  destruct (split "#" name) as [|name0 [|idx [|x rest]]]; simpl in Hassert; try done.
  - rewrite (for_each_set_lookup Z.of_nat _ _ _ _ _ k n Hrun).
    rewrite Hlen, existsb_hits_seq by lia. simpl. done.
  - apply bind_ok in Hrun as (layeridx & Hparse & Hrun).
    rewrite (for_each_set_lookup id _ _ _ _ _ k n Hrun).
    apply map_result_Forall2 in Hparse.
    by rewrite Hlen, (existsb_parsed nb k _ _ Hparse).
Qed.

Lemma for_each_alloc_name_lookup (nb i : nat) (names : list string)
    (m m' : list (gmap string nat)) (k : nat) (n : string) :
  length m = nb →
  for_each (alloc_name nb i) m names = Ok m' →
  mix_bits_lookup m' k n =
    (if existsb (λ s, spec_selects nb s k n) names then Some i
     else mix_bits_lookup m k n).
Proof.
  revert m. induction names as [|name names IH]; simpl; intros m Hlen Hrun.
  - by injection Hrun as <-.
  - apply bind_ok in Hrun as (m1 & Hname & Hrun).
    pose proof (alloc_name_ok _ _ _ _ _ Hname) as [Hl1 _].
    rewrite (IH m1) by (done || lia).
    rewrite (alloc_name_lookup _ _ _ _ _ k n Hlen Hname).
    by destruct (spec_selects nb name k n),
         (existsb (λ s, spec_selects nb s k n) names).
Qed.

Lemma alloc_loop_lookup (nb i : nat) (qmb : list QuantizerMixBits)
    (m m' : list (gmap string nat)) (k : nat) (n : string) :
  length m = nb →
  alloc_loop nb i m qmb = Ok m' →
  mix_bits_lookup m' k n
  = spec_override nb i (map layer_name qmb) k n (mix_bits_lookup m k n).
Proof.
  revert i m. induction qmb as [|q qmb IH]; simpl; intros i m Hlen Hrun.
  - by injection Hrun as <-.
  - apply bind_ok in Hrun as (m1 & Hnames & Hrun).
    pose proof (for_each_alloc_name_ok _ _ _ _ _ Hnames) as [Hl1 _].
    rewrite (IH (S i) m1) by (done || lia).
    by rewrite (for_each_alloc_name_lookup _ _ _ _ _ k n Hlen Hnames).
Qed.

(** C8.  The map [alloc_bits] builds from the settings, started from the
    empty maps of [set_quant_config], is the one the specification
    describes: the override of a layer name in a block is the index of
    the last setting with a selector that applies to it, where a bare
    [name] applies in every block and [name#i-j-k] in the listed blocks
    only; where no selector applies there is no entry, and the layer
    falls back to the default quantizer. *)
Theorem alloc_bits_last_setting_wins (nb : nat) (settings : list MixBitsSetting)
    (qmb : list QuantizerMixBits) (m : list (gmap string nat)) :
  alloc_bits nb [] (replicate nb ∅) settings = Ok (qmb, m) →
  ∀ k n, mix_bits_lookup m k n
         = spec_override nb 0 (map ms_layer_name settings) k n None.
Proof.
  unfold alloc_bits. intros Hrun k n.
  apply bind_ok in Hrun as (new & Hnew & Hrun).
  apply bind_ok in Hrun as (m1 & Hloop & Hrun). injection Hrun as <- <-.
  simpl in Hloop.
  rewrite (alloc_loop_lookup nb 0 new _ _ k n (length_replicate _ _) Hloop).
  assert (map layer_name new = map ms_layer_name settings) as ->.
  { apply map_result_Forall2 in Hnew. clear -Hnew.
    induction Hnew as [|st q sts qs Hq _ IH]; simpl; [done|].
    by rewrite IH, (quantizer_of_setting_name st q). }
  f_equal. unfold mix_bits_lookup.
  destruct (replicate nb (∅ : gmap string nat) !! k) as [g|] eqn:E; [|done].
  apply lookup_replicate in E as [-> _]. done.
Qed.

(** Scenario 4: with ["block.0.mlp.fc1#0-2"] on three blocks, blocks 0
    and 2 get the override 0 and block 1 has no entry. *)
Lemma alloc_bits_last_setting_wins_witness :
  ∃ qmb m,
    alloc_bits 3 [] (replicate 3 ∅) [setting_fc1] = Ok (qmb, m) ∧
    mix_bits_lookup m 0 "block.0.mlp.fc1" = Some 0 ∧
    mix_bits_lookup m 1 "block.0.mlp.fc1" = None ∧
    mix_bits_lookup m 2 "block.0.mlp.fc1" = Some 0.
Proof.
  destruct (alloc_bits 3 [] (replicate 3 ∅) [setting_fc1]) as [[qmb m]|e] eqn:E;
    [|by vm_compute in E].
  exists qmb, m. split; [done|].
  rewrite !(alloc_bits_last_setting_wins 3 [setting_fc1] qmb m E).
  repeat split; reflexivity.
Defined.

(** A later setting with the bare name overwrites the entry in every
    block. *)
Example alloc_bits_later_overwrites :
  ∃ qmb m,
    alloc_bits 3 [] (replicate 3 ∅) [setting_fc1; setting_fc1_all] = Ok (qmb, m) ∧
    map (λ k, mix_bits_lookup m k "block.0.mlp.fc1") [0; 1; 2; 3]
    = [Some 1; Some 1; Some 1; None].
Proof. eexists _, _. split; reflexivity. Qed.

(** ** Matrix products in exact arithmetic *)

Open Scope Qc_scope.

Lemma Qc_vadd_zero_r (v : list Qc) (n : nat) :
  length v = n → vadd v (replicate n 0) = v.
Proof.
  revert n. induction v as [|a v IH]; intros [|n] Hl; simpl in *; try done.
  unfold vadd in *. rewrite IH by lia. f_equal. qc_field.
Qed.

Lemma Qc_vadd_zero_l (v : list Qc) (n : nat) :
  length v = n → vadd (replicate n 0) v = v.
Proof.
  revert n. induction v as [|a v IH]; intros [|n] Hl; simpl in *; try done.
  unfold vadd in *. rewrite IH by lia. f_equal. qc_field.
Qed.

Lemma Qc_vscale_zero (r : list Qc) : vscale 0 r = replicate (length r) 0.
Proof.
  induction r as [|a r IH]; simpl; [done|].
  unfold vscale in *. rewrite IH. f_equal. qc_field.
Qed.

Lemma Qc_vscale_one (r : list Qc) : vscale 1 r = r.
Proof.
  induction r as [|a r IH]; simpl; [done|].
  unfold vscale in *. rewrite IH. f_equal. qc_field.
Qed.

Lemma length_vecmat {A} `{Scalar A} (n : nat) (a : list A) (b : list (list A)) :
  Forall (λ row, length row = n) b → length (vecmat n a b) = n.
Proof.
  intros Hb. revert a. induction Hb as [|row b Hrow Hb IH]; intros [|x a]; simpl.
  1-3: by rewrite length_replicate.
  unfold vadd, vscale. rewrite length_zip_with, length_map, IH. lia.
Qed.

Lemma Qc_zeros_scale (k : Qc) (n : nat) : vscale k (replicate n 0) = replicate n 0.
Proof.
  induction n as [|n IH]; simpl; [done|].
  unfold vscale in *. rewrite IH. f_equal. qc_field.
Qed.

Lemma Qc_vecmat_zero (n k : nat) (b : list (list Qc)) :
  Forall (λ row, length row = n) b → vecmat n (replicate k 0) b = replicate n 0.
Proof.
  intros Hb. revert k. induction Hb as [|row b Hrow Hb IH]; intros [|k]; simpl; try done.
  change (Q2Qc (inject_Z 0)) with (Q2Qc 0).
  rewrite IH, Qc_vscale_zero, Hrow. by apply Qc_vadd_zero_r, length_replicate.
Qed.

Lemma Qc_vadd_scale_add (x y : Qc) (r a b : list Qc) :
  vadd (vscale (x + y) r) (vadd a b) = vadd (vadd (vscale x r) a) (vadd (vscale y r) b).
Proof.
  revert a b. induction r as [|c r IH]; intros [|a0 a] [|b0 b]; simpl; try done.
  unfold vadd, vscale in *. rewrite IH. f_equal. qc_field.
Qed.

Lemma Qc_vadd_scale_scale (k x : Qc) (r a : list Qc) :
  vadd (vscale (k * x) r) (vscale k a) = vscale k (vadd (vscale x r) a).
Proof.
  revert a. induction r as [|c r IH]; intros [|a0 a]; simpl; try done.
  unfold vadd, vscale in *. rewrite IH. f_equal. qc_field.
Qed.

Lemma vecmat_cons {A} `{Scalar A} (n : nat) (x : A) (a row : list A) (b : list (list A)) :
  vecmat n (x :: a) (row :: b) = vadd (vscale x row) (vecmat n a b).
Proof. done. Qed.

Lemma Qc_vecmat_vadd (n : nat) (u v : list Qc) (c : list (list Qc)) :
  length u = length v → Forall (λ row, length row = n) c →
  vecmat n (vadd u v) c = vadd (vecmat n u c) (vecmat n v c).
Proof.
  intros Hl Hc. revert u v Hl.
  induction Hc as [|row c Hrow Hc IH]; intros [|x u] [|y v] Hl; try done.
  - symmetry. by apply Qc_vadd_zero_r, length_replicate.
  - symmetry. by apply Qc_vadd_zero_r, length_replicate.
  - symmetry. by apply Qc_vadd_zero_r, length_replicate.
  - change (vadd (x :: u) (y :: v)) with ((x + y) :: vadd u v).
    rewrite !vecmat_cons, IH by (simpl in Hl; lia). apply Qc_vadd_scale_add.
Qed.

Lemma Qc_vecmat_vscale (n : nat) (k : Qc) (u : list Qc) (c : list (list Qc)) :
  Forall (λ row, length row = n) c →
  vecmat n (vscale k u) c = vscale k (vecmat n u c).
Proof.
  intros Hc. revert u.
  induction Hc as [|row c Hrow Hc IH]; intros [|x u].
  1-3: symmetry; apply Qc_zeros_scale.
  change (vscale k (x :: u)) with ((k * x) :: vscale k u).
  rewrite !vecmat_cons, IH. apply Qc_vadd_scale_scale.
Qed.

Lemma Qc_vecmat_assoc (n p : nat) (a : list Qc) (b c : list (list Qc)) :
  Forall (λ row, length row = n) b → Forall (λ row, length row = p) c →
  vecmat p (vecmat n a b) c = vecmat p a (mat_mul p b c).
Proof.
  intros Hb Hc. revert a.
  induction Hb as [|row b Hrow Hb IH]; intros [|x a].
  1-3: by apply (Qc_vecmat_zero p n).
  change (mat_mul p (row :: b) c) with (vecmat p row c :: mat_mul p b c).
  rewrite !vecmat_cons.
  rewrite Qc_vecmat_vadd, Qc_vecmat_vscale, IH; try done.
  unfold vscale. rewrite length_map, length_vecmat by done. lia.
Qed.

Lemma Qc_mat_mul_assoc (n p : nat) (a b c : list (list Qc)) :
  Forall (λ row, length row = n) b → Forall (λ row, length row = p) c →
  mat_mul p (mat_mul n a b) c = mat_mul p a (mat_mul p b c).
Proof.
  intros Hb Hc. unfold mat_mul at 1 2 3. rewrite map_map.
  apply map_ext. intros row. by apply Qc_vecmat_assoc.
Qed.

Lemma Qc_mat_mul_cons_zero (m : nat) (e : list (list Qc)) (row : list Qc)
    (w : list (list Qc)) :
  length row = m → Forall (λ r, length r = m) w →
  mat_mul m (map (cons 0) e) (row :: w) = mat_mul m e w.
Proof.
  intros Hrow Hw. unfold mat_mul. rewrite map_map. apply map_ext. intros a.
  rewrite vecmat_cons, Qc_vscale_zero, Hrow.
  apply Qc_vadd_zero_l. by apply length_vecmat.
Qed.

Lemma Qc_mat_mul_identity (m : nat) (w : list (list Qc)) :
  Forall (λ r, length r = m) w → mat_mul m (identity (length w)) w = w.
Proof.
  induction 1 as [|row w Hrow Hw IH]; [done|].
  change (identity (length (row :: w)))
    with ((1 :: replicate (length w) 0) :: map (cons 0) (identity (length w))).
  change (mat_mul m (?r :: ?e) ?b) with (vecmat m r b :: mat_mul m e b).
  rewrite Qc_mat_mul_cons_zero, IH by done. f_equal.
  rewrite vecmat_cons, Qc_vscale_one, Qc_vecmat_zero by done.
  by apply Qc_vadd_zero_r.
Qed.

Close Scope Qc_scope.

(** ** Rotation *)

Lemma zip_with_cons_shape {T} (k : nat) (row : list T) (t : list (list T)) :
  Forall (λ r, length r = k) t →
  Forall (λ r, length r = S k) (zip_with cons row t).
Proof.
  intros Ht. revert row. induction Ht as [|r t Hr Ht IH]; intros [|x row]; simpl;
    try done.
  constructor; [simpl; lia|apply IH].
Qed.

Lemma transpose_shape {T} (c : nat) (m : list (list T)) :
  Forall (λ row, length row = c) m →
  length (transpose c m) = c ∧
  Forall (λ row, length row = length m) (transpose c m).
Proof.
  induction 1 as [|row m Hrow Hm [IHl IHr]]; simpl.
  - rewrite length_replicate. split; [done|]. by apply Forall_replicate.
  - rewrite length_zip_with. split; [lia|]. by apply zip_with_cons_shape.
Qed.

Lemma n_columns_wf {A} `{Scalar A} (l : Linear A) :
  wf_linear l → n_columns (in_features l) (data (weight l)) = in_features l.
Proof.
  intros (_ & Hrows & _). destruct (data (weight l)) as [|row t]; [done|].
  simpl. by inversion Hrows.
Qed.

Lemma rotate_pre_layer_run {A} `{Scalar A} (Q : Rotation A) (n : nat) (l : Linear A) :
  wf_rotation Q n → wf_linear l → in_features l = n →
  rotate_pre_layer Q l
  = Ok (set_weight l (mkTensor (dtype (weight l))
                        (mat_mul n (data (weight l)) (data (q_mat Q))))).
Proof.
  intros (Hr & Hc & Hd & Hl & Hrows) Hwf Hin. unfold rotate_pre_layer, matmul.
  cbn [to_dtype data dtype]. rewrite (n_columns_wf l Hwf).
  rewrite Hd, Hl, Hin, Hc. rewrite bool_decide_eq_true_2 by done. simpl.
  by rewrite Nat.eqb_refl.
Qed.

Lemma rotate_post_layer_run {A} `{Scalar A} had (self : Self) (Q : Rotation A)
    (n : nat) (l : Linear A) :
  wf_rotation Q n → wf_linear l → out_features l = n →
  rotate_post_layer had self Q false l
  = Ok (mkLinear (in_features l) (out_features l)
          (mkTensor (dtype (weight l))
             (mat_mul (in_features l) (transpose n (data (q_mat Q)))
                      (data (weight l))))
          (bias_map (λ b, mkTensor (dtype (weight l))
                            (map (λ row, dot row (data b))
                                 (transpose n (data (q_mat Q)))))
                    (bias l))).
Proof.
  intros (Hr & Hc & Hd & Hl & Hrows) (Hw & Hwr & Hb) Hout.
  unfold rotate_post_layer, matmul, matvec. simpl.
  rewrite Hd, Hw, Hout, Hr, Hc. rewrite bool_decide_eq_true_2 by done. simpl.
  rewrite Nat.eqb_refl. simpl.
  destruct l as [i o w [|b|b]]; simpl in *.
  all: try (rewrite Hb, Hout, Nat.eqb_refl; simpl).
  all: unfold set_bias, set_weight, to_dtype; simpl; congruence.
Qed.

Lemma rotate_pre_layer_wf {A} `{Scalar A} (Q : Rotation A) (n : nat) (l : Linear A) :
  wf_rotation Q n → wf_linear l → in_features l = n →
  wf_linear (set_weight l (mkTensor (dtype (weight l))
                             (mat_mul n (data (weight l)) (data (q_mat Q))))).
Proof.
  intros (Hr & Hc & Hd & Hl & Hrows) (Hw & Hwr & Hb) Hin.
  unfold wf_linear, set_weight, mat_mul; simpl. rewrite length_map.
  repeat split; try done.
  apply Forall_map. apply Forall_forall. intros row _. simpl.
  rewrite Hin. by apply length_vecmat.
Qed.

(** C5 (as amended).  [rotate_pre_layers] replaces each weight [W] by
    [W Q] and [rotate_post_layers] (without the exact-Hadamard branch)
    replaces each weight by [Qᵗ W] and each bias by [Qᵗ b]; the products
    are taken on float64 operands and stored with the dtype of the
    layer's weight.  Applied one after the other to the same square
    layers they leave [Qᵗ (W Q)], which is the original weight when [W]
    commutes with the orthogonal [Q]. *)
Theorem rotate_pre_then_post had (self : Self) (Q : Rotation Qc) (n : nat)
    (layers : list (Linear Qc)) :
  wf_rotation Q n →
  Forall (λ l, wf_linear l ∧ in_features l = n ∧ out_features l = n) layers →
  let Qm := data (q_mat Q) in
  let Qt := transpose n Qm in
  ∃ pre post,
    rotate_pre_layers layers Q = Ok pre ∧
    rotate_post_layers had self pre Q false = Ok post ∧
    Forall2 (λ l l1,
               weight l1 = mkTensor (dtype (weight l)) (mat_mul n (data (weight l)) Qm) ∧
               bias l1 = bias l)
            layers pre ∧
    Forall2 (λ l1 l2,
               weight l2 = mkTensor (dtype (weight l1)) (mat_mul n Qt (data (weight l1))) ∧
               bias l2 = bias_map (λ b, mkTensor (dtype (weight l1))
                                          (map (λ row, dot row (data b)) Qt))
                                  (bias l1))
            pre post ∧
    Forall2 (λ l l2,
               weight l2 = mkTensor (dtype (weight l))
                             (mat_mul n Qt (mat_mul n (data (weight l)) Qm)) ∧
               (mat_mul n (data (weight l)) Qm = mat_mul n Qm (data (weight l)) →
                mat_mul n Qt Qm = identity n → weight l2 = weight l))
            layers post.
Proof.
  intros HQ Hlayers Qm Qt.
  pose proof HQ as (Hr & Hc & Hd & Hl & Hrows).
  exists (map (λ l, set_weight l (mkTensor (dtype (weight l))
                                    (mat_mul n (data (weight l)) Qm))) layers).
  eexists (map (λ l1, mkLinear (in_features l1) (out_features l1)
                        (mkTensor (dtype (weight l1))
                           (mat_mul (in_features l1) Qt (data (weight l1))))
                        (bias_map (λ b, mkTensor (dtype (weight l1))
                                          (map (λ row, dot row (data b)) Qt))
                                  (bias l1))) _).
  split; [|split].
  - apply map_result_ok. eapply Forall_impl; [exact Hlayers|]. simpl.
    intros l (Hwf & Hin & Hout). by apply rotate_pre_layer_run.
  - apply map_result_ok. apply Forall_map.
    eapply Forall_impl; [exact Hlayers|]. simpl.
    intros l (Hwf & Hin & Hout).
    rewrite (rotate_post_layer_run had self Q n);
      [done|done|by apply rotate_pre_layer_wf|done].
  - rewrite map_map. split; [|split].
    + apply Forall2_fmap_r, Forall_Forall2_diag.
      apply Forall_forall. by intros l _.
    + apply Forall2_fmap, Forall_Forall2_diag.
      eapply Forall_impl; [exact Hlayers|]. simpl.
      intros l (Hwf & Hin & Hout). by rewrite Hin.
    + apply Forall2_fmap_r, Forall_Forall2_diag.
      eapply Forall_impl; [exact Hlayers|]. simpl.
      intros l ((Hw & Hwr & Hb) & Hin & Hout). rewrite Hin. split; [done|].
      intros Hcomm Horth. fold Qm Qt. rewrite Hcomm.
      rewrite <- (Qc_mat_mul_assoc n n) by (done || by rewrite <- Hin).
      rewrite Horth.
      replace (identity n) with (identity (A:=Qc) (length (data (weight l))))
        by (by rewrite Hw, Hout).
      rewrite Qc_mat_mul_identity by (by rewrite <- Hin).
      by destruct (weight l).
Qed.

(** The swap rotation on a layer that commutes with it, three times the
    identity. *)
Lemma rotate_pre_then_post_witness :
  let Qm := data (q_mat Qc_swap) in
  let Qt := transpose 2 Qm in
  ∃ pre post,
    rotate_pre_layers [fc_scalar3] Qc_swap = Ok pre ∧
    rotate_post_layers (λ l, l) (self_with 1 3) pre Qc_swap false = Ok post ∧
    Forall2 (λ l l1,
               weight l1 = mkTensor (dtype (weight l)) (mat_mul 2 (data (weight l)) Qm) ∧
               bias l1 = bias l)
            [fc_scalar3] pre ∧
    Forall2 (λ l1 l2,
               weight l2 = mkTensor (dtype (weight l1)) (mat_mul 2 Qt (data (weight l1))) ∧
               bias l2 = bias_map (λ b, mkTensor (dtype (weight l1))
                                          (map (λ row, dot row (data b)) Qt))
                                  (bias l1))
            pre post ∧
    Forall2 (λ l l2,
               weight l2 = mkTensor (dtype (weight l))
                             (mat_mul 2 Qt (mat_mul 2 (data (weight l)) Qm)) ∧
               (mat_mul 2 (data (weight l)) Qm = mat_mul 2 Qm (data (weight l)) →
                mat_mul 2 Qt Qm = identity 2 → weight l2 = weight l))
            [fc_scalar3] post.
Proof.
  apply (rotate_pre_then_post (λ l, l) (self_with 1 3) Qc_swap 2 [fc_scalar3]).
  - repeat split; repeat constructor.
  - repeat constructor.
Defined.

(** C5 fails as stated: for the orthogonal swap [Q] and [W = diag(1, 2)],
    [rotate_pre_layers] followed by [rotate_post_layers] leaves
    [diag(2, 1)]. *)
Lemma rotate_pre_post_changes_weight :
  matmul 2 2 (q_mat (rot_T Q_swap)) (q_mat Q_swap)
  = Ok (mkTensor Float64 (identity 2)) ∧
  (pre ← rotate_pre_layers [fc_diag12] Q_swap;
   rotate_post_layers (λ l, l) (self_with 1 3) pre Q_swap false)
  = Ok [mkLinear 2 2 (mkTensor Float64 [[2; 0]; [0; 1]]%float) BiasNone] ∧
  weight fc_diag12 = mkTensor Float64 [[1; 0]; [0; 2]]%float.
Proof. repeat split; vm_compute; reflexivity. Qed.

(** ** Reshaping *)

Lemma length_chunks {T} (c r : nat) (l : list T) : length (chunks c r l) = r.
Proof. revert l. induction r as [|r IH]; intros l; simpl; [done|]. by rewrite IH. Qed.

Lemma chunks_concat {T} (c : nat) (ll : list (list T)) :
  Forall (λ x, length x = c) ll → chunks c (length ll) (concat ll) = ll.
Proof.
  induction 1 as [|x ll Hx _ IH]; simpl; [done|].
  rewrite take_app_length' by done. rewrite drop_app_length' by done. by rewrite IH.
Qed.

Lemma chunks_shape {T} (c r : nat) (l : list T) :
  length l = r * c → Forall (λ x, length x = c) (chunks c r l).
Proof.
  revert l. induction r as [|r IH]; intros l Hl; simpl; [done|].
  constructor.
  - rewrite length_take. lia.
  - apply IH. rewrite length_drop. lia.
Qed.

Lemma concat_chunks {T} (c r : nat) (l : list T) :
  length l = r * c → concat (chunks c r l) = l.
Proof.
  revert l. induction r as [|r IH]; intros l Hl; simpl.
  - destruct l; [done|simpl in Hl; lia].
  - rewrite IH by (rewrite length_drop; lia). apply take_drop.
Qed.

Lemma chunks_app {T} (c r1 r2 : nat) (l1 l2 : list T) :
  length l1 = r1 * c →
  chunks c (r1 + r2) (l1 ++ l2) = chunks c r1 l1 ++ chunks c r2 l2.
Proof.
  revert l1. induction r1 as [|r1 IH]; intros l1 Hl; simpl.
  - destruct l1; [done|simpl in Hl; lia].
  - rewrite take_app_le by lia. rewrite drop_app_le by lia.
    rewrite IH by (rewrite length_drop; lia). done.
Qed.

Lemma chunks_concat_rows {T} (c k : nat) (rows : list (list T)) :
  Forall (λ row, length row = k * c) rows →
  chunks c (length rows * k) (concat rows) = concat (map (chunks c k) rows).
Proof.
  induction 1 as [|row rows Hrow _ IH]; simpl; [done|].
  rewrite chunks_app by done. by rewrite IH.
Qed.

Lemma concat_concat_map {T U} (f : T → list (list U)) (rows : list T) :
  concat (concat (map f rows)) = concat (map (λ r, concat (f r)) rows).
Proof.
  induction rows as [|r rows IH]; simpl; [done|].
  by rewrite concat_app, IH.
Qed.

Lemma zip_with_concat {T U V} (f : T → U → V) (xs : list (list T)) (ys : list (list U)) :
  Forall2 (λ x y, length x = length y) xs ys →
  zip_with f (concat xs) (concat ys) = concat (zip_with (zip_with f) xs ys).
Proof.
  induction 1 as [|x y xs ys Hxy _ IH]; simpl; [done|].
  rewrite zip_with_app by done. by rewrite IH.
Qed.

Lemma zip_with_map_map {T U V W} (f : U → V → W) (g : T → U) (h : T → V) (l : list T) :
  zip_with f (map g l) (map h l) = map (λ x, f (g x) (h x)) l.
Proof. induction l as [|x l IH]; simpl; [done|]. by rewrite IH. Qed.

Lemma length_concat_uniform {T} (c : nat) (ll : list (list T)) :
  Forall (λ x, length x = c) ll → length (concat ll) = length ll * c.
Proof.
  induction 1 as [|x ll Hx _ IH]; simpl; [done|]. rewrite length_app. lia.
Qed.

Lemma infer_dim_exact (k q : nat) : k ≠ 0 → infer_dim (q * k) k = Ok q.
Proof.
  intros Hk. unfold infer_dim.
  destruct (Nat.eqb_spec k 0) as [|_]; [done|].
  rewrite Nat.Div0.mod_mul. simpl. by rewrite Nat.div_mul.
Qed.

(** ** The packed layout of the fused-QKV branch *)

Lemma view3_rows {T} (num_heads hd : nat) (rows : list (list T)) :
  Forall (λ row, length row = num_heads * (3 * hd)) rows →
  view3 (length rows * num_heads) hd (concat rows)
  = concat (map (view3 num_heads hd) rows).
Proof.
  intros Hrows. unfold view3.
  rewrite (chunks_concat_rows (3 * hd) num_heads) by done.
  by rewrite concat_map, map_map.
Qed.

Lemma chunks3_blocks {T} (hd : nat) (q k v : list T) :
  length q = hd → length k = hd → length v = hd →
  chunks hd 3 ((q ++ k) ++ v) = [q; k; v].
Proof.
  intros Hq Hk Hv. simpl.
  rewrite <- !app_assoc.
  rewrite (take_app_length' q) by done. rewrite (drop_app_length' q) by done.
  rewrite (take_app_length' k) by done. rewrite (drop_app_length' k) by done.
  by rewrite take_ge by lia.
Qed.

Lemma chunks_S {T} (c r : nat) (l : list T) :
  chunks c (S r) l = take c l :: chunks c r (drop c l).
Proof. done. Qed.

Lemma view3_cons {T} (num_heads hd : nat) (q k v r : list T) :
  length q = hd → length k = hd → length v = hd →
  view3 (S num_heads) hd (q ++ k ++ v ++ r) = [q; k; v] :: view3 num_heads hd r.
Proof.
  intros Hq Hk Hv. unfold view3. rewrite (chunks_S (3 * hd) num_heads).
  rewrite map_cons.
  replace (q ++ k ++ v ++ r) with (((q ++ k) ++ v) ++ r) by (by rewrite <- !app_assoc).
  assert (length ((q ++ k) ++ v) = 3 * hd) as Hl by (rewrite !length_app; lia).
  rewrite (take_app_length' ((q ++ k) ++ v) r (3 * hd) (eq_sym Hl)).
  rewrite (drop_app_length' ((q ++ k) ++ v) r (3 * hd) (eq_sym Hl)).
  by rewrite chunks3_blocks.
Qed.

Lemma part2_view3_shape {T} (num_heads hd : nat) (r : list T) :
  length r = num_heads * (3 * hd) →
  Forall (λ v, length v = hd) (part2 (view3 num_heads hd r)) ∧
  length (view3 num_heads hd r) = num_heads.
Proof.
  intros Hr. unfold part2, view3. rewrite !length_map, length_chunks. split; [|done].
  rewrite map_map. apply Forall_map.
  eapply Forall_impl; [by apply chunks_shape|]. simpl. intros blk Hblk.
  rewrite length_take, !length_drop. lia.
Qed.

Lemma qkv_row_cons {A} `{Scalar A} (num_heads hd : nat) (s0 s q k v r : list A) :
  length q = hd → length k = hd → length v = hd → length s0 = hd →
  qkv_row (S num_heads) hd (s0 ++ s) (q ++ k ++ v ++ r)
  = q ++ k ++ zip_with s_div v s0 ++ qkv_row num_heads hd s r.
Proof.
  intros Hq Hk Hv Hs. unfold qkv_row.
  rewrite view3_cons by done. cbn [part2 map nth concat].
  rewrite zip_with_app by lia. rewrite (chunks_S hd num_heads).
  assert (length (zip_with s_div v s0) = hd) as Hl by (rewrite length_zip_with; lia).
  rewrite (take_app_length' _ _ hd (eq_sym Hl)).
  rewrite (drop_app_length' _ _ hd (eq_sym Hl)).
  unfold set_part2, flat3. cbn [zip_with map concat]. simpl.
  by rewrite app_nil_r, <- !app_assoc.
Qed.

Lemma qkv_scale_low {A} `{Scalar A} (hd : nat) (s : list A) (o : nat) (x : A) :
  o < 2 * hd → qkv_scale hd s o x = x.
Proof.
  intros Ho. unfold qkv_scale, is_v. rewrite Nat.mod_small by lia.
  destruct (Nat.leb_spec (2 * hd) o); [lia|done].
Qed.

Lemma qkv_scale_v {A} `{Scalar A} (hd : nat) (s : list A) (j : nat) (x : A) :
  j < hd → qkv_scale hd s (2 * hd + j) x = s_div x (nth j s (s_of_Z 0)).
Proof.
  intros Hj. unfold qkv_scale, is_v, v_index.
  rewrite Nat.mod_small, Nat.div_small by lia.
  destruct (Nat.leb_spec (2 * hd) (2 * hd + j)); [|lia].
  do 2 f_equal. lia.
Qed.

Lemma nth_drop {T} (n k : nat) (l : list T) (d : T) :
  nth (n + k) l d = nth k (drop n l) d.
Proof.
  revert l. induction n as [|n IH]; intros [|a l]; simpl; try done.
  by destruct k.
Qed.

Lemma qkv_scale_shift {A} `{Scalar A} (hd : nat) (s : list A) (o : nat) (x : A) :
  hd ≠ 0 → qkv_scale hd s (3 * hd + o) x = qkv_scale hd (drop hd s) o x.
Proof.
  intros Hhd. unfold qkv_scale, is_v, v_index.
  replace (3 * hd + o) with (o + 1 * (3 * hd)) by lia.
  rewrite Nat.Div0.mod_add, Nat.div_add by lia.
  destruct (2 * hd <=? o mod (3 * hd)); [|done].
  rewrite <- nth_drop. do 2 f_equal. lia.
Qed.

Lemma imap_zip_with_nth {A} `{Scalar A} (v s0 s : list A) :
  length v ≤ length s0 →
  imap (λ j x, s_div x (nth j (s0 ++ s) (s_of_Z 0))) v = zip_with s_div v s0.
Proof.
  revert s0. induction v as [|a v IH]; intros [|b s0] Hl; simpl in *; try done; try lia.
  f_equal. rewrite <- (IH s0) by lia. by apply imap_ext.
Qed.

Lemma imap_same {T} (l : list T) : imap (λ _ x, x) l = l.
Proof. rewrite (imap_const id). apply list_fmap_id. Qed.

Lemma split_head {T} (num_heads hd : nat) (r : list T) :
  length r = S num_heads * (3 * hd) →
  ∃ q k v r', r = q ++ k ++ v ++ r' ∧ length q = hd ∧ length k = hd ∧
              length v = hd ∧ length r' = num_heads * (3 * hd).
Proof.
  intros Hr.
  exists (take hd r), (take hd (drop hd r)), (take hd (drop hd (drop hd r))),
         (drop hd (drop hd (drop hd r))).
  rewrite !take_drop. rewrite !length_take, !length_drop. repeat split; lia.
Qed.

Lemma split_scale {T} (num_heads hd : nat) (s : list T) :
  length s = S num_heads * hd →
  ∃ s0 s', s = s0 ++ s' ∧ length s0 = hd ∧ length s' = num_heads * hd.
Proof.
  intros Hs. exists (take hd s), (drop hd s).
  rewrite take_drop, length_take, length_drop. repeat split; lia.
Qed.

(** The rescaling of a packed row, position by position. *)
Lemma qkv_row_imap {A} `{Scalar A} (num_heads hd : nat) (s r : list A) :
  hd ≠ 0 → length r = num_heads * (3 * hd) → length s = num_heads * hd →
  qkv_row num_heads hd s r = imap (qkv_scale hd s) r.
Proof.
  intros Hhd. revert s r. induction num_heads as [|n IH]; intros s r Hr Hs.
  - destruct r; [done|simpl in Hr; lia].
  - destruct (split_head n hd r Hr) as (q & k & v & r' & -> & Hq & Hk & Hv & Hr').
    destruct (split_scale n hd s Hs) as (s0 & s' & -> & Hs0 & Hs').
    rewrite qkv_row_cons by done. rewrite IH by done.
    rewrite !imap_app. f_equal; [|f_equal; [|f_equal]].
    + rewrite <- (imap_same q) at 1. apply imap_ext. intros i x Hi. simpl.
      apply lookup_lt_Some in Hi. symmetry. apply qkv_scale_low. lia.
    + rewrite <- (imap_same k) at 1. apply imap_ext. intros i x Hi. simpl.
      apply lookup_lt_Some in Hi. symmetry. apply qkv_scale_low. lia.
    + rewrite <- (imap_zip_with_nth v s0 s') by lia.
      apply imap_ext. intros i x Hi. simpl.
      apply lookup_lt_Some in Hi. rewrite Hq, Hk.
      replace (hd + (hd + i)) with (2 * hd + i) by lia.
      symmetry. apply qkv_scale_v. lia.
    + apply imap_ext. intros i x Hi. simpl. rewrite Hq, Hk, Hv.
      replace (hd + (hd + (hd + i))) with (3 * hd + i) by lia.
      rewrite qkv_scale_shift by done.
      by rewrite drop_app_length' by done.
Qed.

(** ** Transposition *)

Lemma map_imap_zip_with_cons {T} (g : nat → T → T) (r : list T) (t : list (list T)) :
  map (imap g) (zip_with cons r t)
  = zip_with cons (map (g 0) r) (map (imap (g ∘ S)) t).
Proof.
  revert t. induction r as [|x r IH]; intros [|row t]; simpl; try done.
  by rewrite IH.
Qed.

Lemma transpose_zip_with_cons {T} (c : nat) (r : list T) (t : list (list T)) :
  length r = length t →
  transpose (S c) (zip_with cons r t) = r :: transpose c t.
Proof.
  revert t. induction r as [|x r IH]; intros [|row t] Hl; simpl in *; try done.
  rewrite IH by lia. done.
Qed.

Lemma transpose_empty_rows {T} (m : nat) : transpose 0 (replicate m ([] : list T)) = [].
Proof. by destruct m. Qed.

Lemma map_imap_empty_rows {T} (g : nat → T → T) (m : nat) :
  map (imap g) (replicate m []) = replicate m [].
Proof. induction m as [|m IH]; simpl; [done|]. by rewrite IH. Qed.

(** Rescaling the columns of the transposed matrix by position is
    rescaling the rows of the matrix. *)
Lemma transpose_map_imap {T} (g : nat → T → T) (m : nat) (w : list (list T)) :
  Forall (λ row, length row = m) w →
  transpose (length w) (map (imap g) (transpose m w))
  = imap (λ o row, map (g o) row) w.
Proof.
  intros Hw. revert g. induction Hw as [|row w Hrow Hw IH]; intros g.
  - simpl. by rewrite map_imap_empty_rows, transpose_empty_rows.
  - cbn [transpose length]. rewrite map_imap_zip_with_cons.
    rewrite transpose_zip_with_cons.
    + rewrite IH. rewrite imap_cons. f_equal.
    + rewrite !length_map. by destruct (transpose_shape m w Hw) as [-> _].
Qed.

(** ** The fused-QKV branch *)

Lemma reshape_exact {T} (r c : nat) (flat : list T) :
  length flat = r * c → reshape r c flat = Ok (chunks c r flat).
Proof. intros Hl. unfold reshape. by rewrite Hl, Nat.eqb_refl. Qed.

Lemma length_qkv_row {A} `{Scalar A} (num_heads hd : nat) (s r : list A) :
  hd ≠ 0 → length r = num_heads * (3 * hd) → length s = num_heads * hd →
  length (qkv_row num_heads hd s r) = num_heads * (3 * hd).
Proof. intros. by rewrite qkv_row_imap, length_imap. Qed.

Lemma bind_Ok {T U} (x : T) (k : T → result U) : Ok x ≫= k = k x.
Proof. done. Qed.

(** On the rows of the transposed weight the branch rescales every row on
    its own. *)
Lemma scale_qkv_rows_run {A} `{Scalar A} (num_heads hd : nat) (s : list A)
    (rows : list (list A)) :
  hd ≠ 0 → num_heads ≠ 0 → rows ≠ [] →
  Forall (λ r, length r = num_heads * (3 * hd)) rows →
  length s = num_heads * hd →
  scale_qkv_rows num_heads (length rows) (num_heads * (3 * hd)) rows s
  = Ok (map (qkv_row num_heads hd s) rows).
Proof.
  intros Hhd Hheads Hne Hrows Hs. unfold scale_qkv_rows.
  assert (length rows ≠ 0) as Hn by (by destruct rows).
  pose (vrow := λ r : list A, concat (part2 (view3 num_heads hd r))).
  (* the width of a part *)
  assert (infer_dim (length (concat rows)) (length rows * num_heads * 3) = Ok hd) as ->.
  { rewrite (length_concat_uniform (num_heads * (3 * hd))) by done.
    replace (length rows * (num_heads * (3 * hd)))
      with (hd * (length rows * num_heads * 3)) by lia.
    apply infer_dim_exact. lia. }
  rewrite bind_Ok.
  (* the view and its part 2 *)
  rewrite view3_rows by done.
  assert (concat (part2 (concat (map (view3 num_heads hd) rows)))
          = concat (map vrow rows)) as ->.
  { unfold part2. rewrite concat_map, map_map. apply concat_concat_map. }
  assert (Forall (λ v, length v = num_heads * hd) (map vrow rows)) as Hv.
  { apply Forall_map. eapply Forall_impl; [exact Hrows|]. intros r Hr.
    destruct (part2_view3_shape num_heads hd r Hr) as [Hsh Hlen].
    unfold vrow. rewrite (length_concat_uniform hd) by done.
    unfold part2. by rewrite length_map, Hlen. }
  assert (infer_dim (length (concat (map vrow rows))) (length rows)
          = Ok (num_heads * hd)) as ->.
  { rewrite (length_concat_uniform (num_heads * hd)) by done.
    rewrite length_map.
    replace (length rows * (num_heads * hd))
      with ((num_heads * hd) * length rows) by lia.
    by apply infer_dim_exact. }
  rewrite bind_Ok.
  assert (chunks (num_heads * hd) (length rows) (concat (map vrow rows))
          = map vrow rows) as ->.
  { rewrite <- (length_map vrow rows). by apply chunks_concat. }
  rewrite expand_same by done. rewrite bind_Ok.
  (* the divided values, cut into parts again *)
  rewrite map_map.
  assert (Forall (λ v, length v = num_heads * hd)
            (map (λ r, zip_with s_div (vrow r) s) rows)) as Hv'.
  { apply Forall_map. apply Forall_map in Hv.
    eapply Forall_impl; [exact Hv|]. intros r Hr. simpl in *.
    rewrite length_zip_with. lia. }
  rewrite reshape_exact; last first.
  { rewrite (length_concat_uniform (num_heads * hd)) by done.
    rewrite length_map. lia. }
  rewrite bind_Ok.
  assert (chunks hd (length rows * num_heads)
            (concat (map (λ r, zip_with s_div (vrow r) s) rows))
          = concat (map (λ r, chunks hd num_heads (zip_with s_div (vrow r) s)) rows))
    as ->.
  { rewrite <- (length_map (λ r, zip_with s_div (vrow r) s) rows).
    rewrite (chunks_concat_rows hd num_heads) by done. by rewrite map_map. }
  (* the parts are put back block by block *)
  assert (flat3 (set_part2 (concat (map (view3 num_heads hd) rows))
                   (concat (map (λ r, chunks hd num_heads
                                        (zip_with s_div (vrow r) s)) rows)))
          = concat (map (qkv_row num_heads hd s) rows)) as ->.
  { unfold set_part2 at 1.
    rewrite zip_with_concat; last first.
    { apply Forall2_fmap, Forall_Forall2_diag.
      eapply Forall_impl; [exact Hrows|]. intros r Hr. simpl.
      destruct (part2_view3_shape num_heads hd r Hr) as [_ ->].
      by rewrite length_chunks. }
    rewrite zip_with_map_map.
    unfold flat3 at 1. rewrite concat_map, map_map.
    apply concat_concat_map. }
  (* and the rows are read back *)
  assert (Forall (λ r, length r = num_heads * (3 * hd))
            (map (qkv_row num_heads hd s) rows)) as Hq.
  { apply Forall_map. eapply Forall_impl; [exact Hrows|]. intros r Hr.
    by apply length_qkv_row. }
  rewrite reshape_exact; last first.
  { rewrite (length_concat_uniform (num_heads * (3 * hd))) by done.
    by rewrite length_map. }
  rewrite <- (length_map (qkv_row num_heads hd s) rows) at 1.
  by rewrite chunks_concat.
Qed.

Lemma scale_qkv_weight_run {A} `{Scalar A} (num_heads hd : nat) (fc1 : Linear A)
    (s : list A) :
  wf_linear fc1 → in_features fc1 ≠ 0 → hd ≠ 0 → num_heads ≠ 0 →
  out_features fc1 = num_heads * (3 * hd) → length s = num_heads * hd →
  scale_qkv_weight num_heads fc1 s
  = Ok (set_data (weight fc1)
          (imap (λ o row, map (qkv_scale hd s o) row) (data (weight fc1)))).
Proof.
  intros (Hw & Hr & _) Hin Hhd Hheads Hout Hs. unfold scale_qkv_weight.
  destruct (transpose_shape (in_features fc1) (data (weight fc1)) Hr) as [Hlen Hrows].
  rewrite Hw, Hout in Hrows.
  pose proof (scale_qkv_rows_run num_heads hd s
                (transpose (in_features fc1) (data (weight fc1)))) as Hrun.
  rewrite Hlen, <- Hout in Hrun. rewrite Hrun; try done.
  2: { intros E. rewrite E in Hlen. simpl in Hlen. lia. }
  2: { by rewrite Hout. }
  rewrite bind_Ok. do 2 f_equal.
  rewrite (map_ext_Forall _ (imap (qkv_scale hd s)));
    [|eapply Forall_impl; [exact Hrows|]; intros r Hrl; by apply qkv_row_imap].
  rewrite <- Hw. by apply transpose_map_imap.
Qed.

Lemma scale_qkv_bias_run {A} `{Scalar A} (num_heads hd : nat) (b : vector A)
    (s : list A) :
  hd ≠ 0 → num_heads ≠ 0 →
  length (data b) = num_heads * (3 * hd) → length s = num_heads * hd →
  scale_qkv_bias num_heads b s
  = Ok (set_data b (imap (qkv_scale hd s) (data b))).
Proof.
  intros Hhd Hheads Hb Hs. unfold scale_qkv_bias.
  assert (infer_dim (length (data b)) (num_heads * 3) = Ok hd) as ->.
  { rewrite Hb. replace (num_heads * (3 * hd)) with (hd * (num_heads * 3)) by lia.
    apply infer_dim_exact. lia. }
  rewrite bind_Ok.
  destruct (part2_view3_shape num_heads hd (data b) Hb) as [Hsh Hlen].
  assert (length (concat (part2 (view3 num_heads hd (data b)))) = num_heads * hd) as Hv.
  { rewrite (length_concat_uniform hd) by done. unfold part2.
    by rewrite length_map, Hlen. }
  rewrite expand_same by (by rewrite Hv). rewrite bind_Ok.
  rewrite reshape_exact by (rewrite length_zip_with; lia). rewrite bind_Ok.
  do 2 f_equal. by apply (qkv_row_imap num_heads hd s (data b)).
Qed.

(** C4 (as amended).  When [fc1.out_features] is three times
    [fc2.in_features], [scale_fc_fc] reads the packed output as
    [num_heads] heads of three parts (Q, K, V) of equal width and divides
    by [s] the V part of every head, in the weight rows and in the bias;
    the Q and K parts are unchanged, and the columns of [fc2.weight] are
    multiplied by [s]. *)
Theorem scale_fc_fc_qkv {A} `{Scalar A} (self : Self) (fc1 fc2 : Linear A)
    (scales : vector A) (hd : nat) :
  let num_heads := get_num_attention_heads (model self) in
  wf_linear fc1 → in_features fc1 ≠ 0 → hd ≠ 0 → num_heads ≠ 0 →
  in_features fc2 = num_heads * hd →
  out_features fc1 = in_features fc2 * 3 →
  length (data scales) = in_features fc2 →
  ∃ fc1' fc2',
    scale_fc_fc self fc1 fc2 scales = Ok (fc1', fc2') ∧
    data (weight fc1') =
      imap (λ o row, map (qkv_scale hd (data scales) o) row) (data (weight fc1)) ∧
    (data <$> bias_tensor (bias fc1')) =
      ((λ b, imap (qkv_scale hd (data scales)) (data b)) <$> bias_tensor (bias fc1)) ∧
    data (weight fc2') =
      map (λ row, zip_with s_mul row (data scales)) (data (weight fc2)).
Proof.
  intros num_heads Hwf Hin Hhd Hheads Hin2 Hout Hs.
  assert (out_features fc1 = num_heads * (3 * hd)) as Hout' by lia.
  unfold scale_fc_fc. fold num_heads.
  assert ((out_features fc1 =? in_features fc2 * 3) = true) as ->
    by (by apply Nat.eqb_eq).
  rewrite (scale_qkv_weight_run num_heads hd) by (done || lia).
  rewrite bind_Ok, cols_mul_same by done.
  destruct Hwf as (Hw & Hr & Hb).
  destruct (bias fc1) as [|b|b] eqn:Eb; simpl in Hb |- *.
  - eexists _, _. split; [reflexivity|]. simpl. by rewrite Eb.
  - rewrite (scale_qkv_bias_run num_heads hd) by (done || lia). simpl.
    eexists _, _. split; [reflexivity|]. done.
  - rewrite (scale_qkv_bias_run num_heads hd) by (done || lia). simpl.
    eexists _, _. split; [reflexivity|]. done.
Qed.

(** Scenario 2 with one attention head: the V part is the last third,
    rows 8 to 11. *)
Lemma scale_fc_fc_qkv_witness :
  ∃ fc1' fc2',
    scale_fc_fc (self_with 1 3) fc_qkv fc_diag s2222 = Ok (fc1', fc2') ∧
    data (weight fc1') =
      imap (λ o row, map (qkv_scale 4 (data s2222) o) row) (data (weight fc_qkv)) ∧
    (data <$> bias_tensor (bias fc1')) =
      ((λ b, imap (qkv_scale 4 (data s2222)) (data b)) <$> bias_tensor (bias fc_qkv)) ∧
    data (weight fc2') =
      map (λ row, zip_with s_mul row (data s2222)) (data (weight fc_diag)).
Proof.
  apply (scale_fc_fc_qkv (self_with 1 3) fc_qkv fc_diag s2222 4).
  - repeat split; repeat constructor.
  - simpl; lia.
  - lia.
  - simpl; lia.
  - reflexivity.
  - reflexivity.
  - reflexivity.
Defined.

Example scale_fc_fc_qkv_one_head :
  ∃ fc1' fc2',
    scale_fc_fc (self_with 1 3) fc_qkv fc_diag s2222 = Ok (fc1', fc2') ∧
    data (weight fc1') =
      [[1; 101]; [2; 102]; [3; 103]; [4; 104]; [5; 105]; [6; 106];
       [7; 107]; [8; 108];
       [4.5; 54.5]; [5; 55]; [5.5; 55.5]; [6; 56]]%float ∧
    (data <$> bias_tensor (bias fc1')) =
      Some [1; 2; 3; 4; 5; 6; 7; 8; 4.5; 5; 5.5; 6]%float.
Proof. eexists _, _. repeat split; vm_compute; reflexivity. Qed.

(** C4 fails as stated: with two attention heads the rescaled rows of
    scenario 2 are rows 4, 5, 10 and 11; row 4, outside the last third,
    is divided, and rows 8 and 9, inside it, are not. *)
Lemma qkv_two_heads_not_last_third :
  ∃ fc1' fc2',
    scale_fc_fc (self_with 2 3) fc_qkv fc_diag s2222 = Ok (fc1', fc2') ∧
    data (weight fc1') =
      [[1; 101]; [2; 102]; [3; 103]; [4; 104];
       [2.5; 52.5]; [3; 53];
       [7; 107]; [8; 108]; [9; 109]; [10; 110];
       [5.5; 55.5]; [6; 56]]%float ∧
    (data <$> bias_tensor (bias fc1')) =
      Some [1; 2; 3; 4; 2.5; 3; 7; 8; 9; 10; 5.5; 6]%float.
Proof. eexists _, _. repeat split; vm_compute; reflexivity. Qed.

(* ===================================================================== *)
(** * Further properties of the transforms *)
(* ===================================================================== *)

(** ** Function preservation of the scale and shift fusions *)

Open Scope Qc_scope.

Lemma Qc_zip_mul_div (g s x : list Qc) :
  Forall (λ c, c ≠ 0) s →
  zip_with Qcmult (zip_with Qcdiv g s) x = zip_with Qcdiv (zip_with Qcmult g x) s.
Proof.
  intros Hs. revert g x.
  induction Hs as [|c s Hc Hs IH]; intros [|a g] [|b x]; simpl; try done.
  rewrite IH. f_equal. qc_field.
Qed.

Lemma Qc_norm_affine_scaled (ln : Norm Qc) (s x : list Qc) :
  Forall (λ c, c ≠ 0) s →
  norm_affine
    (mkNorm (set_data (ln_weight ln) (zip_with Qcdiv (data (ln_weight ln)) s))
            ((λ b, set_data b (zip_with Qcdiv (data b) s)) <$> ln_bias ln)) x
  = zip_with Qcdiv (norm_affine ln x) s.
Proof.
  intros Hs. unfold norm_affine. simpl.
  change (zip_with s_mul) with (zip_with Qcmult).
  change (zip_with s_add) with (zip_with Qcplus).
  rewrite Qc_zip_mul_div by done.
  destruct (ln_bias ln) as [b|]; simpl; [|done].
  by apply Qc_zip_div_add.
Qed.

(** X1.  [scale_ln_fcs] with a scale vector without zeros leaves the map
    computed by the normalization's affine part followed by each linear
    layer unchanged: the division of the normalization's weight and bias
    by [s] is undone by the multiplication of the layer's columns. *)
Theorem scale_ln_fcs_preserves_function (ln : Norm Qc) (fcs : list (Linear Qc))
    (scales : vector Qc) :
  scalable (NormOp ln) fcs (length (data scales)) →
  Forall (λ c, c ≠ 0) (data scales) →
  ∃ ln' fcs',
    scale_ln_fcs ln fcs scales = Ok (ln', fcs') ∧
    Forall2 (λ fc fc', ∀ x, linear_forward fc' (norm_affine ln' x)
                            = linear_forward fc (norm_affine ln x))
            fcs fcs'.
Proof.
  intros (Hw & Hb & Hfcs) Hs.
  rewrite Qc_scale_ln_fcs_run; try done.
  2: { eapply Forall_impl; [exact Hfcs|]. by intros fc [_ ?]. }
  eexists _, _; split; [reflexivity|].
  apply Forall2_fmap_r, Forall_Forall2_diag.
  eapply Forall_impl; [exact Hfcs|]. simpl.
  intros fc ((Hwl & Hr & _) & Hin) x.
  rewrite Qc_norm_affine_scaled by done.
  apply Qc_forward_scaled_next; [done|lia|done|done].
Qed.

Lemma scale_ln_fcs_preserves_function_witness :
  ∃ ln' fcs',
    scale_ln_fcs ln_12 [fc_1234] s_24 = Ok (ln', fcs') ∧
    Forall2 (λ fc fc', ∀ x, linear_forward fc' (norm_affine ln' x)
                            = linear_forward fc (norm_affine ln_12 x))
            [fc_1234] fcs'.
Proof.
  apply (scale_ln_fcs_preserves_function ln_12 [fc_1234] s_24).
  - split; [reflexivity|]. split.
    + intros b Hb. injection Hb as <-. reflexivity.
    + repeat constructor.
  - apply Qc_pos_nonzero. repeat constructor.
Defined.

Lemma matvec_run {A} `{Scalar A} (n : nat) (w : matrix A) (v : vector A) :
  dtype w = dtype v → length (data v) = n →
  matvec n w v = Ok (mkTensor (dtype w) (map (λ row, dot row (data v)) (data w))).
Proof.
  intros Hd Hl. unfold matvec.
  rewrite bool_decide_eq_true_2 by done. simpl.
  by rewrite Hl, Nat.eqb_refl.
Qed.

Lemma Qc_dot_sub_r (r y t : list Qc) :
  length y = length t →
  dot r (zip_with Qcminus y t) = dot r y - dot r t.
Proof.
  revert y t. induction r as [|a r IH]; intros [|b y] [|c t] Hl; simpl in *;
    try done; try qc_field.
  rewrite IH by lia. qc_field.
Qed.

(** A following layer whose bias has absorbed [W t] undoes the
    subtraction of [t] from its input. *)
Lemma Qc_forward_shifted_next (fc2 : Linear Qc) (b' : Bias Qc) (t y : list Qc) :
  length y = length t →
  (data <$> bias_tensor b') =
    Some (match bias_tensor (bias fc2) with
          | Some b => zip_with Qcplus (data b)
                        (map (λ row, dot row t) (data (weight fc2)))
          | None => map (λ row, dot row t) (data (weight fc2))
          end) →
  (∀ b, bias_tensor (bias fc2) = Some b →
        length (data b) = length (data (weight fc2))) →
  linear_forward (set_bias fc2 b') (zip_with Qcminus y t) = linear_forward fc2 y.
Proof.
  intros Hl Hb Hlen. unfold linear_forward; simpl.
  destruct (bias_tensor b') as [tb|]; simpl in Hb; [|done].
  injection Hb as ->.
  destruct (bias_tensor (bias fc2)) as [b|].
  - specialize (Hlen b eq_refl). revert Hlen.
    generalize (data b). generalize (data (weight fc2)).
    intros w. induction w as [|r w IH]; intros [|c bs] Hlen; simpl in *; try done.
    rewrite IH by lia. f_equal. rewrite Qc_dot_sub_r by done. qc_field.
  - generalize (data (weight fc2)).
    intros w. induction w as [|r w IH]; simpl; [done|].
    rewrite IH. f_equal. rewrite Qc_dot_sub_r by done. qc_field.
Qed.

Lemma Qc_forward_shifted_prev (fc1 : Linear Qc) (b b' : vector Qc) (t x : list Qc)
    (slot : Bias Qc) :
  bias_tensor (bias fc1) = Some b →
  bias_tensor slot = Some b' →
  data b' = zip_with Qcminus (data b) t →
  linear_forward (set_bias fc1 slot) x = zip_with Qcminus (linear_forward fc1 x) t.
Proof.
  intros Hb Hs Hd. unfold linear_forward; simpl. rewrite Hb, Hs, Hd.
  generalize (map (λ row, dot row x) (data (weight fc1))).
  generalize (data b). clear.
  intros bs. revert t. induction bs as [|c bs IH]; intros [|d t] [|a y]; simpl; try done.
  rewrite IH. f_equal. qc_field.
Qed.

Lemma shift_fc_bias_run {A} `{Scalar A} (self : Self) (fc : Linear A) (shifts : vector A) :
  wf_linear fc →
  length (data shifts) = in_features fc →
  dtype (weight fc) = dtype shifts →
  is_Some (bias_tensor (bias fc)) ∨ use_shift self = true →
  ∃ b', shift_fc_bias self fc shifts = Ok (set_bias fc b') ∧
        (data <$> bias_tensor b') =
          Some (match bias_tensor (bias fc) with
                | Some b => zip_with s_add (data b)
                              (map (λ row, dot row (data shifts)) (data (weight fc)))
                | None => map (λ row, dot row (data shifts)) (data (weight fc))
                end) ∧
        (dtype <$> bias_tensor b') =
          Some (match bias_tensor (bias fc) with
                | Some b => dtype b
                | None => dtype (weight fc)
                end).
Proof.
  intros (Hw & Hr & Hb) Hl Hd Hor. unfold shift_fc_bias, shift_fold.
  rewrite matvec_run by done.
  destruct fc as [i o w [|b|b]]; simpl in *.
  - destruct Hor as [[? Hx]|Hx]; [done|]. rewrite Hx. by eexists.
  - rewrite vec_op_same by (simpl; rewrite length_map; lia). by eexists.
  - rewrite vec_op_same by (simpl; rewrite length_map; lia). by eexists.
Qed.

(** X2.  [shift_fc_fc] on two linear layers of equal width, the first
    with a bias, the second with a bias or under [use_shift]: the shift
    is subtracted from the bias of the first layer, [W2 t] is added to
    (or installed as) the bias of the second, the weights stay, and the
    composed map is the same before and after. *)
Theorem shift_fc_fc_preserves_function (self : Self) (fc1 fc2 : Linear Qc)
    (shifts : vector Qc) :
  wf_linear fc1 → wf_linear fc2 →
  out_features fc1 = in_features fc2 → in_features fc2 ≠ 0%nat →
  length (data shifts) = out_features fc1 →
  dtype (weight fc2) = dtype shifts →
  is_Some (bias_tensor (bias fc1)) →
  is_Some (bias_tensor (bias fc2)) ∨ use_shift self = true →
  ∃ fc1' fc2',
    shift_fc_fc self fc1 fc2 shifts = Ok (fc1', fc2') ∧
    weight fc1' = weight fc1 ∧ weight fc2' = weight fc2 ∧
    ∀ x, linear_forward fc2' (linear_forward fc1' x)
         = linear_forward fc2 (linear_forward fc1 x).
Proof.
  intros Hwf1 Hwf2 Hdim Hnz Hlen Hdt [b1 Hb1] Hor.
  pose proof Hwf1 as (Hw1 & Hr1 & Hbl1). pose proof Hwf2 as (Hw2 & Hr2 & Hbl2).
  rewrite Hb1 in Hbl1.
  destruct (shift_fc_bias_run self fc2 shifts) as (b2' & Hrun2 & Hd2 & _);
    [done|lia|done|done|].
  unfold shift_fc_fc.
  assert ((out_features fc1 =? in_features fc2 * 3) = false) as ->
    by (apply Nat.eqb_neq; lia).
  assert ((out_features fc1 =? in_features fc2) = true) as ->
    by (apply Nat.eqb_eq; lia).
  simpl. rewrite Hb1. rewrite vec_op_same by lia. simpl. rewrite Hrun2. simpl.
  eexists _, _; split; [reflexivity|]. split; [done|]. split; [done|].
  intros x.
  rewrite (Qc_forward_shifted_prev fc1 b1
             (set_data b1 (zip_with Qcminus (data b1) (data shifts))) (data shifts));
    [|done|by destruct (bias fc1)|done].
  apply Qc_forward_shifted_next.
  - unfold linear_forward. destruct (bias_tensor (bias fc1)) as [b|].
    + injection Hb1 as ->. rewrite length_zip_with, length_map. lia.
    + done.
  - exact Hd2.
  - intros b Hb. rewrite Hb in Hbl2. lia.
Qed.

Lemma shift_fc_fc_preserves_function_witness :
  ∃ fc1' fc2',
    shift_fc_fc self_biased fc_half fc_half shifts_half = Ok (fc1', fc2') ∧
    weight fc1' = weight fc_half ∧ weight fc2' = weight fc_half ∧
    ∀ x, linear_forward fc2' (linear_forward fc1' x)
         = linear_forward fc_half (linear_forward fc_half x).
Proof.
  apply (shift_fc_fc_preserves_function self_biased fc_half fc_half shifts_half).
  - repeat split; repeat constructor.
  - repeat split; repeat constructor.
  - reflexivity.
  - simpl; lia.
  - reflexivity.
  - reflexivity.
  - by eexists.
  - left. by eexists.
Defined.

Lemma Qc_zip_add_sub (a b t : list Qc) :
  zip_with Qcplus a (zip_with Qcminus b t)
  = zip_with Qcminus (zip_with Qcplus a b) t.
Proof.
  revert b t. induction a as [|x a IH]; intros [|y b] [|z t]; simpl; try done.
  rewrite IH. f_equal. qc_field.
Qed.

(** X3.  [shift_ln_fcs] on a model with biases: the shift is subtracted
    from the bias of the normalization and [W t] is added to the bias of
    every following layer, so that the normalization's affine part
    followed by each layer computes the same map as before. *)
Theorem shift_ln_fcs_preserves_function (self : Self) (ln : Norm Qc)
    (fcs : list (Linear Qc)) (shifts : vector Qc) :
  has_bias (model self) = true →
  length (data (ln_weight ln)) = length (data shifts) →
  (∃ b, ln_bias ln = Some b ∧ length (data b) = length (data shifts)) →
  Forall (λ fc, wf_linear fc ∧ in_features fc = length (data shifts) ∧
                dtype (weight fc) = dtype shifts ∧
                is_Some (bias_tensor (bias fc))) fcs →
  ∃ ln' fcs',
    shift_ln_fcs self ln fcs shifts = Ok (ln', fcs') ∧
    ln_weight ln' = ln_weight ln ∧
    Forall2 (λ fc fc',
               weight fc' = weight fc ∧
               ∀ x, length x = length (data shifts) →
                    linear_forward fc' (norm_affine ln' x)
                    = linear_forward fc (norm_affine ln x))
            fcs fcs'.
Proof.
  intros Hhas Hw (lb & Hlb & Hlbl) Hfcs.
  unfold shift_ln_fcs. rewrite Hhas, Hlb.
  rewrite vec_op_same by lia. simpl.
  set (g := λ fc : Linear Qc,
         set_bias fc
           (bias_update (bias fc)
              (match bias_tensor (bias fc) with
               | Some b =>
                   set_data b (zip_with Qcplus (data b)
                                 (map (λ row, dot row (data shifts))
                                      (data (weight fc))))
               | None => shifts
               end))).
  rewrite (map_result_ok _ g).
  2: { eapply Forall_impl; [exact Hfcs|]. simpl.
       intros fc ((Hwl & Hr & Hbl) & Hin & Hdt & [b Hb]). subst g. simpl.
       rewrite Hb in *. unfold shift_fold. rewrite matvec_run by done. simpl.
       rewrite vec_op_same by (simpl; rewrite length_map; lia). done. }
  simpl. rewrite !Qc_no_nan. simpl.
  match goal with
  | |- context [forallb ?f (map g fcs)] =>
      assert (forallb f (map g fcs) = true) as ->
  end.
  { apply forallb_forall. intros fc _. rewrite Qc_no_nan. apply Qc_forallb_no_nan. }
  simpl. eexists _, _; split; [reflexivity|]. split; [done|].
  apply Forall2_fmap_r, Forall_Forall2_diag.
  eapply Forall_impl; [exact Hfcs|]. simpl.
  intros fc ((Hwl & Hr & Hbl) & Hin & Hdt & [b Hb]). split; [done|].
  intros x Hx.
  match goal with
  | |- linear_forward _ (norm_affine ?l x) = _ =>
      assert (norm_affine l x
              = zip_with Qcminus (norm_affine ln x) (data shifts)) as ->
  end.
  { unfold norm_affine. simpl. rewrite Hlb. apply Qc_zip_add_sub. }
  subst g. cbv beta.
  apply Qc_forward_shifted_next.
  - unfold norm_affine. rewrite Hlb. rewrite !length_zip_with. lia.
  - rewrite Hb. by destruct (bias fc).
  - intros b0 Hb0. rewrite Hb0 in Hbl. lia.
Qed.

Lemma shift_ln_fcs_preserves_function_witness :
  ∃ ln' fcs',
    shift_ln_fcs self_biased ln_half [fc_half] shifts_half = Ok (ln', fcs') ∧
    ln_weight ln' = ln_weight ln_half ∧
    Forall2 (λ fc fc',
               weight fc' = weight fc ∧
               ∀ x, length x = length (data shifts_half) →
                    linear_forward fc' (norm_affine ln' x)
                    = linear_forward fc (norm_affine ln_half x))
            [fc_half] fcs'.
Proof.
  apply (shift_ln_fcs_preserves_function self_biased ln_half [fc_half] shifts_half).
  - reflexivity.
  - reflexivity.
  - eexists. split; reflexivity.
  - repeat constructor. by eexists.
Defined.

(** ** Rotations *)

Lemma vecmat_zip_cons {A} `{Scalar A} (m : nat) (a row : list A) (t : list (list A)) :
  length row = length t →
  vecmat (S m) a (zip_with cons row t) = dot a row :: vecmat m a t.
Proof.
  revert row t. induction a as [|x a IH]; intros [|r row] [|c t] Hl;
    simpl in *; try done.
  rewrite IH by lia. done.
Qed.

Lemma vecmat_empty_rows {A} `{Scalar A} (a : list A) (n : nat) :
  vecmat 0 a (replicate n []) = [].
Proof.
  revert n. induction a as [|x a IH]; intros [|n]; simpl; try done.
Qed.

(** A row vector times a transposed matrix: the dot products with the
    rows. *)
Lemma vecmat_transpose {A} `{Scalar A} (n : nat) (a : list A) (b : list (list A)) :
  Forall (λ row, length row = n) b →
  vecmat (length b) a (transpose n b) = map (dot a) b.
Proof.
  induction 1 as [|row b Hrow Hb IH]; simpl.
  - apply vecmat_empty_rows.
  - rewrite vecmat_zip_cons, IH; [done|].
    apply transpose_shape in Hb as [-> _]. done.
Qed.

Lemma Qc_dot_comm (u v : list Qc) : dot u v = dot v u.
Proof.
  revert v. induction u as [|a u IH]; intros [|b v]; simpl; try done.
  rewrite IH. qc_field.
Qed.

Lemma Qc_dot_zeros_l (n : nat) (x : list Qc) : dot (replicate n 0) x = 0.
Proof.
  revert x. induction n as [|n IH]; intros [|b x]; simpl; try done.
  rewrite IH. qc_field.
Qed.

Lemma Qc_dot_zeros_r (n : nat) (x : list Qc) : dot x (replicate n 0) = 0.
Proof. rewrite Qc_dot_comm. apply Qc_dot_zeros_l. Qed.

Lemma Qc_dot_vadd_l (u v x : list Qc) :
  length u = length v → dot (vadd u v) x = dot u x + dot v x.
Proof.
  revert v x. induction u as [|a u IH]; intros [|b v] [|c x] Hl; simpl in *;
    try done; try qc_field.
  rewrite IH by lia. qc_field.
Qed.

Lemma Qc_dot_vscale_l (k : Qc) (u x : list Qc) :
  dot (vscale k u) x = k * dot u x.
Proof.
  revert x. induction u as [|a u IH]; intros [|c x]; simpl; try qc_field.
  rewrite IH. qc_field.
Qed.

Lemma Qc_dot_vecmat (n : nat) (a x : list Qc) (b : list (list Qc)) :
  Forall (λ row, length row = n) b →
  dot (vecmat n a b) x = dot a (map (λ row, dot row x) b).
Proof.
  intros Hb. revert a. induction Hb as [|row b Hrow Hb IH]; intros [|k a].
  1-3: simpl; apply Qc_dot_zeros_l.
  rewrite vecmat_cons. simpl.
  rewrite Qc_dot_vadd_l, Qc_dot_vscale_l, IH; [done|].
  unfold vscale. rewrite length_map, length_vecmat; done.
Qed.

Lemma Qc_map_dot_identity (n : nat) (y : list Qc) :
  length y = n → map (dot y) (identity n) = y.
Proof.
  revert y. induction n as [|n IH]; intros [|a y] Hl; simpl in *; try done.
  rewrite Qc_dot_zeros_r. f_equal; [qc_field|].
  rewrite map_map. etrans; [|apply (IH y); lia].
  apply map_ext. intros e. simpl. qc_field.
Qed.

(** Multiplying both arguments of a dot product by a matrix with
    orthonormal rows does not change it. *)
Lemma Qc_dot_rotated (n : nat) (q : list (list Qc)) (r y : list Qc) :
  length q = n → Forall (λ row, length row = n) q →
  mat_mul n q (transpose n q) = identity n →
  length y = n →
  dot (vecmat n r q) (vecmat n y q) = dot r y.
Proof.
  intros Hl Hq Horth Hy.
  rewrite Qc_dot_vecmat by done. f_equal.
  etrans; [|apply (Qc_map_dot_identity n y Hy)].
  rewrite <- Horth. unfold mat_mul. rewrite map_map.
  apply map_ext. intros row.
  rewrite (Qc_dot_comm row), Qc_dot_vecmat by done. f_equal.
  pose proof (vecmat_transpose n row q Hq) as Hvt. rewrite Hl in Hvt.
  rewrite Hvt. apply map_ext. intros row'. apply Qc_dot_comm.
Qed.

Lemma Qc_transpose_matvec (n : nat) (q : list (list Qc)) (y : list Qc) :
  Forall (λ row, length row = n) q → length y = length q →
  map (λ qt, dot qt y) (transpose n q) = vecmat n y q.
Proof.
  intros Hq. revert y. induction Hq as [|row q Hrow Hq IH]; intros [|a y] Hl;
    simpl in *; try done.
  - clear. induction n as [|n IH]; simpl; [done|]. by rewrite IH.
  - rewrite <- IH by lia.
    pose proof (transpose_shape n q Hq) as [Hlt _].
    revert Hrow Hlt. generalize (transpose n q). clear. intros t. revert n t.
    induction row as [|r row IH]; intros [|n] [|c t] Hrow Hlt; simpl in *; try done.
    unfold vadd, vscale in *. simpl. rewrite (IH n) by lia.
    f_equal. qc_field.
Qed.

Lemma Qc_dot_add_r (r y b : list Qc) :
  length y = length b →
  dot r (zip_with Qcplus y b) = dot r y + dot r b.
Proof.
  intros Hl. rewrite Qc_dot_comm.
  change (zip_with Qcplus y b) with (vadd y b).
  rewrite Qc_dot_vadd_l by done. by rewrite !(Qc_dot_comm r).
Qed.

Lemma Qc_vecmat_cons_zero (n : nat) (a : list Qc) (b : list (list Qc)) :
  vecmat (S n) a (map (cons 0) b) = 0 :: vecmat n a b.
Proof.
  revert b. induction a as [|x a IH]; intros [|row b]; simpl; try done.
  rewrite IH. unfold vadd, vscale. simpl. f_equal. qc_field.
Qed.

Lemma Qc_vecmat_identity (n : nat) (a : list Qc) :
  length a = n → vecmat n a (identity n) = a.
Proof.
  revert a. induction n as [|n IH]; intros [|x a] Hl; simpl in *; try done.
  rewrite Qc_vecmat_cons_zero, IH by lia.
  change (vadd (vscale x (Q2Qc (inject_Z 1) :: replicate n (Q2Qc (inject_Z 0))))
               (Q2Qc 0 :: a))
    with ((x * Q2Qc (inject_Z 1) + Q2Qc 0)
            :: vadd (vscale x (replicate n (Q2Qc 0))) a).
  rewrite Qc_zeros_scale, Qc_vadd_zero_l by lia. f_equal. qc_field.
Qed.

Lemma wf_rotation_T {A} `{Scalar A} (Q : Rotation A) (n : nat) :
  wf_rotation Q n → wf_rotation (rot_T Q) n.
Proof.
  intros (Hr & Hc & Hd & Hl & Hrows). unfold wf_rotation, rot_T; simpl.
  rewrite Hc. apply transpose_shape in Hrows as [Hlt Hrt].
  repeat split; try done.
  eapply Forall_impl; [exact Hrt|]. simpl. intros row Hrow. lia.
Qed.

(** The layer behind a rotated output computes the old output times [Q]. *)
Lemma Qc_forward_post (n : nat) (q : list (list Qc)) (fc fc' : Linear Qc)
    (x : list Qc) :
  Forall (λ row, length row = n) q → length q = n →
  wf_linear fc → out_features fc = n →
  data (weight fc') = mat_mul (in_features fc) (transpose n q) (data (weight fc)) →
  (data <$> bias_tensor (bias fc')) =
    ((λ b, map (λ row, dot row (data b)) (transpose n q))
       <$> bias_tensor (bias fc)) →
  linear_forward fc' x = vecmat n (linear_forward fc x) q.
Proof.
  intros Hq Hl (Hw & Hr & Hb) Hout Hw' Hb'.
  unfold linear_forward. rewrite Hw'. unfold mat_mul. rewrite map_map.
  assert (map (λ qt, dot (vecmat (in_features fc) qt (data (weight fc))) x)
              (transpose n q)
          = map (λ qt, dot qt (map (λ row, dot row x) (data (weight fc))))
                (transpose n q)) as ->.
  { apply map_ext. intros qt. by apply Qc_dot_vecmat. }
  destruct (bias_tensor (bias fc')) as [b'|], (bias_tensor (bias fc)) as [b|];
    simpl in Hb'; try done.
  - injection Hb' as ->. rewrite zip_with_map_map.
    rewrite <- Qc_transpose_matvec
      by (done || rewrite length_zip_with, length_map; lia).
    apply map_ext. intros qt. symmetry. apply Qc_dot_add_r.
    rewrite length_map. lia.
  - apply Qc_transpose_matvec; [done|]. rewrite length_map. lia.
Qed.

(** The layer in front of which the input is multiplied by [Q] undoes
    the multiplication when [Q Qᵗ] is the identity. *)
Lemma Qc_forward_pre (n : nat) (q : list (list Qc)) (fc : Linear Qc)
    (w' : matrix Qc) (y : list Qc) :
  Forall (λ row, length row = n) q → length q = n →
  mat_mul n q (transpose n q) = identity n →
  length y = n →
  data w' = mat_mul n (data (weight fc)) q →
  linear_forward (set_weight fc w') (vecmat n y q) = linear_forward fc y.
Proof.
  intros Hq Hl Horth Hy Hw'. unfold linear_forward; simpl.
  rewrite Hw'. unfold mat_mul. rewrite map_map.
  assert (map (λ r, dot (vecmat n r q) (vecmat n y q)) (data (weight fc))
          = map (λ row, dot row y) (data (weight fc))) as ->; [|done].
  apply map_ext. intros r. by apply Qc_dot_rotated.
Qed.

(** X4.  Computational invariance of the rotation: for [Q] with
    [Q Qᵗ = I], a layer whose output side is rotated by
    [rotate_post_layers] (without the exact-Hadamard branch) followed by
    a layer whose input side is rotated by [rotate_pre_layers] computes
    the same map as the two layers before the rotation. *)
Theorem rotate_post_pre_preserves_function had (self : Self) (Q : Rotation Qc)
    (n : nat) (fc1 fc2 : Linear Qc) :
  wf_rotation Q n → wf_linear fc1 → wf_linear fc2 →
  out_features fc1 = n → in_features fc2 = n →
  mat_mul n (data (q_mat Q)) (transpose n (data (q_mat Q))) = identity n →
  ∃ fc1' fc2',
    rotate_post_layers had self [fc1] Q false = Ok [fc1'] ∧
    rotate_pre_layers [fc2] Q = Ok [fc2'] ∧
    ∀ x, linear_forward fc2' (linear_forward fc1' x)
         = linear_forward fc2 (linear_forward fc1 x).
Proof.
  intros HQ Hwf1 Hwf2 Hout Hin Horth.
  pose proof HQ as (Hr & Hc & Hd & Hl & Hrows).
  unfold rotate_post_layers, rotate_pre_layers. simpl.
  rewrite (rotate_post_layer_run had self Q n) by done.
  rewrite (rotate_pre_layer_run Q n) by done. simpl.
  eexists _, _; split; [reflexivity|]. split; [reflexivity|].
  intros x.
  match goal with
  | |- linear_forward _ (linear_forward ?f x) = _ =>
      rewrite (Qc_forward_post n (data (q_mat Q)) fc1 f x); try done
  end.
  - apply Qc_forward_pre; try done.
    destruct Hwf1 as (Hw1 & _ & Hb1). unfold linear_forward.
    destruct (bias_tensor (bias fc1)) as [b|].
    + rewrite length_zip_with, length_map. lia.
    + rewrite length_map. lia.
  - simpl. by destruct (bias fc1).
Qed.

Lemma rotate_post_pre_preserves_function_witness :
  ∃ fc1' fc2',
    rotate_post_layers (λ l, l) (self_with 1 3) [fc_1234] Qc_swap false = Ok [fc1'] ∧
    rotate_pre_layers [fc_1234] Qc_swap = Ok [fc2'] ∧
    ∀ x, linear_forward fc2' (linear_forward fc1' x)
         = linear_forward fc_1234 (linear_forward fc_1234 x).
Proof.
  apply (rotate_post_pre_preserves_function (λ l, l) (self_with 1 3) Qc_swap 2
           fc_1234 fc_1234).
  - repeat split; repeat constructor.
  - repeat split; repeat constructor.
  - repeat split; repeat constructor.
  - reflexivity.
  - reflexivity.
  - vm_compute. repeat f_equal; apply Qc_is_canon; reflexivity.
Defined.

Lemma rotate_embedding_run {A} `{Scalar A} (Q : Rotation A) (n : nat)
    (e : Embedding A) :
  wf_rotation Q n → embedding_dim e = n →
  rotate_embedding Q e
  = Ok (mkEmbedding (embedding_dim e)
          (mkTensor (dtype (emb_weight e))
             (mat_mul n (data (emb_weight e)) (data (q_mat Q))))).
Proof.
  intros (Hr & Hc & Hd & Hl & Hrows) Hdim. unfold rotate_embedding, matmul. simpl.
  rewrite Hd, Hl, Hdim, Hc. rewrite bool_decide_eq_true_2 by done. simpl.
  by rewrite Nat.eqb_refl.
Qed.

Lemma rotate_head_layer_run {A} `{Scalar A} (Q : Rotation A) (n : nat) (l : Linear A) :
  wf_rotation Q n → in_features l = n →
  rotate_head_layer Q l
  = Ok (set_weight l (mkTensor (dtype (weight l))
                        (mat_mul n (data (weight l)) (data (q_mat Q))))).
Proof.
  intros (Hr & Hc & Hd & Hl & Hrows) Hin. unfold rotate_head_layer, matmul. simpl.
  rewrite Hd, Hl, Hin, Hc. rewrite bool_decide_eq_true_2 by done. simpl.
  by rewrite Nat.eqb_refl.
Qed.

(** X5.  For [Q] with [Q Qᵗ = I], after [rotate_embeddings] and
    [rotate_head] with the same [Q] the head applied to the embedding of
    a token gives the output it gave before: the rotation of the
    embedding rows is undone by the rotation of the head's input side. *)
Theorem rotate_embeddings_head_logits (Q : Rotation Qc) (n : nat)
    (emb : Embedding Qc) (head : Linear Qc) :
  wf_rotation Q n →
  embedding_dim emb = n →
  Forall (λ row, length row = n) (data (emb_weight emb)) →
  in_features head = n →
  mat_mul n (data (q_mat Q)) (transpose n (data (q_mat Q))) = identity n →
  ∃ emb' head',
    rotate_embeddings [emb] Q = Ok [emb'] ∧
    rotate_head [head] Q = Ok [head'] ∧
    dtype (emb_weight emb') = dtype (emb_weight emb) ∧
    dtype (weight head') = dtype (weight head) ∧
    ∀ i e, data (emb_weight emb) !! i = Some e →
           ∃ e', data (emb_weight emb') !! i = Some e' ∧
                 linear_forward head' e' = linear_forward head e.
Proof.
  intros HQ Hdim Hrows Hin Horth.
  pose proof HQ as (Hr & Hc & Hd & Hl & Hqrows).
  unfold rotate_embeddings, rotate_head. simpl.
  rewrite (rotate_embedding_run Q n), (rotate_head_layer_run Q n) by done. simpl.
  eexists _, _; split; [reflexivity|]. split; [reflexivity|].
  split; [done|]. split; [done|].
  intros i e He. simpl. unfold mat_mul. rewrite list_lookup_fmap, He. simpl.
  eexists; split; [reflexivity|].
  apply Qc_forward_pre; try done.
  rewrite Forall_lookup in Hrows. by apply (Hrows i).
Qed.

Lemma rotate_embeddings_head_logits_witness :
  ∃ emb' head',
    rotate_embeddings [emb_1234] Qc_swap = Ok [emb'] ∧
    rotate_head [fc_1234] Qc_swap = Ok [head'] ∧
    dtype (emb_weight emb') = dtype (emb_weight emb_1234) ∧
    dtype (weight head') = dtype (weight fc_1234) ∧
    ∀ i e, data (emb_weight emb_1234) !! i = Some e →
           ∃ e', data (emb_weight emb') !! i = Some e' ∧
                 linear_forward head' e' = linear_forward fc_1234 e.
Proof.
  apply (rotate_embeddings_head_logits Qc_swap 2 emb_1234 fc_1234).
  - repeat split; repeat constructor.
  - reflexivity.
  - repeat constructor.
  - reflexivity.
  - vm_compute. repeat f_equal; apply Qc_is_canon; reflexivity.
Defined.

Lemma Qc_mat_mul_identity_r (n : nat) (w : list (list Qc)) :
  Forall (λ row, length row = n) w → mat_mul n w (identity n) = w.
Proof.
  intros Hw. unfold mat_mul. rewrite <- (map_id w) at 2.
  apply map_ext_Forall. eapply Forall_impl; [exact Hw|]. simpl.
  intros row Hrow. by apply Qc_vecmat_identity.
Qed.

(** X6.  [rotate_pre_layers] with [Q] followed by [rotate_pre_layers]
    with [Q.T] gives back the layers it started from, weights, dtypes
    and biases, when [Q Qᵗ = I]. *)
Theorem rotate_pre_layers_inverse (Q : Rotation Qc) (n : nat)
    (layers : list (Linear Qc)) :
  wf_rotation Q n →
  Forall (λ l, wf_linear l ∧ in_features l = n) layers →
  mat_mul n (data (q_mat Q)) (transpose n (data (q_mat Q))) = identity n →
  ∃ pre,
    rotate_pre_layers layers Q = Ok pre ∧
    rotate_pre_layers pre (rot_T Q) = Ok layers.
Proof.
  intros HQ Hlayers Horth.
  pose proof HQ as (Hr & Hc & Hd & Hl & Hrows).
  pose proof (wf_rotation_T Q n HQ) as HQT.
  exists (map (λ l, set_weight l (mkTensor (dtype (weight l))
                 (mat_mul n (data (weight l)) (data (q_mat Q))))) layers).
  split.
  - apply map_result_ok. eapply Forall_impl; [exact Hlayers|]. simpl.
    intros l (Hwf & Hin). by apply rotate_pre_layer_run.
  - unfold rotate_pre_layers.
    rewrite (map_result_ok _ (λ l, set_weight l (mkTensor (dtype (weight l))
                 (mat_mul n (data (weight l)) (data (q_mat (rot_T Q))))))).
    + f_equal. rewrite map_map. etrans; [|apply map_id]. apply map_ext_Forall.
      eapply Forall_impl; [exact Hlayers|]. simpl.
      intros l ((Hw & Hwr & Hb) & Hin). unfold set_weight; simpl.
      rewrite Hc. rewrite (Qc_mat_mul_assoc n n).
      2: done.
      2: { destruct HQT as (_ & _ & _ & _ & HT). simpl in HT. by rewrite Hc in HT. }
      rewrite Horth, Qc_mat_mul_identity_r by (by rewrite <- Hin).
      destruct l as [i o [dt w] b]; done.
    + apply Forall_map. eapply Forall_impl; [exact Hlayers|]. simpl.
      intros l (Hwf & Hin).
      by rewrite (rotate_pre_layer_run (rot_T Q) n)
        by (done || by apply rotate_pre_layer_wf).
Qed.

Lemma rotate_pre_layers_inverse_witness :
  ∃ pre,
    rotate_pre_layers [fc_1234] Qc_swap = Ok pre ∧
    rotate_pre_layers pre (rot_T Qc_swap) = Ok [fc_1234].
Proof.
  apply (rotate_pre_layers_inverse Qc_swap 2 [fc_1234]).
  - repeat split; repeat constructor.
  - repeat constructor.
  - vm_compute. repeat f_equal; apply Qc_is_canon; reflexivity.
Defined.

(** After a rotation that is not square the weight is as wide as [Q] has
    columns, whatever [in_features] says, and that is what the next
    product is checked against: a rotation with three rows passes, one
    with two rows is refused. *)
Example rotate_pre_layers_after_resize :
  let Q23 := mkRotation 2 3 (mkTensor Float64 [[1; 0; 0]; [0; 1; 0]]%float) in
  let Q32 := mkRotation 3 2 (mkTensor Float64 [[1; 0]; [0; 1]; [0; 0]]%float) in
  let wide := mkLinear 2 2 (mkTensor Float64 [[1; 0; 0]; [0; 2; 0]]%float) BiasNone in
  rotate_pre_layers [fc_diag12] Q23 = Ok [wide] ∧
  rotate_pre_layers [wide] Q32 = Ok [fc_diag12] ∧
  rotate_pre_layers [wide] Q_swap = Raise RuntimeError.
Proof. repeat split; vm_compute; reflexivity. Qed.

(** ** Means *)

Lemma Qc_of_nat_S (n : nat) :
  Q2Qc (inject_Z (Z.of_nat (S n))) = 1 + Q2Qc (inject_Z (Z.of_nat n)).
Proof.
  apply Qc_is_canon. simpl. rewrite !Qred_correct.
  unfold Qeq. simpl. lia.
Qed.

Lemma Qc_of_nat_nonzero (n : nat) :
  n ≠ 0%nat → Q2Qc (inject_Z (Z.of_nat n)) ≠ 0.
Proof.
  intros Hn Heq. apply Hn.
  apply (f_equal (λ q : Qc, this q)) in Heq. simpl in Heq.
  assert (inject_Z (Z.of_nat n) == 0)%Q as Hq.
  { rewrite <- (Qred_correct (inject_Z (Z.of_nat n))), Heq. reflexivity. }
  unfold Qeq in Hq. simpl in Hq. lia.
Qed.

Lemma Qc_vsum_sub_const (c : Qc) (l : list Qc) :
  vsum (map (λ x, x - c) l)
  = vsum l - Q2Qc (inject_Z (Z.of_nat (length l))) * c.
Proof.
  induction l as [|a l IH].
  - change (vsum (map (λ x, x - c) [])) with (Q2Qc 0).
    change (vsum []) with (Q2Qc 0).
    change (Q2Qc (inject_Z (Z.of_nat (length (@nil Qc))))) with (Q2Qc 0).
    field.
  - cbn [map vsum length]. rewrite IH, Qc_of_nat_S. qc_field.
Qed.

(** Subtracting its mean from a tensor leaves entries that sum to zero. *)
Lemma Qc_vsum_centred (l : list Qc) :
  vsum (map (λ x, x - mean l) l) = 0.
Proof.
  rewrite Qc_vsum_sub_const. unfold mean.
  destruct l as [|a l].
  - cbn. change (Z.of_nat 0%nat) with 0%Z. qc_norm. set (q := _ / _). ring.
  - pose proof (Qc_of_nat_nonzero (length (a :: l))) as Hnz.
    qc_field; apply Hnz; simpl; lia.
Qed.

Lemma Qc_mean_zero_sum (l : list Qc) : vsum l = 0 → mean l = 0.
Proof. intros Hs. unfold mean. rewrite Hs. qc_norm. apply Qcmult_0_l. Qed.

Lemma Qc_sub_zero_map (l : list Qc) : map (λ x, x - 0) l = l.
Proof.
  etrans; [|apply map_id]. apply map_ext. intros x. unfold id. qc_field.
Qed.

(** X7.  [remove_mean_from_embed] keeps the shape and dtype of every
    embedding weight, subtracts from every row one constant, its mean,
    after which the row sums to zero; applying it a second time changes
    nothing. *)
Theorem remove_mean_from_embed_centres (embeddings : list (Embedding Qc)) :
  Forall2 (λ e e',
             embedding_dim e' = embedding_dim e ∧
             dtype (emb_weight e') = dtype (emb_weight e) ∧
             Forall2 (λ row row',
                        row' = map (λ x, x - mean row) row ∧ vsum row' = 0)
                     (data (emb_weight e)) (data (emb_weight e')))
          embeddings (remove_mean_from_embed embeddings) ∧
  remove_mean_from_embed (remove_mean_from_embed embeddings)
  = remove_mean_from_embed embeddings.
Proof.
  split.
  - unfold remove_mean_from_embed. apply Forall2_fmap_r, Forall_Forall2_diag.
    apply Forall_forall. intros e _. simpl. repeat split.
    apply Forall2_fmap_r, Forall_Forall2_diag.
    apply Forall_forall. intros row _. split; [done|]. apply Qc_vsum_centred.
  - unfold remove_mean_from_embed. rewrite map_map. apply map_ext.
    intros e. cbn [emb_weight embedding_dim]. unfold to_dtype, set_data.
    cbn [data dtype]. do 2 f_equal.
    rewrite map_map. apply map_ext. intros row.
    cbv zeta. cbn [s_sub Qc_scalar].
    rewrite (Qc_mean_zero_sum _ (Qc_vsum_centred row)).
    apply Qc_sub_zero_map.
Qed.

Lemma Qc_vsum_zip_cons (row : list Qc) (t : list (list Qc)) :
  map vsum (zip_with cons row t) = vadd row (map vsum t).
Proof.
  revert t. induction row as [|a row IH]; intros [|c t]; simpl; try done.
  unfold vadd in *. by rewrite IH.
Qed.

Lemma Qc_vsum_zeros (n : nat) : map vsum (replicate n (@nil Qc)) = replicate n 0.
Proof. induction n as [|n IH]; simpl; [done|]. by rewrite IH. Qed.

(** The column sums of a matrix, applied to [x], give the sum of the
    outputs. *)
Lemma Qc_dot_col_sums (n : nat) (w : list (list Qc)) (x : list Qc) :
  Forall (λ row, length row = n) w →
  dot (map vsum (transpose n w)) x = vsum (map (λ row, dot row x) w).
Proof.
  induction 1 as [|row w Hrow Hw IH]; simpl.
  - rewrite Qc_vsum_zeros. apply Qc_dot_zeros_l.
  - rewrite Qc_vsum_zip_cons, Qc_dot_vadd_l, IH; [done|].
    rewrite length_map. apply transpose_shape in Hw as [-> _]. done.
Qed.

Lemma Qc_dot_col_means (n : nat) (w : list (list Qc)) (x : list Qc) :
  Forall (λ row, length row = n) w → w ≠ [] →
  dot (map mean (transpose n w)) x = mean (map (λ row, dot row x) w).
Proof.
  intros Hw Hne.
  assert (map mean (transpose n w)
          = map (λ s, s / Q2Qc (inject_Z (Z.of_nat (length w))))
                (map vsum (transpose n w))) as ->.
  { rewrite map_map. apply map_ext_Forall.
    apply transpose_shape in Hw as [_ Hcols].
    eapply Forall_impl; [exact Hcols|]. simpl. intros col Hcol.
    unfold mean. by rewrite Hcol. }
  rewrite Qc_dot_div_l.
  - rewrite Qc_dot_col_sums by done. unfold mean. by rewrite length_map.
  - apply Qc_of_nat_nonzero. by destruct w.
Qed.

Lemma Qc_dot_sub_l (r m x : list Qc) :
  length r = length m →
  dot (zip_with Qcminus r m) x = dot r x - dot m x.
Proof.
  intros Hl. rewrite Qc_dot_comm, Qc_dot_sub_r by done.
  by rewrite !(Qc_dot_comm x).
Qed.

Lemma Qc_rows_centred (n : nat) (w : list (list Qc)) (x : list Qc) :
  Forall (λ row, length row = n) w →
  map (λ row, dot row x)
      (map (λ row, zip_with Qcminus row (map mean (transpose n w))) w)
  = map (λ y, y - mean (map (λ row, dot row x) w)) (map (λ row, dot row x) w).
Proof.
  intros Hw. rewrite !map_map. apply map_ext_Forall.
  pose proof Hw as Hw'. rewrite Forall_forall in Hw'. apply Forall_forall.
  intros row Hin. simpl.
  rewrite Qc_dot_sub_l.
  - rewrite Qc_dot_col_means; [done|done|]. intros ->. by apply elem_of_nil in Hin.
  - rewrite length_map. apply transpose_shape in Hw as [-> _]. by apply Hw'.
Qed.

Lemma Qc_vsum_add (u b : list Qc) :
  length u = length b → vsum (zip_with Qcplus u b) = vsum u + vsum b.
Proof.
  revert b. induction u as [|a u IH]; intros [|c b] Hl; try done.
  cbn [zip_with vsum]. rewrite IH by (simpl in Hl; lia). qc_field.
Qed.

Lemma Qc_mean_add (u b : list Qc) :
  length u = length b → mean (zip_with Qcplus u b) = mean u + mean b.
Proof.
  intros Hl. unfold mean. rewrite Qc_vsum_add, length_zip_with by done.
  rewrite <- Hl, Nat.min_id.
  destruct u as [|a u].
  - cbn. change (Z.of_nat 0%nat) with 0%Z. qc_norm.
    destruct b; [|done]. cbn. qc_norm. unfold Qcdiv. ring.
  - pose proof (Qc_of_nat_nonzero (length (a :: u))) as Hnz.
    qc_field; apply Hnz; simpl; lia.
Qed.

Lemma Qc_centred_add (u b : list Qc) :
  length u = length b →
  zip_with Qcplus (map (λ y, y - mean u) u) (map (λ y, y - mean b) b)
  = map (λ y, y - mean (zip_with Qcplus u b)) (zip_with Qcplus u b).
Proof.
  intros Hl. rewrite Qc_mean_add by done.
  generalize (mean u), (mean b). intros mu mb. revert b Hl.
  induction u as [|a u IH]; intros [|c b] Hl; simpl in *; try done.
  rewrite IH by lia. f_equal. qc_field.
Qed.

(** X8.  [bake_mean_into_fc] keeps the dtype of the weight and makes the
    layer compute its former output minus the mean of that output over
    the output features; the new outputs sum to zero on every input. *)
Theorem bake_mean_into_fc_centres_output (fc : Linear Qc) (x : list Qc) :
  wf_linear fc →
  dtype (weight (bake_mean_into_fc fc)) = dtype (weight fc) ∧
  linear_forward (bake_mean_into_fc fc) x
  = map (λ y, y - mean (linear_forward fc x)) (linear_forward fc x) ∧
  vsum (linear_forward (bake_mean_into_fc fc) x) = 0.
Proof.
  intros (Hw & Hr & Hb).
  assert (linear_forward (bake_mean_into_fc fc) x
          = map (λ y, y - mean (linear_forward fc x)) (linear_forward fc x)) as Hfwd.
  { unfold bake_mean_into_fc, linear_forward.
    destruct fc as [i o [dt w] [|b|b]]; simpl in *.
    - by apply Qc_rows_centred.
    - rewrite (Qc_rows_centred i) by done.
      apply Qc_centred_add. rewrite length_map. lia.
    - rewrite (Qc_rows_centred i) by done.
      apply Qc_centred_add. rewrite length_map. lia. }
  split; [by destruct fc as [i o [dt w] [|b|b]]|]. split; [done|].
  rewrite Hfwd. apply Qc_vsum_centred.
Qed.

Lemma bake_mean_into_fc_centres_output_witness :
  dtype (weight (bake_mean_into_fc fc_1234)) = dtype (weight fc_1234) ∧
  linear_forward (bake_mean_into_fc fc_1234) [qz 1; qz 1]
  = map (λ y, y - mean (linear_forward fc_1234 [qz 1; qz 1]))
        (linear_forward fc_1234 [qz 1; qz 1]) ∧
  vsum (linear_forward (bake_mean_into_fc fc_1234) [qz 1; qz 1]) = 0.
Proof.
  apply (bake_mean_into_fc_centres_output fc_1234 [qz 1; qz 1]).
  repeat split; repeat constructor.
Defined.

(** ** Folding a normalization into the following layers *)

Lemma Qc_dot_mul_l (r g x : list Qc) :
  dot (zip_with Qcmult r g) x = dot r (zip_with Qcmult g x).
Proof.
  revert g x. induction r as [|a r IH]; intros [|c g] [|d x]; simpl; try done.
  rewrite IH. qc_field.
Qed.

Lemma Qc_forward_fused_rows (w : list (list Qc)) (g x : list Qc) :
  map (λ row, dot row x) (map (λ row, zip_with Qcmult row g) w)
  = map (λ row, dot row (zip_with Qcmult g x)) w.
Proof. rewrite map_map. apply map_ext. intros row. apply Qc_dot_mul_l. Qed.

Lemma Qc_forward_fused_bias (w : list (list Qc)) (y beta b : list Qc) :
  length y = length beta → length b = length w →
  zip_with Qcplus (map (λ row, dot row y) w)
    (zip_with Qcplus b (map (λ row, dot row beta) w))
  = zip_with Qcplus (map (λ row, dot row (zip_with Qcplus y beta)) w) b.
Proof.
  intros Hl. revert b. induction w as [|row w IH]; intros [|c b] Hb;
    simpl in *; try done.
  rewrite IH by lia. f_equal. rewrite Qc_dot_add_r by done. qc_field.
Qed.

Lemma Qc_forward_fused_new_bias (w : list (list Qc)) (y beta : list Qc) :
  length y = length beta →
  zip_with Qcplus (map (λ row, dot row y) w)
    (zip_with Qcplus (replicate (length w) 0) (map (λ row, dot row beta) w))
  = map (λ row, dot row (zip_with Qcplus y beta)) w.
Proof.
  intros Hl. induction w as [|row w IH]; simpl in *; [done|].
  rewrite IH. f_equal. rewrite Qc_dot_add_r by done. qc_field.
Qed.

(** X9.  [fuse_ln_fcs] folds the affine part of a normalization into the
    following layers: each layer afterwards computes, on a normalized
    input, what it computed before on [weight * x + bias] of the
    normalization.  The weight keeps its dtype, and when the
    normalization has a bias every layer ends with a bias of the weight's
    dtype, created if the layer had none. *)
Theorem fuse_ln_fcs_preserves_function (ln : Norm Qc) (fcs : list (Linear Qc))
    (n : nat) :
  scalable (NormOp ln) fcs n →
  ∃ fcs',
    fuse_ln_fcs ln fcs = Ok fcs' ∧
    Forall2 (λ fc fc',
               dtype (weight fc') = dtype (weight fc) ∧
               (is_Some (ln_bias ln) →
                ∃ b', bias_tensor (bias fc') = Some b' ∧
                      dtype b' = dtype (weight fc)) ∧
               ∀ x, length x = n →
                    linear_forward fc' x = linear_forward fc (norm_affine ln x))
            fcs fcs'.
Proof.
  intros (Hg & Hlb & Hfcs).
  assert (Forall (λ fc, ∃ fc',
            fuse_ln_fc ln fc = Ok fc' ∧
            dtype (weight fc') = dtype (weight fc) ∧
            (is_Some (ln_bias ln) →
             ∃ b', bias_tensor (bias fc') = Some b' ∧
                   dtype b' = dtype (weight fc)) ∧
            ∀ x, length x = n →
                 linear_forward fc' x = linear_forward fc (norm_affine ln x))
          fcs) as Hall.
  { eapply Forall_impl; [exact Hfcs|]. simpl.
    intros fc ((Hw & Hr & Hb) & Hin).
    unfold fuse_ln_fc, mul_rows, matvec, add_bcast, norm_affine, linear_forward.
    destruct ln as [[gdt g] [[bdt lb]|]], fc as [i o [dt w] [|[bt b]|[bt b]]];
      simpl in *; subst i.
    all: try specialize (Hlb _ eq_refl); simpl in *.
    all: rewrite ?Hg, ?Hlb, ?Nat.eqb_refl; simpl.
    all: rewrite ?length_replicate, ?length_map, ?Hw, ?Hb, ?Nat.eqb_refl; simpl.
    all: eexists; split; [reflexivity|]; simpl.
    all: split; [done|]; split;
      [first [by intros _; eexists | by intros [? [=]]]|].
    all: intros x Hx; rewrite Qc_forward_fused_rows.
    all: try done.
    - rewrite <- Hw. apply Qc_forward_fused_new_bias.
      rewrite length_zip_with. lia.
    - apply Qc_forward_fused_bias; [rewrite length_zip_with|]; lia.
    - apply Qc_forward_fused_bias; [rewrite length_zip_with|]; lia. }
  clear Hfcs. induction Hall as [|fc fcs (fc' & Hrun & Hprops) _ (fcs' & Hrest & HF)].
  - exists []. by split.
  - exists (fc' :: fcs'). unfold fuse_ln_fcs in *. simpl.
    rewrite Hrun. simpl. rewrite Hrest. simpl. split; [done|]. by constructor.
Qed.

Lemma fuse_ln_fcs_preserves_function_witness :
  ∃ fcs',
    fuse_ln_fcs ln_12 [fc_1234] = Ok fcs' ∧
    Forall2 (λ fc fc',
               dtype (weight fc') = dtype (weight fc) ∧
               (is_Some (ln_bias ln_12) →
                ∃ b', bias_tensor (bias fc') = Some b' ∧
                      dtype b' = dtype (weight fc)) ∧
               ∀ x, length x = 2%nat →
                    linear_forward fc' x = linear_forward fc (norm_affine ln_12 x))
            [fc_1234] fcs'.
Proof.
  apply (fuse_ln_fcs_preserves_function ln_12 [fc_1234] 2).
  split; [reflexivity|]. split.
  - intros b Hb. injection Hb as <-. reflexivity.
  - repeat constructor.
Defined.

Close Scope Qc_scope.

(** ** Sampling the tokens of a captured input *)

Lemma every_nth_lookup {T} (stride skip k : nat) (l : list T) :
  stride ≠ 0 →
  every_nth stride skip l !! k = l !! (skip + k * stride).
Proof.
  intros Hs. revert skip k. induction l as [|a l IH]; intros skip k.
  - by rewrite !lookup_nil.
  - destruct skip as [|s]; simpl.
    + destruct k as [|k]; simpl; [done|]. rewrite IH.
      destruct stride as [|stride]; [done|]. simpl.
      f_equal. lia.
    + by rewrite IH.
Qed.

(** X10.  The token subsampling [x[:, 0 :: T // n_sample_token]] of
    [auto_clip_layer]: with fewer than [n_sample_token] tokens the slice
    step is zero and the slice raises ValueError; otherwise it keeps the
    tokens at the multiples of [T // n_sample_token], which are at least
    [n_sample_token] and fewer than twice as many. *)
Theorem subsample_tokens {T} (n : nat) (x : list T) :
  n ≠ 0 →
  (length x < n → subsample n x = Raise ValueError) ∧
  (n ≤ length x →
   ∃ y, subsample n x = Ok y ∧
        (∀ k, y !! k = x !! (k * (length x / n))) ∧
        n ≤ length y < 2 * n).
Proof.
  intros Hn. unfold subsample.
  assert ((n =? 0) = false) as -> by (by apply Nat.eqb_neq).
  split.
  - intros Hlt. rewrite Nat.div_small by done. done.
  - intros Hle.
    assert (length x / n ≠ 0) as Hs.
    { intros Hz. apply Nat.div_small_iff in Hz; lia. }
    assert ((length x / n =? 0) = false) as -> by (by apply Nat.eqb_neq).
    eexists; split; [reflexivity|].
    assert (∀ k, every_nth (length x / n) 0 x !! k = x !! (k * (length x / n)))
      as Hlook by (intros k; by rewrite every_nth_lookup).
    split; [done|].
    pose proof (Nat.div_mod_eq (length x) n) as Hdm.
    pose proof (Nat.mod_upper_bound (length x) n Hn) as Hr.
    set (q := length x / n) in *. set (r := length x mod n) in *.
    split.
    + destruct (decide (n ≤ length (every_nth q 0 x))) as [|Hlt]; [done|].
      assert (every_nth q 0 x !! (n - 1) = None) as Hnone
        by (apply lookup_ge_None; lia).
      rewrite Hlook in Hnone. apply lookup_ge_None in Hnone. nia.
    + destruct (decide (length (every_nth q 0 x) < 2 * n)) as [|Hge]; [done|].
      assert (is_Some (every_nth q 0 x !! (2 * n - 1))) as Hsome
        by (apply lookup_lt_is_Some; lia).
      rewrite Hlook in Hsome. apply lookup_lt_is_Some in Hsome. nia.
Qed.

Lemma subsample_tokens_witness :
  (length [10; 11; 12; 13; 14] < 2 → subsample 2 [10; 11; 12; 13; 14] = Raise ValueError) ∧
  (2 ≤ length [10; 11; 12; 13; 14] →
   ∃ y, subsample 2 [10; 11; 12; 13; 14] = Ok y ∧
        (∀ k, y !! k = [10; 11; 12; 13; 14] !! (k * (length [10; 11; 12; 13; 14] / 2))) ∧
        2 ≤ length y < 2 * 2).
Proof. apply (subsample_tokens 2 [10; 11; 12; 13; 14]). lia. Defined.

(** ** What [set_quant_config] leaves behind *)

Lemma spec_selects_lt (nb : nat) (s : string) (k : nat) (n : string) :
  spec_selects nb s k n = true → k < nb.
Proof.
  unfold spec_selects. destruct (split "#" s) as [|name [|idx [|? ?]]]; try done.
  - intros [_ Hk]%andb_true_iff. by apply Nat.ltb_lt.
  - intros [_ Hex]%andb_true_iff. apply existsb_exists in Hex as (p & _ & Hp).
    destruct (py_int p) as [z|]; [|done].
    destruct (py_index nb z) as [pos|] eqn:E; [|done].
    apply py_index_lt in E. apply Nat.eqb_eq in Hp. lia.
Qed.

Lemma spec_override_Some (nb i0 : nat) (settings : list (list string))
    (k : nat) (n : string) (acc : option nat) (i : nat) :
  spec_override nb i0 settings k n acc = Some i →
  acc = Some i ∨ (i0 ≤ i < i0 + length settings ∧ k < nb).
Proof.
  revert i0 acc. induction settings as [|sel settings IH]; intros i0 acc; simpl.
  - by left.
  - intros [Hacc|[Hi Hk]]%IH.
    + destruct (existsb _ sel) eqn:E.
      * injection Hacc as <-. right. split; [lia|].
        apply existsb_exists in E as (s & _ & Hs). by apply spec_selects_lt in Hs.
      * by left.
    + right. split; [lia|done].
Qed.

Lemma quantizer_of_setting_fields (st : MixBitsSetting) (q : QuantizerMixBits) :
  quantizer_of_setting st = Ok q →
  layer_name q = ms_layer_name st ∧ do_quant q = ms_do_quant st ∧
  (if do_quant q
   then ∃ wq, ms_weight st = Some wq ∧ qm_wquantizer q = Some wq ∧
              qm_aquantizer q = ms_act st ∧
              w_only_mix_bits q = Some (negb (bool_decide (is_Some (ms_act st))))
   else qm_wquantizer q = None ∧ qm_aquantizer q = None ∧ w_only_mix_bits q = None).
Proof.
  unfold quantizer_of_setting. destruct (ms_do_quant st) eqn:E.
  - destruct (ms_weight st) as [wq|]; [|done]. intros [= <-]. simpl.
    repeat split. by exists wq.
  - intros [= <-]. simpl. done.
Qed.

(** X12.  After [set_quant_config] the mixed-bit map has one dictionary
    per block, and every override index it stores addresses an existing
    entry of [quantizer_mix_bits], the one built from the setting with
    that position: it carries the setting's selectors and [do_quant]
    flag, the setting's weight quantizer when [do_quant] holds and no
    quantizer otherwise. *)
Theorem set_quant_config_overrides_valid (mdl : Model) (nb : nat) (shift : bool)
    (quant_config : QuantConfig) (self : Self) :
  set_quant_config mdl nb shift quant_config = Ok self →
  length (mix_bits_map self) = nb ∧
  length (quantizer_mix_bits self) = length (default [] (qc_mix_bits quant_config)) ∧
  ∀ k n i, mix_bits_lookup (mix_bits_map self) k n = Some i →
    k < nb ∧
    ∃ q st, quantizer_mix_bits self !! i = Some q ∧
            default [] (qc_mix_bits quant_config) !! i = Some st ∧
            layer_name q = ms_layer_name st ∧ do_quant q = ms_do_quant st ∧
            (if do_quant q
             then ∃ wq, ms_weight st = Some wq ∧ qm_wquantizer q = Some wq ∧
                        qm_aquantizer q = ms_act st ∧
                        w_only_mix_bits q
                        = Some (negb (bool_decide (is_Some (ms_act st))))
             else qm_wquantizer q = None ∧ qm_aquantizer q = None ∧
                  w_only_mix_bits q = None).
Proof.
  intros Hrun. unfold set_quant_config in Hrun.
  apply bind_ok in Hrun as ([qmb m1] & Halloc & Hrun).
  apply bind_ok in Hrun as (sp & _ & Hrun).
  apply bind_ok in Hrun as (cp & _ & Hrun).
  apply bind_ok in Hrun as (u1 & _ & Hrun).
  apply bind_ok in Hrun as (u2 & _ & Hrun).
  apply bind_ok in Hrun as (hd & _ & Hrun).
  injection Hrun as <-. simpl.
  destruct (qc_mix_bits quant_config) as [settings|]; simpl.
  - unfold alloc_bits in Halloc.
    apply bind_ok in Halloc as (new & Hnew & Halloc).
    apply bind_ok in Halloc as (m & Hloop & Halloc). injection Halloc as <- <-.
    simpl in Hloop. apply map_result_Forall2 in Hnew.
    pose proof (alloc_loop_ok _ _ _ _ _ Hloop) as [Hlen _].
    rewrite length_replicate in Hlen.
    split; [done|]. split; [symmetry; by eapply Forall2_length|].
    intros k n i Hlook.
    rewrite (alloc_loop_lookup nb 0 new _ _ k n (length_replicate _ _) Hloop)
      in Hlook.
    apply spec_override_Some in Hlook as [Hacc|[Hi Hk]].
    { unfold mix_bits_lookup in Hacc.
      destruct (replicate nb (∅ : gmap string nat) !! k) as [g|] eqn:E; [|done].
      apply lookup_replicate in E as [-> _]. done. }
    split; [done|]. rewrite length_map in Hi.
    destruct (lookup_lt_is_Some_2 new i) as [q Hq]; [lia|].
    destruct (Forall2_lookup_r _ _ _ _ _ Hnew Hq) as (st & Hst & Hqs).
    exists q, st. split; [done|]. split; [done|].
    by apply quantizer_of_setting_fields.
  - injection Halloc as <- <-. rewrite length_replicate.
    split; [done|]. split; [done|]. intros k n i Hlook.
    unfold mix_bits_lookup in Hlook.
    destruct (replicate nb (∅ : gmap string nat) !! k) as [g|] eqn:E; [|done].
    apply lookup_replicate in E as [-> _]. done.
Qed.

Lemma set_quant_config_overrides_valid_witness :
  length (mix_bits_map self_fc1) = 3 ∧
  length (quantizer_mix_bits self_fc1)
  = length (default [] (qc_mix_bits config_fc1)) ∧
  ∀ k n i, mix_bits_lookup (mix_bits_map self_fc1) k n = Some i →
    k < 3 ∧
    ∃ q st, quantizer_mix_bits self_fc1 !! i = Some q ∧
            default [] (qc_mix_bits config_fc1) !! i = Some st ∧
            layer_name q = ms_layer_name st ∧ do_quant q = ms_do_quant st ∧
            (if do_quant q
             then ∃ wq, ms_weight st = Some wq ∧ qm_wquantizer q = Some wq ∧
                        qm_aquantizer q = ms_act st ∧
                        w_only_mix_bits q
                        = Some (negb (bool_decide (is_Some (ms_act st))))
             else qm_wquantizer q = None ∧ qm_aquantizer q = None ∧
                  w_only_mix_bits q = None).
Proof.
  apply (set_quant_config_overrides_valid (model_with 1) 3 false config_fc1 self_fc1).
  vm_compute. reflexivity.
Defined.

(** X13.  After [set_quant_config]: [w_only] holds exactly when there is
    no activation quantizer; [scale_path] and [clip_path] are set exactly
    when scales and clips are to be saved (a missing path raises); with
    online rotation the model type is Opt or Llama, the number of heads is
    not zero and [head_dim] is [hidden_size // num_heads]; and without it
    none of [num_heads], [head_dim], [intermediate_size] and [fp32_had] is
    set. *)
Theorem set_quant_config_consistent (mdl : Model) (nb : nat) (shift : bool)
    (quant_config : QuantConfig) (self : Self) :
  set_quant_config mdl nb shift quant_config = Ok self →
  (w_only self = true ↔ aquantizer self = None) ∧
  (save_scale self = true ↔ is_Some (scale_path self)) ∧
  (save_clip self = true ↔ is_Some (clip_path self)) ∧
  (online_rotate self = true →
   (model_type mdl = "Opt"%string ∨ model_type mdl = "Llama"%string) ∧
   ∃ h, num_heads self = Some h ∧ h ≠ 0 ∧
        head_dim self = Some (hidden_size self / h)) ∧
  (online_rotate self = false →
   num_heads self = None ∧ head_dim self = None ∧
   intermediate_size self = None ∧ fp32_had self = None).
Proof.
  intros Hrun. unfold set_quant_config in Hrun.
  apply bind_ok in Hrun as ([qmb m1] & _ & Hrun).
  apply bind_ok in Hrun as (sp & Hsp & Hrun).
  apply bind_ok in Hrun as (cp & Hcp & Hrun).
  apply bind_ok in Hrun as (u1 & _ & Hrun).
  apply bind_ok in Hrun as (u2 & Htype & Hrun).
  apply bind_ok in Hrun as (hd & Hhd & Hrun).
  injection Hrun as <-. cbn [wquantizer aquantizer tp w_only save_scale save_clip
    scale_path clip_path online_rotate num_heads head_dim hidden_size
    intermediate_size fp32_had].
  split; [|split; [|split; [|split]]].
  - destruct (qc_act quant_config); simpl; split; intros Hx; done.
  - destruct (default false (sp_save_scale _)).
    + destruct (sp_scale_path _); [|done]. injection Hsp as <-.
      split; [by eexists|done].
    + injection Hsp as <-. split; [done|]. by intros [? ?].
  - destruct (default false (sp_save_clip _)).
    + destruct (sp_clip_path _); [|done]. injection Hcp as <-.
      split; [by eexists|done].
    + injection Hcp as <-. split; [done|]. by intros [? ?].
  - intros Hr. rewrite Hr in Htype, Hhd |- *. split.
    + apply assert_ok in Htype.
      apply orb_true_iff in Htype as [Ht|Ht]; apply String.eqb_eq in Ht; auto.
    + destruct (model_num_attention_heads mdl =? 0) eqn:E; [done|].
      injection Hhd as <-. apply Nat.eqb_neq in E. by eexists.
  - intros Hr. rewrite Hr in Hhd |- *. by injection Hhd as <-.
Qed.

(** On [config_all] everything is switched on; on the configuration of
    scenario 4 nothing is. *)
Lemma set_quant_config_consistent_witness :
  ((w_only self_all = true ↔ aquantizer self_all = None) ∧
   (save_scale self_all = true ↔ is_Some (scale_path self_all)) ∧
   (save_clip self_all = true ↔ is_Some (clip_path self_all)) ∧
   (online_rotate self_all = true →
    (model_type (model_with 2) = "Opt"%string ∨
     model_type (model_with 2) = "Llama"%string) ∧
    ∃ h, num_heads self_all = Some h ∧ h ≠ 0 ∧
         head_dim self_all = Some (hidden_size self_all / h)) ∧
   (online_rotate self_all = false →
    num_heads self_all = None ∧ head_dim self_all = None ∧
    intermediate_size self_all = None ∧ fp32_had self_all = None)) ∧
  ((w_only self_fc1 = true ↔ aquantizer self_fc1 = None) ∧
   (save_scale self_fc1 = true ↔ is_Some (scale_path self_fc1)) ∧
   (save_clip self_fc1 = true ↔ is_Some (clip_path self_fc1)) ∧
   (online_rotate self_fc1 = true →
    (model_type (model_with 1) = "Opt"%string ∨
     model_type (model_with 1) = "Llama"%string) ∧
    ∃ h, num_heads self_fc1 = Some h ∧ h ≠ 0 ∧
         head_dim self_fc1 = Some (hidden_size self_fc1 / h)) ∧
   (online_rotate self_fc1 = false →
    num_heads self_fc1 = None ∧ head_dim self_fc1 = None ∧
    intermediate_size self_fc1 = None ∧ fp32_had self_fc1 = None)).
Proof.
  split.
  - apply (set_quant_config_consistent (model_with 2) 3 false config_all self_all).
    vm_compute. reflexivity.
  - apply (set_quant_config_consistent (model_with 1) 3 false config_fc1 self_fc1).
    vm_compute. reflexivity.
Defined.

(** What the checks refuse: scales to be saved without a path, online
    rotation on another model type, and on a model without heads. *)
Example save_scale_without_path_raises :
  set_quant_config (model_with 2) 3 false
    (mkQuantConfig None None None quantizer0 None
       (Some (mkSpecial None (Some true) None None None None None None None None)))
  = Raise KeyError.
Proof. vm_compute. reflexivity. Qed.

Example online_rotate_other_model_raises :
  set_quant_config (mkModel "Bloom" 4 2 16 2 (Some 2) false) 3 false config_all
  = Raise AssertionError.
Proof. vm_compute. reflexivity. Qed.

Example online_rotate_without_heads_raises :
  set_quant_config (model_with 0) 3 false config_all = Raise ZeroDivisionError.
Proof. vm_compute. reflexivity. Qed.

(** ** Clipping a weight to the bounds of its groups *)

Lemma clamp_groups_lookup {A} `{Scalar A} (clampf : A → A → A → A) (gs ng : nat)
    (lo_row hi_row row : list A) (j : nat) (x : A) :
  gs ≠ 0 → length row = ng * gs → length lo_row = ng → length hi_row = ng →
  row !! j = Some x →
  ∃ lo hi, lo_row !! (j / gs) = Some lo ∧ hi_row !! (j / gs) = Some hi ∧
    concat (zip_with (λ g (lh : A * A), map (clampf (fst lh) (snd lh)) g)
                     (chunks gs ng row) (zip lo_row hi_row)) !! j
    = Some (clampf lo hi x).
Proof.
  intros Hgs. revert lo_row hi_row row j.
  induction ng as [|ng IH]; intros lo_row hi_row row j Hrow Hlo Hhi Hj.
  - apply lookup_lt_Some in Hj. simpl in Hrow. lia.
  - destruct lo_row as [|lo lo_row]; [done|]. destruct hi_row as [|hi hi_row]; [done|].
    simpl in Hlo, Hhi. cbn [chunks zip zip_with concat fst snd].
    destruct (decide (j < gs)) as [Hlt|Hge].
    + exists lo, hi. rewrite Nat.div_small by done. split; [done|]. split; [done|].
      rewrite lookup_app_l by (rewrite length_map, length_take; simpl in Hrow; lia).
      rewrite list_lookup_fmap, lookup_take. case_decide; [|lia]. by rewrite Hj.
    + destruct (IH lo_row hi_row (drop gs row) (j - gs)) as (lo' & hi' & Hl & Hh & Hc).
      * rewrite length_drop. simpl in Hrow. lia.
      * lia.
      * lia.
      * rewrite lookup_drop. rewrite <- Hj. f_equal. lia.
      * assert (j / gs = S ((j - gs) / gs)) as ->.
        { replace j with (1 * gs + (j - gs)) at 1 by lia.
          rewrite Nat.div_add_l by done. lia. }
        exists lo', hi'. split; [done|]. split; [done|].
        rewrite lookup_app_r by (rewrite length_map, length_take; simpl in Hrow; lia).
        rewrite length_map, length_take.
        replace (j - gs `min` length row) with (j - gs); [done|].
        simpl in Hrow. lia.
Qed.

Lemma clamp_groups_length {A} `{Scalar A} (clampf : A → A → A → A) (gs ng : nat)
    (lo_row hi_row row : list A) :
  length row = ng * gs → length lo_row = ng → length hi_row = ng →
  length (concat (zip_with (λ g (lh : A * A), map (clampf (fst lh) (snd lh)) g)
                           (chunks gs ng row) (zip lo_row hi_row)))
  = ng * gs.
Proof.
  intros Hrow Hlo Hhi.
  rewrite (length_concat_uniform gs).
  - rewrite length_zip_with, length_chunks, length_zip. lia.
  - pose proof (chunks_shape gs ng row Hrow) as Hsh.
    remember (chunks gs ng row) as cs eqn:E. clear E.
    revert Hsh. generalize (zip lo_row hi_row). clear.
    induction cs as [|g cs IH]; intros [|lh z] Hsh; simpl; try done.
    inversion Hsh; subst. constructor; [by rewrite length_map|by apply IH].
Qed.

Lemma map_concat_zip_with {T U V} (F : list (list T) → U → list (list V))
    (g : list T → list (list T)) (rows : list (list T)) (z : list U) :
  map (λ blk, concat blk) (zip_with F (map g rows) z)
  = zip_with (λ row b, concat (F (g row) b)) rows z.
Proof.
  revert z. induction rows as [|row rows IH]; intros [|b z]; simpl; try done.
  by rewrite IH.
Qed.

Lemma zip_with_rows_shape {T U V} (f : list T → U → list V) (n : nat)
    (rows : list (list T)) (z : list U) :
  (∀ row b, row ∈ rows → b ∈ z → length (f row b) = n) →
  Forall (λ row, length row = n) (zip_with f rows z).
Proof.
  revert z. induction rows as [|row rows IH]; intros [|b z] Hf; simpl;
    try by constructor.
  constructor.
  - apply Hf; by left.
  - apply IH. intros row' b' Hr Hb. apply Hf; by right.
Qed.

Lemma length_zip_neg_max {A} `{Scalar A} (self : Self) (oc ng : nat)
    (min_val max_val : list (list A)) :
  length max_val = oc → Forall (λ row, length row = ng) max_val →
  (clip_sym self = false →
   length min_val = oc ∧ Forall (λ row, length row = ng) min_val) →
  length (if clip_sym self then map (map s_neg) max_val else min_val) = oc ∧
  Forall (λ row, length row = ng)
         (if clip_sym self then map (map s_neg) max_val else min_val).
Proof.
  intros Hl Hr Hmin. destruct (clip_sym self).
  - rewrite length_map. split; [done|]. apply Forall_map.
    eapply Forall_impl; [exact Hr|]. simpl. intros row Hrow. by rewrite length_map.
  - by apply Hmin.
Qed.

(** What [apply_clip] computes under clip version v1 on a weight of
    [oc] rows of [ng] groups of [gs] entries and bounds of shape
    [(oc, ng)]. *)
Lemma apply_clip_v1_run {A} `{Scalar A}
    get_wquantizer reshape_tensor restore_tensor get_minmax_range s_log
    (self : Self) (block_idx : nat) (prefix : string) (oc ng gs : nat)
    (weight min_val max_val : list (list A)) (layer_name : string) :
  clip_version self = "v1"%string →
  oc ≠ 0 → ng ≠ 0 →
  length weight = oc → Forall (λ row, length row = ng * gs) weight →
  length max_val = oc → Forall (λ row, length row = ng) max_val →
  (clip_sym self = false →
   length min_val = oc ∧ Forall (λ row, length row = ng) min_val) →
  apply_clip get_wquantizer reshape_tensor restore_tensor get_minmax_range s_log
    self block_idx prefix (oc, ng * gs) weight min_val max_val layer_name
  = Ok (ClippedWeight
          (zip_with
             (λ row (b : list A * list A),
                concat (zip_with (λ g (lh : A * A),
                                    map (clamp (fst lh) (snd lh)) g)
                                 (chunks gs ng row) (zip (fst b) (snd b))))
             weight
             (zip (if clip_sym self then map (map s_neg) max_val else min_val)
                  max_val))).
Proof.
  intros Hv Hoc Hng Hw Hrows Hmax Hmaxr Hmin.
  destruct (length_zip_neg_max self oc ng min_val max_val Hmax Hmaxr Hmin)
    as [Hlo Hlor].
  unfold apply_clip. rewrite Hv. simpl.
  unfold reshape_like. rewrite Hmax.
  assert (match max_val with r :: _ => length r | [] => 0 end = ng) as ->.
  { destruct max_val as [|r max_val]; [simpl in Hmax; lia|]. by inversion Hmaxr. }
  rewrite (length_concat_uniform (ng * gs)) by done. rewrite Hw.
  replace (oc * (ng * gs)) with (gs * (oc * ng)) by lia.
  rewrite infer_dim_exact by lia. simpl.
  replace (chunks (ng * gs) oc (concat weight)) with weight
    by (rewrite <- Hw; symmetry; by apply chunks_concat).
  set (lo_tab := if clip_sym self then map (map s_neg) max_val else min_val) in *.
  unfold flat3. rewrite map_concat_zip_with.
  set (rows' := zip_with _ weight (zip lo_tab max_val)).
  assert (length rows' = oc) as Hl'.
  { subst rows'. rewrite length_zip_with, length_zip. lia. }
  assert (Forall (λ row, length row = ng * gs) rows') as Hr'.
  { subst rows'. apply zip_with_rows_shape. intros row [lo hi] Hin Hb. simpl.
    apply elem_of_zip_l in Hb as Hblo. apply elem_of_zip_r in Hb as Hbhi.
    simpl in *. rewrite Forall_forall in Hrows, Hlor, Hmaxr.
    apply clamp_groups_length; auto. }
  rewrite reshape_exact by (rewrite (length_concat_uniform (ng * gs)) by done; lia).
  rewrite <- Hl'. by rewrite chunks_concat.
Qed.

Open Scope Qc_scope.

Lemma Qcltb_ge (x y : Qc) : Qcltb x y = false → y ≤ x.
Proof.
  unfold Qcltb. destruct (x ?= y) eqn:E; intros Hlt; [| done |].
  - apply Qceq_alt in E. subst. apply Qcle_refl.
  - apply Qcgt_alt in E. by apply Qclt_le_weak.
Qed.

Lemma Qc_clamp_bounds (lo hi x : Qc) :
  lo ≤ hi →
  lo ≤ clamp lo hi x ≤ hi ∧ (lo ≤ x ≤ hi → clamp lo hi x = x).
Proof.
  intros Hlh. unfold clamp. cbn [s_isnan s_ltb Qc_scalar].
  destruct (Qcltb x lo) eqn:E1.
  - apply Qcltb_lt in E1.
    destruct (Qcltb hi lo) eqn:E2.
    + apply Qcltb_lt in E2. by apply Qcle_not_lt in Hlh.
    + split; [split; [apply Qcle_refl|done]|].
      intros [Hx _]. by apply Qcle_not_lt in Hx.
  - apply Qcltb_ge in E1.
    destruct (Qcltb hi x) eqn:E2.
    + apply Qcltb_lt in E2. split; [split; [done|apply Qcle_refl]|].
      intros [_ Hx]. by apply Qcle_not_lt in Hx.
    + apply Qcltb_ge in E2. done.
Qed.

(** X14.  [apply_clip] under clip version v1, on a weight of [oc] rows of
    [ng] groups of [gs] entries and bounds of shape [(oc, ng)]: the
    weight keeps its shape and entry [j] of row [c] is clamped to the
    bounds of group [j // gs] of that row, the lower bound being
    [-max_val] under [clip_sym] and [min_val] otherwise.  With a lower
    bound that does not exceed the upper one, the clipped entry lies
    between the two and an entry already between them is unchanged. *)
Theorem apply_clip_v1_clamps
    get_wquantizer reshape_tensor restore_tensor get_minmax_range s_log
    (self : Self) (block_idx : nat) (prefix : string) (oc ng gs : nat)
    (weight min_val max_val : list (list Qc)) (layer_name : string) :
  clip_version self = "v1"%string →
  oc ≠ 0%nat → ng ≠ 0%nat → gs ≠ 0%nat →
  length weight = oc → Forall (λ row, length row = (ng * gs)%nat) weight →
  length max_val = oc → Forall (λ row, length row = ng) max_val →
  (clip_sym self = false →
   length min_val = oc ∧ Forall (λ row, length row = ng) min_val) →
  ∃ w',
    apply_clip get_wquantizer reshape_tensor restore_tensor get_minmax_range s_log
      self block_idx prefix (oc, (ng * gs)%nat) weight min_val max_val layer_name
    = Ok (ClippedWeight w') ∧
    length w' = oc ∧ Forall (λ row, length row = (ng * gs)%nat) w' ∧
    ∀ c j x, at2 weight c j = Some x →
      ∃ lo hi y,
        at2 (if clip_sym self then map (map Qcopp) max_val else min_val)
            c (j / gs) = Some lo ∧
        at2 max_val c (j / gs) = Some hi ∧
        at2 w' c j = Some y ∧ y = clamp lo hi x ∧
        (lo ≤ hi → lo ≤ y ≤ hi ∧ (lo ≤ x ≤ hi → y = x)).
Proof.
  intros Hv Hoc Hng Hgs Hw Hrows Hmax Hmaxr Hmin.
  destruct (length_zip_neg_max self oc ng min_val max_val Hmax Hmaxr Hmin)
    as [Hlo Hlor].
  rewrite (apply_clip_v1_run _ _ _ _ _ self block_idx prefix oc ng gs) by done.
  cbn [s_neg Qc_scalar] in *.
  set (lo_tab := if clip_sym self then map (map Qcopp) max_val else min_val) in *.
  eexists; split; [reflexivity|]. split; [|split].
  - rewrite length_zip_with, length_zip. lia.
  - apply zip_with_rows_shape. intros row [lo hi] Hin Hb. simpl.
    apply elem_of_zip_l in Hb as Hblo. apply elem_of_zip_r in Hb as Hbhi.
    simpl in *. rewrite Forall_forall in Hrows, Hlor, Hmaxr.
    apply clamp_groups_length; auto.
  - intros c j x Hx. unfold at2 in *.
    destruct (weight !! c) as [row|] eqn:Erow; simpl in Hx; [|done].
    destruct (lookup_lt_is_Some_2 lo_tab c) as [lo_row Elo].
    { apply lookup_lt_Some in Erow. lia. }
    destruct (lookup_lt_is_Some_2 max_val c) as [hi_row Ehi].
    { apply lookup_lt_Some in Erow. lia. }
    rewrite lookup_zip_with, Erow. simpl.
    rewrite (proj2 (lookup_zip_with_Some pair lo_tab max_val c (lo_row, hi_row)))
      by (by exists lo_row, hi_row).
    simpl. rewrite Elo, Ehi. simpl.
    destruct (clamp_groups_lookup clamp gs ng lo_row hi_row row j x)
      as (lo & hi & Hl & Hh & Hc); try done.
    + rewrite Forall_forall in Hrows. apply Hrows. by eapply list_elem_of_lookup_2.
    + rewrite Forall_forall in Hlor. apply Hlor. by eapply list_elem_of_lookup_2.
    + rewrite Forall_forall in Hmaxr. apply Hmaxr. by eapply list_elem_of_lookup_2.
    + exists lo, hi, (clamp lo hi x).
      split; [done|]. split; [done|]. split; [done|]. split; [done|].
      apply Qc_clamp_bounds.
Qed.

Lemma apply_clip_v1_clamps_witness :
  ∃ w',
    apply_clip (λ _ _ _ _ q, q) (λ _ w, w) (λ _ _ _, []) (λ _ _, ([], []))
      (λ x, x) (self_with 1 3) 0%nat "model.layers" (1%nat, (2 * 2)%nat)
      [[qz (-5); qz (-1); qz 0; qz 3]] [] [[qz 2; qz 1]] "mlp.fc1"
    = Ok (ClippedWeight w') ∧
    length w' = 1%nat ∧ Forall (λ row, length row = (2 * 2)%nat) w' ∧
    ∀ c j x, at2 [[qz (-5); qz (-1); qz 0; qz 3]] c j = Some x →
      ∃ lo hi y,
        at2 (if clip_sym (self_with 1 3) then map (map Qcopp) [[qz 2; qz 1]] else [])
            c (j / 2) = Some lo ∧
        at2 [[qz 2; qz 1]] c (j / 2) = Some hi ∧
        at2 w' c j = Some y ∧ y = clamp lo hi x ∧
        (lo ≤ hi → lo ≤ y ≤ hi ∧ (lo ≤ x ≤ hi → y = x)).
Proof.
  apply (apply_clip_v1_clamps (λ _ _ _ _ q, q) (λ _ w, w) (λ _ _ _, [])
           (λ _ _, ([], [])) (λ x, x) (self_with 1 3) 0%nat "model.layers"
           1%nat 2%nat 2%nat
           [[qz (-5); qz (-1); qz 0; qz 3]] [] [[qz 2; qz 1]] "mlp.fc1").
  - reflexivity.
  - lia.
  - lia.
  - lia.
  - reflexivity.
  - repeat constructor.
  - reflexivity.
  - repeat constructor.
  - intros Hsym. discriminate Hsym.
Defined.

Close Scope Qc_scope.

(** ** The bounds the clip search can return *)

Lemma at2_map_map {T U} (f : T → U) (t : list (list T)) (c g : nat) :
  at2 (map (map f) t) c g = f <$> at2 t c g.
Proof.
  unfold at2. rewrite list_lookup_fmap.
  destruct (t !! c) as [row|]; simpl; [|done]. by rewrite list_lookup_fmap.
Qed.

Lemma at2_masked_assign_cases {A} `{Scalar A} (dst : list (list A))
    (mask : list (list bool)) (src : list (list A)) (c g : nat) (b : A) :
  at2 (masked_assign dst mask src) c g = Some b →
  ∃ d, at2 dst c g = Some d ∧ (b = d ∨ at2 src c g = Some b).
Proof.
  rewrite at2_masked_assign.
  destruct (at2 dst c g) as [d|]; simpl; [|done].
  destruct (at2 mask c g) as [m|]; simpl; [|done].
  destruct (at2 src c g) as [s|]; simpl; [|done].
  intros [= <-]. exists d. split; [done|]. destruct m; [by right|by left].
Qed.

Section ClipCandidates.
Context {A : Type} `{Scalar A}.
Variable get_aquantizer :
  nat → string → list (gmap string nat) → list QuantizerMixBits →
  option Quantizer → Quantizer.
Variable check_w_only :
  nat → string → list (gmap string nat) → list QuantizerMixBits → bool → bool.
Variable reshape_tensor : Quantizer → list (list A) → list (list A).
Variable fake_quant_weight_dynamic :
  Quantizer → list (list (list A)) → list (list (list A)).
Variable range : Type.
Variable qparams : Type.
Variable get_learnable_range :
  Quantizer → list (list (list A)) → list (list A) → list (list A) → range.
Variable get_qparams : Quantizer → range → qparams.
Variable fake_quant_weight_static :
  Quantizer → list (list (list A)) → qparams → list (list (list A)).
Variable fake_quant_act_dynamic :
  Quantizer → list (list (list A)) → list (list (list A)).
Variable s_log : A → A.

Variable self : Self.
Variable block_idx : nat.
Variable layer_name : string.
Variable wq : Quantizer.
Variable gs n_grid n_sample_token ng : nat.
Variable eps : A.
Variable input : list (list (list A)).
Variable w : list (list (list A)).

#[local] Abbreviation org_max := (fst (org_bounds self w)).
#[local] Abbreviation org_min := (snd (org_bounds self w)).
#[local] Abbreviation factor :=
  (shrink_factor
     (String.eqb (clip_version self) "v2"
      && negb (check_w_only block_idx layer_name (mix_bits_map self)
                 (quantizer_mix_bits self) (w_only self)))
     eps n_grid).
#[local] Abbreviation step :=
  (shrink_level get_aquantizer check_w_only reshape_tensor fake_quant_weight_dynamic
     range qparams get_learnable_range get_qparams fake_quant_weight_static
     fake_quant_act_dynamic s_log self block_idx layer_name wq gs n_grid
     n_sample_token ng eps input w org_max org_min).

(** The candidates of a list of levels for the entry of channel [c] and
    group [g]: the original bound, or the bound of one of the levels. *)
#[local] Abbreviation candidate_max levels c g b :=
  (∃ m, at2 org_max c g = Some m ∧
        (b = m ∨ ∃ i, i ∈ levels ∧ b = s_mul m (factor i))).
#[local] Abbreviation candidate_min levels c g b :=
  (∃ mn, at2 org_min c g = Some mn ∧
         (b = mn ∨
          ∃ i, i ∈ levels ∧
               if clip_sym self
               then ∃ m, at2 org_max c g = Some m ∧ b = s_neg (s_mul m (factor i))
               else b = s_mul mn (factor i))).

Lemma shrink_level_assigns (st : ClipState) (i_s : nat) (st' : ClipState) :
  step st i_s = Ok st' →
  ∃ err_mean,
    st' = clip_update st err_mean
            (fst (level_bounds self (factor i_s) org_max org_min))
            (snd (level_bounds self (factor i_s) org_max org_min)).
Proof.
  unfold shrink_level, level_bounds.
  intros Hrun. apply bind_ok in Hrun as (acc & _ & Hrun).
  destruct acc as [sum|]; [|done]. injection Hrun as <-. eauto.
Qed.

Lemma for_each_candidates (levels ls : list nat) (st st' : ClipState) :
  (∀ i, i ∈ ls → i ∈ levels) →
  (∀ c g b, at2 (best_max_val st) c g = Some b → candidate_max levels c g b) →
  (∀ c g b, at2 (best_min_val st) c g = Some b → candidate_min levels c g b) →
  for_each step st ls = Ok st' →
  (∀ c g b, at2 (best_max_val st') c g = Some b → candidate_max levels c g b) ∧
  (∀ c g b, at2 (best_min_val st') c g = Some b → candidate_min levels c g b).
Proof.
  revert st. induction ls as [|i ls IH]; intros st Hsub Imax Imin Hrun.
  - by injection Hrun as <-.
  - simpl in Hrun. apply bind_ok in Hrun as (st1 & Hstep & Hrun).
    apply shrink_level_assigns in Hstep as (err & ->).
    apply (IH _ (λ j Hj, Hsub j (list_elem_of_further _ _ _ Hj))) in Hrun; [done| |].
    + intros c g b Hb. unfold clip_update in Hb. cbn [best_max_val] in Hb.
      apply at2_masked_assign_cases in Hb as (d & Ed & [->|Es]); [by apply Imax|].
      destruct (Imax c g d Ed) as (m0 & Hm0 & Hd).
      unfold level_bounds in Es. cbn [fst] in Es.
      rewrite at2_map_map, Hm0 in Es. injection Es as <-.
      exists m0. split; [done|]. right. exists i. split; [|done].
      apply Hsub. by left.
    + intros c g b Hb. unfold clip_update in Hb. cbn [best_min_val] in Hb.
      apply at2_masked_assign_cases in Hb as (d & Ed & [->|Es]); [by apply Imin|].
      destruct (Imin c g d Ed) as (mn & Hmn & Hd).
      exists mn. split; [done|]. right. exists i. split; [apply Hsub; by left|].
      unfold level_bounds in Es. cbn [snd] in Es.
      destruct (clip_sym self).
      * rewrite !at2_map_map in Es.
        destruct (at2 org_max c g) as [m0|]; simpl in Es; [|done].
        injection Es as <-. by exists m0.
      * rewrite at2_map_map, Hmn in Es. by injection Es as <-.
Qed.

(** X15.  The bounds a batch of the clip search ends with are candidates
    the search has looked at: for every channel and group the best
    maximum is the original maximum of the group or that maximum times
    [1 - i_s / n_grid] for one of the levels, and the best minimum is the
    original minimum or the bound of one of the levels (the negated
    maximum bound under [clip_sym]). *)
Theorem clip_batch_bounds_are_candidates (levels : list nat) (st' : ClipState) :
  clip_batch get_aquantizer check_w_only reshape_tensor fake_quant_weight_dynamic
    range qparams get_learnable_range get_qparams fake_quant_weight_static
    fake_quant_act_dynamic s_log self block_idx layer_name wq gs n_grid
    n_sample_token ng eps input levels w = Ok st' →
  (∀ c g b, at2 (best_max_val st') c g = Some b → candidate_max levels c g b) ∧
  (∀ c g b, at2 (best_min_val st') c g = Some b → candidate_min levels c g b).
Proof.
  unfold clip_batch. intros Hrun.
  apply (for_each_candidates levels levels (clip_init org_max org_min) st').
  - done.
  - intros c g b Hb. exists b. split; [done|]. by left.
  - intros c g b Hb. exists b. split; [done|]. by left.
  - by destruct (org_bounds self w).
Qed.

End ClipCandidates.

Lemma clip_batch_bounds_are_candidates_witness :
  ∃ st',
    clip_batch default_aquantizer default_w_only exact_quant exact_quant
      unit unit (λ _ _ _ _, tt) (λ _ _, tt) (λ _ t _, t) exact_quant (λ x, x)
      (self_with 1 3) 0 "mlp.fc1" quantizer0 4 20 4 1 (qz 0) [identity4]
      [0; 1] row3 = Ok st' ∧
    ∀ c g b, at2 (best_max_val st') c g = Some b →
      ∃ m, at2 (fst (org_bounds (self_with 1 3) row3)) c g = Some m ∧
           (b = m ∨
            ∃ i, i ∈ [0; 1] ∧
                 b = s_mul m
                       (shrink_factor
                          (String.eqb (clip_version (self_with 1 3)) "v2"
                           && negb (default_w_only 0 "mlp.fc1"
                                      (mix_bits_map (self_with 1 3))
                                      (quantizer_mix_bits (self_with 1 3))
                                      (w_only (self_with 1 3))))
                          (qz 0) 20 i)).
Proof.
  exists (mkClipState [[qz 5]] [[qz (-5)]] [[qz 0]]).
  assert (clip_batch default_aquantizer default_w_only exact_quant exact_quant
      unit unit (λ _ _ _ _, tt) (λ _ _, tt) (λ _ t _, t) exact_quant (λ x, x)
      (self_with 1 3) 0 "mlp.fc1" quantizer0 4 20 4 1 (qz 0) [identity4]
      [0; 1] row3
      = Ok (mkClipState [[qz 5]] [[qz (-5)]] [[qz 0]])) as Hrun.
  { vm_compute. repeat f_equal; apply Qc_is_canon; reflexivity. }
  split; [exact Hrun|].
  exact (proj1 (clip_batch_bounds_are_candidates default_aquantizer default_w_only
                  exact_quant exact_quant unit unit (λ _ _ _ _, tt) (λ _ _, tt)
                  (λ _ t _, t) exact_quant (λ x, x) (self_with 1 3) 0 "mlp.fc1"
                  quantizer0 4 20 4 1 (qz 0) [identity4] row3 [0; 1] _ Hrun)).
Defined.

(** ** A clip search with nothing to search *)

Lemma map_result_raise_first {T U} (f : T → result U) (x : T) (xs : list T) (e : exn) :
  f x = Raise e → map_result f (x :: xs) = Raise e.
Proof. intros Hx. simpl. by rewrite Hx. Qed.

Lemma batches_nonempty {T} (bs oc : nat) (w_all : list T) :
  oc ≠ 0 → oc mod bs = 0 → bs ≠ 0 →
  ∃ b rest, batches bs (oc / bs) w_all = b :: rest.
Proof.
  intros Hoc Hmod Hbs. unfold batches.
  destruct (oc / bs) as [|n] eqn:E.
  - apply Nat.div_small_iff in E; [|done]. rewrite Nat.mod_small in Hmod by done. lia.
  - simpl. eauto.
Qed.

(** X16.  [auto_clip_layer] on a weight whose channels pass the batch
    assertion fails when there is nothing to search: when
    [int(max_shrink * n_grid)] is 0 (or negative) no shrink level runs and
    the final [del org_out] raises UnboundLocalError; with at least one
    level but no captured input, [err_mean /= len(input)] raises
    ZeroDivisionError; and when [int] itself raises, on a product that is
    a NaN or infinite, that exception is what the call raises. *)
Theorem auto_clip_layer_nothing_to_search {A} `{Scalar A}
    get_wquantizer get_aquantizer check_w_only reshape_tensor
    fake_quant_weight_dynamic range qparams get_learnable_range get_qparams
    fake_quant_weight_static fake_quant_act_dynamic s_log
    (self : Self) (block_idx : nat) (layer_name : string)
    (w : list (list A)) (input : list (list (list A)))
    (n_grid : nat) (max_shrink : float) (n_sample_token : nat) (eps : A)
    (ng : nat) (w_all : list (list (list A))) :
  let wq := get_wquantizer block_idx layer_name (mix_bits_map self)
              (quantizer_mix_bits self) (wquantizer self) in
  let gs := if String.eqb (granularity wq) "per_group" then group_size wq
            else match w with row :: _ => length row | [] => 0 end in
  reshape_groups_or reshape_tensor self gs w = Ok (ng, w_all) →
  length w_all ≠ 0 → length w_all mod 64 = 0 →
  (n_levels max_shrink n_grid = Ok 0 →
   auto_clip_layer get_wquantizer get_aquantizer check_w_only reshape_tensor
     fake_quant_weight_dynamic range qparams get_learnable_range get_qparams
     fake_quant_weight_static fake_quant_act_dynamic s_log
     self block_idx layer_name w input n_grid max_shrink n_sample_token eps
   = Raise UnboundLocalError) ∧
  (∀ k, n_levels max_shrink n_grid = Ok (S k) →
   auto_clip_layer get_wquantizer get_aquantizer check_w_only reshape_tensor
     fake_quant_weight_dynamic range qparams get_learnable_range get_qparams
     fake_quant_weight_static fake_quant_act_dynamic s_log
     self block_idx layer_name w [] n_grid max_shrink n_sample_token eps
   = Raise ZeroDivisionError) ∧
  (∀ e, n_levels max_shrink n_grid = Raise e →
   auto_clip_layer get_wquantizer get_aquantizer check_w_only reshape_tensor
     fake_quant_weight_dynamic range qparams get_learnable_range get_qparams
     fake_quant_weight_static fake_quant_act_dynamic s_log
     self block_idx layer_name w input n_grid max_shrink n_sample_token eps
   = Raise e).
Proof.
  intros wq gs Hreshape Hoc H64.
  assert (length w_all mod oc_batch_size (length w_all) = 0
          ∧ oc_batch_size (length w_all) ≠ 0) as [Hmod Hbs].
  { destruct (oc_batch_size_cases (length w_all)) as [[Hm ->]|[Hm ->]]; by split. }
  destruct (batches_nonempty (oc_batch_size (length w_all)) (length w_all) w_all)
    as (b & rest & Hb); try done.
  split; [|split]; intros; unfold auto_clip_layer; fold wq gs; rewrite Hreshape;
    simpl; rewrite Hmod; simpl; rewrite Hb.
  - rewrite (map_result_ok _ (λ wb, clip_init (fst (org_bounds self wb))
                                      (snd (org_bounds self wb)))).
    + match goal with Hlev : n_levels _ _ = _ |- _ => by rewrite Hlev end.
    + apply Forall_forall. intros wb _. unfold clip_batch_run.
      match goal with Hlev : n_levels _ _ = _ |- _ => rewrite Hlev end.
      simpl. unfold clip_batch, org_bounds. reflexivity.
  - rewrite (map_result_raise_first _ _ _ ZeroDivisionError); [done|].
    unfold clip_batch_run.
    match goal with Hlev : n_levels _ _ = _ |- _ => rewrite Hlev end.
    simpl. unfold clip_batch. destruct (org_bounds self b) as [mx mn]. simpl.
    unfold shrink_level, level_bounds. done.
  - match goal with
    | Hlev : n_levels _ _ = Raise ?e |- _ =>
        rewrite (map_result_raise_first _ _ _ e); [done|];
        unfold clip_batch_run; by rewrite Hlev
    end.
Qed.

(** Sixty-four channels: [int(0.5 * 1)] is 0 and nothing is searched;
    [int(0x1.5555555555555p-2 * 3)] is 1, the product of the double next
    to one third by 3 being rounded to 1, and the level finds no input;
    [int] of the NaN [0 * inf] raises ValueError. *)
Lemma auto_clip_layer_nothing_to_search_witness :
  auto_clip_layer (λ _ _ _ _ q, q) default_aquantizer default_w_only exact_quant
    exact_quant unit unit (λ _ _ _ _, tt) (λ _ _, tt) (λ _ t _, t)
    exact_quant (λ x, x)
    (self_with 1 3) 0 "mlp.fc1" (replicate 64 [qz 1]) [identity4] 1 0.5%float 4 (qz 0)
  = Raise UnboundLocalError ∧
  auto_clip_layer (λ _ _ _ _ q, q) default_aquantizer default_w_only exact_quant
    exact_quant unit unit (λ _ _ _ _, tt) (λ _ _, tt) (λ _ t _, t)
    exact_quant (λ x, x)
    (self_with 1 3) 0 "mlp.fc1" (replicate 64 [qz 1]) [] 3
    0x1.5555555555555p-2%float 4 (qz 0)
  = Raise ZeroDivisionError ∧
  auto_clip_layer (λ _ _ _ _ q, q) default_aquantizer default_w_only exact_quant
    exact_quant unit unit (λ _ _ _ _, tt) (λ _ _, tt) (λ _ t _, t)
    exact_quant (λ x, x)
    (self_with 1 3) 0 "mlp.fc1" (replicate 64 [qz 1]) [identity4] 0
    infinity 4 (qz 0)
  = Raise ValueError.
Proof.
  split; [|split].
  - refine (proj1 (auto_clip_layer_nothing_to_search (λ _ _ _ _ q, q)
             default_aquantizer
             default_w_only exact_quant exact_quant unit unit (λ _ _ _ _, tt)
             (λ _ _, tt) (λ _ t _, t) exact_quant (λ x, x)
             (self_with 1 3) 0 "mlp.fc1" (replicate 64 [qz 1]) [identity4]
             1 0.5%float 4 (qz 0) 1 (replicate 64 [[qz 1]]) _ _ _) _).
    + vm_compute. reflexivity.
    + vm_compute. lia.
    + vm_compute. reflexivity.
    + vm_compute. reflexivity.
  - refine (proj1 (proj2 (auto_clip_layer_nothing_to_search (λ _ _ _ _ q, q)
             default_aquantizer
             default_w_only exact_quant exact_quant unit unit (λ _ _ _ _, tt)
             (λ _ _, tt) (λ _ t _, t) exact_quant (λ x, x)
             (self_with 1 3) 0 "mlp.fc1" (replicate 64 [qz 1]) []
             3 0x1.5555555555555p-2%float 4 (qz 0) 1 (replicate 64 [[qz 1]])
             _ _ _)) 0 _).
    + vm_compute. reflexivity.
    + vm_compute. lia.
    + vm_compute. reflexivity.
    + vm_compute. reflexivity.
  - refine (proj2 (proj2 (auto_clip_layer_nothing_to_search (λ _ _ _ _ q, q)
             default_aquantizer
             default_w_only exact_quant exact_quant unit unit (λ _ _ _ _, tt)
             (λ _ _, tt) (λ _ t _, t) exact_quant (λ x, x)
             (self_with 1 3) 0 "mlp.fc1" (replicate 64 [qz 1]) [identity4]
             0 infinity 4 (qz 0) 1 (replicate 64 [[qz 1]])
             _ _ _)) ValueError _).
    + vm_compute. reflexivity.
    + vm_compute. lia.
    + vm_compute. reflexivity.
    + vm_compute. reflexivity.
Defined.

(** ** Taking a shift back *)

Open Scope Qc_scope.

Lemma Qc_sub_neg_back (b t : list Qc) :
  length b = length t →
  zip_with Qcminus (zip_with Qcminus b t) (map Qcopp t) = b.
Proof.
  revert t. induction b as [|x b IH]; intros [|y t] Hl; simpl in *; try done.
  rewrite IH by lia. f_equal. qc_field.
Qed.

Lemma Qc_dot_neg_r (r t : list Qc) : dot r (map Qcopp t) = - dot r t.
Proof.
  revert t. induction r as [|a r IH]; intros [|c t]; simpl; try qc_field.
  rewrite IH. qc_field.
Qed.

Lemma Qc_fold_neg_back (w : list (list Qc)) (b t : list Qc) :
  length b = length w →
  zip_with Qcplus (zip_with Qcplus b (map (λ row, dot row t) w))
                  (map (λ row, dot row (map Qcopp t)) w)
  = b.
Proof.
  revert b. induction w as [|row w IH]; intros [|x b] Hl; simpl in *; try done.
  rewrite IH by lia. f_equal. rewrite Qc_dot_neg_r. qc_field.
Qed.

(** The update of a following layer's bias, and its undoing. *)
Lemma Qc_shift_fc_bias_back (self : Self) (fc : Linear Qc) (t : vector Qc) :
  wf_linear fc →
  length (data t) = in_features fc → dtype (weight fc) = dtype t →
  is_Some (bias_tensor (bias fc)) ∨ use_shift self = false →
  ∃ fc', shift_fc_bias self fc t = Ok fc' ∧
         weight fc' = weight fc ∧
         in_features fc' = in_features fc ∧ out_features fc' = out_features fc ∧
         shift_fc_bias self fc' (negated t) = Ok fc.
Proof.
  intros (Hw & Hr & Hb) Hl Hd Hor.
  assert (∀ b : vector Qc, length (data b) = length (data (weight fc)) →
            vec_op_ s_add b (map (λ row, dot row (data t)) (data (weight fc)))
            = Ok (set_data b (zip_with Qcplus (data b)
                                (map (λ row, dot row (data t)) (data (weight fc))))))
    as Hadd.
  { intros b Hbl. rewrite vec_op_same by (rewrite length_map; lia). done. }
  assert (∀ b : vector Qc, length (data b) = length (data (weight fc)) →
            vec_op_ s_add
              (set_data b (zip_with Qcplus (data b)
                             (map (λ row, dot row (data t)) (data (weight fc)))))
              (map (λ row, dot row (map Qcopp (data t))) (data (weight fc)))
            = Ok b) as Hback.
  { intros b Hbl. rewrite vec_op_same
      by (simpl; rewrite length_zip_with, !length_map; lia).
    simpl. change (zip_with s_add) with (zip_with Qcplus).
    rewrite Qc_fold_neg_back by done. by destruct b. }
  destruct fc as [i o w [|b|b]]; simpl in *.
  - destruct Hor as [[? [=]]|Hu]. exists (mkLinear i o w BiasNone).
    unfold shift_fc_bias. simpl. by rewrite Hu.
  - unfold shift_fc_bias, shift_fold. simpl.
    rewrite matvec_run by done. simpl. rewrite Hadd by lia. simpl.
    eexists; split; [reflexivity|]. simpl. repeat split.
    rewrite matvec_run by (done || (simpl; by rewrite length_map)). simpl.
    cbn [s_neg Qc_scalar]. rewrite Hback by lia. done.
  - unfold shift_fc_bias, shift_fold. simpl.
    rewrite matvec_run by done. simpl. rewrite Hadd by lia. simpl.
    eexists; split; [reflexivity|]. simpl. repeat split.
    rewrite matvec_run by (done || (simpl; by rewrite length_map)). simpl.
    cbn [s_neg Qc_scalar]. rewrite Hback by lia. done.
Qed.

Lemma Qc_vec_sub_back (b : vector Qc) (t : list Qc) :
  length t = length (data b) →
  ∃ b', vec_op_ s_sub b t = Ok b' ∧ length (data b') = length (data b) ∧
        vec_op_ s_sub b' (map Qcopp t) = Ok b.
Proof.
  intros Hl. rewrite vec_op_same by done. eexists; split; [reflexivity|].
  simpl. rewrite length_zip_with. split; [lia|].
  rewrite vec_op_same by (simpl; rewrite length_zip_with, length_map; lia).
  simpl. change (zip_with s_sub) with (zip_with Qcminus).
  rewrite Qc_sub_neg_back by lia. by destruct b.
Qed.

Lemma Qc_shift_ln_fc_back (fc : Linear Qc) (t : vector Qc) :
  wf_linear fc →
  length (data t) = in_features fc → dtype (weight fc) = dtype t →
  is_Some (bias_tensor (bias fc)) →
  ∃ fc',
    match bias_tensor (bias fc) with
    | Some b =>
        f ← shift_fold fc t; b' ← vec_op_ s_add b (data f);
        Ok (set_bias fc (bias_update (bias fc) b'))
    | None => Raise AttributeError
    end = Ok fc' ∧
    match bias_tensor (bias fc') with
    | Some b =>
        f ← shift_fold fc' (negated t); b' ← vec_op_ s_add b (data f);
        Ok (set_bias fc' (bias_update (bias fc') b'))
    | None => Raise AttributeError
    end = Ok fc.
Proof.
  intros Hwf Hl Hd Hb.
  destruct (Qc_shift_fc_bias_back (self_with 1 1) fc t Hwf Hl Hd (or_introl Hb))
    as (fc' & Hrun & Hw' & Hi' & Ho' & Hback).
  exists fc'. unfold shift_fc_bias in Hrun, Hback.
  destruct Hb as [b Hb]. rewrite Hb in Hrun |- *. split; [done|].
  destruct (bias_tensor (bias fc')) as [b'|] eqn:Hb'; [done|].
  apply bind_ok in Hrun as (f & _ & Hrun).
  apply bind_ok in Hrun as (b1 & _ & Hrun). injection Hrun as <-.
  simpl in Hb'. by destruct (bias fc).
Qed.

Lemma Qc_shift_prev_back (fc1 : Linear Qc) (t : list Qc) :
  wf_linear fc1 → length t = out_features fc1 →
  ∃ fc1',
    match bias_tensor (bias fc1) with
    | Some b =>
        b' ← vec_op_ s_sub b t; Ok (set_bias fc1 (bias_update (bias fc1) b'))
    | None => Ok fc1
    end = Ok fc1' ∧
    in_features fc1' = in_features fc1 ∧ out_features fc1' = out_features fc1 ∧
    match bias_tensor (bias fc1') with
    | Some b =>
        b' ← vec_op_ s_sub b (map Qcopp t);
        Ok (set_bias fc1' (bias_update (bias fc1') b'))
    | None => Ok fc1'
    end = Ok fc1.
Proof.
  intros (Hw & Hr & Hb) Hl.
  destruct fc1 as [i o w [|b|b]]; cbn [bias bias_tensor out_features] in *.
  - by exists (mkLinear i o w BiasNone).
  - destruct (Qc_vec_sub_back b t) as (b' & Hs & Hl' & Hs'); [lia|].
    rewrite Hs. eexists; split; [reflexivity|].
    cbn [mbind result_bind in_features out_features bias bias_tensor set_bias
         bias_update].
    rewrite Hs'. done.
  - destruct (Qc_vec_sub_back b t) as (b' & Hs & Hl' & Hs'); [lia|].
    rewrite Hs. eexists; split; [reflexivity|].
    cbn [mbind result_bind in_features out_features bias bias_tensor set_bias
         bias_update].
    rewrite Hs'. done.
Qed.

(** X17.  A shift can be taken back: on two linear layers of equal
    width (the second with a bias, or without [use_shift]) and, in a
    model with biases, on a normalization with a bias feeding linear
    layers with biases, [apply_shift] with [t] followed by [apply_shift]
    with [-t] gives back the modules it started from. *)
Theorem apply_shift_round_trip (self : Self) (shifts : vector Qc)
    (prev : Module Qc) (layers : list (Linear Qc)) :
  shiftable self prev layers shifts →
  ∃ prev' layers',
    apply_shift self (Some shifts) [prev] layers = Ok ([prev'], layers') ∧
    apply_shift self (Some (negated shifts)) [prev'] layers' = Ok ([prev], layers).
Proof.
  intros Hsup. destruct prev as [fc1|ln|]; simpl in Hsup; [| |done].
  - destruct Hsup as (fc2 & -> & Hwf1 & Hwf2 & Hdim & Hnz & Hlen & Hdt & Hor).
    destruct (Qc_shift_fc_bias_back self fc2 shifts Hwf2) as
      (fc2' & Hrun2 & Hw2 & Hi2 & Ho2 & Hback2); [lia|done|done|].
    destruct (Qc_shift_prev_back fc1 (data shifts) Hwf1 Hlen) as
      (fc1' & Hrun1 & Hi1 & Ho1 & Hback1).
    unfold apply_shift, shift_fc_fc.
    assert ((out_features fc1 =? in_features fc2 * 3) = false) as ->
      by (apply Nat.eqb_neq; lia).
    assert ((out_features fc1 =? in_features fc2) = true) as ->
      by (apply Nat.eqb_eq; lia).
    cbn [assert mbind result_bind]. rewrite Hrun1. cbn [mbind result_bind].
    rewrite Hrun2. cbn [mbind result_bind].
    eexists _, _; split; [reflexivity|]. cbv beta iota.
    rewrite Ho1, Hi2.
    assert ((out_features fc1 =? in_features fc2 * 3) = false) as ->
      by (apply Nat.eqb_neq; lia).
    assert ((out_features fc1 =? in_features fc2) = true) as ->
      by (apply Nat.eqb_eq; lia).
    cbn [assert mbind result_bind negated data set_data].
    cbn [s_neg Qc_scalar]. rewrite Hback1. cbn [mbind result_bind].
    change (mkTensor (dtype shifts) (map Qcopp (data shifts)))
      with (negated shifts).
    rewrite Hback2. done.
  - destruct Hsup as (Hhas & (lb & Hlb & Hlbl) & Hfcs).
    destruct (Qc_vec_sub_back lb (data shifts)) as (lb' & Hs & Hl' & Hs'); [lia|].
    assert (∃ fcs',
              Forall2 (λ fc fc',
                 match bias_tensor (bias fc) with
                 | Some b =>
                     f ← shift_fold fc shifts; b' ← vec_op_ s_add b (data f);
                     Ok (set_bias fc (bias_update (bias fc) b'))
                 | None => Raise AttributeError
                 end = Ok fc' ∧
                 match bias_tensor (bias fc') with
                 | Some b =>
                     f ← shift_fold fc' (negated shifts);
                     b' ← vec_op_ s_add b (data f);
                     Ok (set_bias fc' (bias_update (bias fc') b'))
                 | None => Raise AttributeError
                 end = Ok fc) layers fcs') as (fcs' & HF).
    { clear -Hfcs. induction Hfcs as [|fc fcs (Hwf & Hin & Hd & Hb) _ (fcs' & IH)].
      - by exists [].
      - destruct (Qc_shift_ln_fc_back fc shifts) as (fc' & H1 & H2); try done.
        exists (fc' :: fcs'). by constructor. }
    assert (∀ (f : Linear Qc → result (Linear Qc)) (l l' : list (Linear Qc)),
              Forall2 (λ x y, f x = Ok y) l l' → map_result f l = Ok l') as Hmr.
    { intros f l l' HF2. induction HF2 as [|x y l l' Hxy _ IH]; simpl; [done|].
      by rewrite Hxy, IH. }
    unfold apply_shift, shift_ln_fcs. rewrite Hhas, Hlb, Hs. simpl.
    rewrite (Hmr _ layers fcs') by (eapply Forall2_impl; [exact HF|]; by intros ?? [? _]).
    simpl. rewrite !Qc_no_nan. simpl.
    match goal with
    | |- context [forallb ?f fcs'] => assert (forallb f fcs' = true) as ->
    end.
    { apply forallb_forall. intros fc _. rewrite Qc_no_nan. apply Qc_forallb_no_nan. }
    simpl. eexists _, _; split; [reflexivity|]. cbv beta iota.
    unfold shift_ln_fcs. cbn [ln_bias ln_weight negated data set_data].
    cbn [s_sub Qc_scalar] in Hs'. rewrite Hs'. cbn [mbind result_bind].
    rewrite (Hmr _ fcs' layers).
    2: { apply Forall2_flip. eapply Forall2_impl; [exact HF|]. by intros ?? [_ ?]. }
    simpl. rewrite !Qc_no_nan. simpl.
    match goal with
    | |- context [forallb ?f layers] => assert (forallb f layers = true) as ->
    end.
    { apply forallb_forall. intros fc _. rewrite Qc_no_nan. apply Qc_forallb_no_nan. }
    simpl. destruct ln as [lw lbias]. simpl in Hlb. by rewrite Hlb.
Qed.

Lemma apply_shift_round_trip_witness :
  ∃ prev' layers',
    apply_shift self_biased (Some shifts_half) [NormOp ln_half] [fc_half]
    = Ok ([prev'], layers') ∧
    apply_shift self_biased (Some (negated shifts_half)) [prev'] layers'
    = Ok ([NormOp ln_half], [fc_half]).
Proof.
  apply (apply_shift_round_trip self_biased shifts_half (NormOp ln_half) [fc_half]).
  split; [reflexivity|]. split.
  - eexists. split; reflexivity.
  - repeat constructor. by eexists.
Defined.

Close Scope Qc_scope.

(** ** The shift on a fused QKV projection *)

(** The fused-QKV branch of the shift is the one of the scale with the
    subtraction in the place of the division. *)
Lemma shift_qkv_bias_run {A} `{Scalar A} (num_heads hd : nat) (b : vector A)
    (s : list A) :
  hd ≠ 0 → num_heads ≠ 0 →
  length (data b) = num_heads * (3 * hd) → length s = num_heads * hd →
  shift_qkv_bias num_heads b s
  = Ok (set_data b
          (imap (λ o x, if is_v hd o
                        then s_sub x (nth (v_index hd o) s (s_of_Z 0)) else x)
                (data b))).
Proof.
  intros Hhd Hheads Hb Hs.
  pose (H' := {| s_of_Z := s_of_Z; s_add := s_add; s_sub := s_sub;
                 s_mul := s_mul; s_div := s_sub; s_neg := s_neg;
                 s_abs := s_abs; s_ltb := s_ltb; s_isnan := s_isnan;
                 s_isinf := s_isinf |} : Scalar A).
  exact (@scale_qkv_bias_run A H' num_heads hd b s Hhd Hheads Hb Hs).
Qed.

Lemma shift_fc_bias_result {A} `{Scalar A} (self : Self) (fc : Linear A)
    (shifts : vector A) :
  wf_linear fc →
  length (data shifts) = in_features fc →
  dtype (weight fc) = dtype shifts →
  ∃ fc', shift_fc_bias self fc shifts = Ok fc' ∧
         weight fc' = weight fc ∧
         (data <$> bias_tensor (bias fc')) =
           match bias_tensor (bias fc) with
           | Some b => Some (zip_with s_add (data b)
                               (map (λ row, dot row (data shifts))
                                    (data (weight fc))))
           | None => if use_shift self
                     then Some (map (λ row, dot row (data shifts))
                                    (data (weight fc)))
                     else None
           end.
Proof.
  intros Hwf Hl Hd.
  destruct (bias_tensor (bias fc)) as [b|] eqn:Hb.
  - destruct (shift_fc_bias_run self fc shifts) as (b' & Hrun & Hdata & _);
      [done|done|done|left; by rewrite Hb|].
    rewrite Hb in Hdata. by exists (set_bias fc b').
  - destruct (use_shift self) eqn:Hu.
    + destruct (shift_fc_bias_run self fc shifts) as (b' & Hrun & Hdata & _);
        [done|done|done|by right|].
      rewrite Hb in Hdata. by exists (set_bias fc b').
    + exists fc. unfold shift_fc_bias. by rewrite Hb, Hu.
Qed.

(** X18.  [shift_fc_fc] on a fused QKV projection (output width three
    times the input width of the following layer) reads the number of
    heads from the key [n_head] of the model configuration.  Without
    that key it raises TypeError as soon as the projection has a bias.
    With it, only the V part of each head of the bias has the shift
    subtracted, no weight is changed, and the bias of the following
    layer absorbs [W2 t] as in the plain case. *)
Theorem shift_fc_fc_qkv {A} `{Scalar A} (self : Self) (fc1 fc2 : Linear A)
    (shifts : vector A) (hd : nat) :
  out_features fc1 = in_features fc2 * 3 →
  (n_head (model self) = None → is_Some (bias_tensor (bias fc1)) →
   shift_fc_fc self fc1 fc2 shifts = Raise TypeError) ∧
  (wf_linear fc1 → wf_linear fc2 → hd ≠ 0 →
   length (data shifts) = in_features fc2 →
   dtype (weight fc2) = dtype shifts →
   (is_Some (bias_tensor (bias fc1)) →
    ∃ nh, n_head (model self) = Some nh ∧ nh ≠ 0 ∧ in_features fc2 = nh * hd) →
   ∃ fc1' fc2',
     shift_fc_fc self fc1 fc2 shifts = Ok (fc1', fc2') ∧
     weight fc1' = weight fc1 ∧ weight fc2' = weight fc2 ∧
     (data <$> bias_tensor (bias fc1')) =
       ((λ b, imap (λ o x, if is_v hd o
                           then s_sub x (nth (v_index hd o) (data shifts)
                                             (s_of_Z 0))
                           else x) (data b))
          <$> bias_tensor (bias fc1)) ∧
     (data <$> bias_tensor (bias fc2')) =
       match bias_tensor (bias fc2) with
       | Some b => Some (zip_with s_add (data b)
                           (map (λ row, dot row (data shifts))
                                (data (weight fc2))))
       | None => if use_shift self
                 then Some (map (λ row, dot row (data shifts))
                                (data (weight fc2)))
                 else None
       end).
Proof.
  intros Hout. split.
  - intros Hnone [b Hb]. unfold shift_fc_fc.
    apply Nat.eqb_eq in Hout. by rewrite Hout, Hb, Hnone.
  - intros Hwf1 Hwf2 Hhd Hlen Hdt Hheads.
    destruct (shift_fc_bias_result self fc2 shifts Hwf2 Hlen Hdt)
      as (fc2' & Hrun2 & Hw2 & Hb2).
    unfold shift_fc_fc. pose proof Hout as Heq. apply Nat.eqb_eq in Heq.
    rewrite Heq.
    destruct (bias_tensor (bias fc1)) as [b|] eqn:Hb.
    + destruct Hheads as (nh & Hnh & Hnz & Hin); [by eexists|].
      rewrite Hnh.
      destruct Hwf1 as (_ & _ & Hbl). rewrite Hb in Hbl.
      rewrite (shift_qkv_bias_run nh hd) by (done || lia).
      cbn [mbind result_bind]. rewrite Hrun2. cbn [mbind result_bind].
      eexists _, _. split; [reflexivity|]. split; [done|]. split; [done|].
      split; [|done]. simpl. by destruct (bias fc1).
    + cbn [mbind result_bind]. rewrite Hrun2. cbn [mbind result_bind].
      eexists _, _. split; [reflexivity|]. split; [done|]. split; [done|].
      split; [|done]. by rewrite Hb.
Qed.

Lemma shift_fc_fc_qkv_witness :
  ∃ fc1' fc2',
    shift_fc_fc (self_with 2 3) fc_qkv fc_diag s2222 = Ok (fc1', fc2') ∧
    weight fc1' = weight fc_qkv ∧ weight fc2' = weight fc_diag ∧
    (data <$> bias_tensor (bias fc1')) =
      ((λ b, imap (λ o x, if is_v 2 o
                          then s_sub x (nth (v_index 2 o) (data s2222) (s_of_Z 0))
                          else x) (data b))
         <$> bias_tensor (bias fc_qkv)) ∧
    (data <$> bias_tensor (bias fc2')) =
      match bias_tensor (bias (A:=float) fc_diag) with
      | Some b => Some (zip_with s_add (data b)
                          (map (λ row, dot row (data s2222))
                               (data (weight fc_diag))))
      | None => if use_shift (self_with 2 3)
                then Some (map (λ row, dot row (data s2222))
                               (data (weight fc_diag)))
                else None
      end.
Proof.
  apply (proj2 (shift_fc_fc_qkv (self_with 2 3) fc_qkv fc_diag s2222 2 eq_refl)).
  - repeat split; repeat constructor.
  - repeat split; repeat constructor.
  - lia.
  - reflexivity.
  - reflexivity.
  - intros _. exists 2. repeat split. lia.
Defined.

(** The scenario evaluated in binary64: with two heads, entries 4, 5, 10
    and 11 of the bias are shifted. *)
Example shift_fc_fc_qkv_two_heads :
  shift_fc_fc (self_with 2 3) fc_qkv fc_diag s2222
  = Ok (set_bias fc_qkv
          (BiasParam (mkTensor Float64
                        [1; 2; 3; 4; 3; 4; 7; 8; 9; 10; 9; 10]%float)),
        fc_diag).
Proof. vm_compute. reflexivity. Qed.

(** ** The value path through a fused QKV projection *)

Lemma v_part_qkv_row {A} `{Scalar A} (num_heads hd : nat) (s r : list A) :
  length r = num_heads * (3 * hd) → length s = num_heads * hd →
  v_part num_heads hd (qkv_row num_heads hd s r)
  = zip_with s_div (v_part num_heads hd r) s.
Proof.
  revert s r. induction num_heads as [|n IH]; intros s r Hr Hs.
  - destruct r; [done|simpl in Hr; lia].
  - destruct (split_head n hd r Hr) as (q & k & v & r' & -> & Hq & Hk & Hv & Hr').
    destruct (split_scale n hd s Hs) as (s0 & s' & -> & Hs0 & Hs').
    rewrite qkv_row_cons by done. unfold v_part in *.
    rewrite !view3_cons by (done || rewrite length_zip_with; lia).
    cbn [part2 map nth concat]. fold (part2 (view3 n hd (qkv_row n hd s' r'))).
    fold (part2 (view3 n hd r')). rewrite IH by done.
    rewrite zip_with_app by lia. done.
Qed.

Open Scope Qc_scope.

Lemma Qc_dot_div_any (c : Qc) (row x : list Qc) :
  dot (map (λ a, a / c) row) x = dot row x / c.
Proof.
  revert x. induction row as [|a row IH]; intros [|b x]; simpl;
    try (qc_norm; unfold Qcdiv; ring).
  rewrite IH. qc_norm. unfold Qcdiv. ring.
Qed.

Lemma Qc_qkv_scale_dot (hd : nat) (s : list Qc) (o : nat) (row x : list Qc) :
  dot (map (qkv_scale hd s o) row) x = qkv_scale hd s o (dot row x).
Proof.
  unfold qkv_scale. destruct (is_v hd o).
  - apply Qc_dot_div_any.
  - by rewrite map_id.
Qed.

Lemma Qc_qkv_scale_add (hd : nat) (s : list Qc) (o : nat) (a b : Qc) :
  qkv_scale hd s o a + qkv_scale hd s o b = qkv_scale hd s o (a + b).
Proof.
  unfold qkv_scale. destruct (is_v hd o); [|done].
  qc_norm. unfold Qcdiv. ring.
Qed.

Lemma Qc_zip_imap_add (f : nat → Qc → Qc) (ys bs : list Qc) :
  (∀ o a b, f o a + f o b = f o (a + b)) →
  zip_with Qcplus (imap f ys) (imap f bs) = imap f (zip_with Qcplus ys bs).
Proof.
  intros Hf. revert f Hf bs. induction ys as [|y ys IH]; intros f Hf [|b bs];
    simpl; try done.
  rewrite Hf. f_equal. apply IH. intros o. apply Hf.
Qed.

(** The fused projection after the transform computes its former output
    with the V entries divided by the scale. *)
Lemma Qc_forward_qkv (hd : nat) (s : list Qc) (fc1 fc1' : Linear Qc) (x : list Qc) :
  data (weight fc1')
  = imap (λ o row, map (qkv_scale hd s o) row) (data (weight fc1)) →
  (data <$> bias_tensor (bias fc1'))
  = ((λ b, imap (qkv_scale hd s) (data b)) <$> bias_tensor (bias fc1)) →
  linear_forward fc1' x = imap (qkv_scale hd s) (linear_forward fc1 x).
Proof.
  intros Hw Hb. unfold linear_forward. rewrite Hw.
  assert (map (λ row, dot row x)
              (imap (λ o row, map (qkv_scale hd s o) row) (data (weight fc1)))
          = imap (qkv_scale hd s) (map (λ row, dot row x) (data (weight fc1))))
    as ->.
  { rewrite fmap_imap, imap_fmap. apply imap_ext. intros o row _. simpl.
    apply Qc_qkv_scale_dot. }
  destruct (bias_tensor (bias fc1')) as [b'|], (bias_tensor (bias fc1)) as [b|];
    simpl in Hb; try done.
  injection Hb as ->. apply Qc_zip_imap_add. intros o a b0.
  apply Qc_qkv_scale_add.
Qed.

(** X19.  [scale_fc_fc] on a fused QKV projection with a scale vector
    without zeros keeps the value path: the Q and K entries of the
    projection's output are what they were, and the following layer
    applied to the V parts of the output gives what it gave before. *)
Theorem scale_fc_fc_qkv_preserves_value_path (self : Self) (fc1 fc2 : Linear Qc)
    (scales : vector Qc) (hd : nat) :
  let num_heads := get_num_attention_heads (model self) in
  wf_linear fc1 → wf_linear fc2 →
  in_features fc1 ≠ 0%nat → hd ≠ 0%nat → num_heads ≠ 0%nat →
  in_features fc2 = (num_heads * hd)%nat →
  out_features fc1 = (in_features fc2 * 3)%nat →
  length (data scales) = in_features fc2 →
  Forall (λ c, c ≠ 0) (data scales) →
  ∃ fc1' fc2',
    scale_fc_fc self fc1 fc2 scales = Ok (fc1', fc2') ∧
    ∀ x,
      (∀ o, is_v hd o = false →
            linear_forward fc1' x !! o = linear_forward fc1 x !! o) ∧
      linear_forward fc2' (v_part num_heads hd (linear_forward fc1' x))
      = linear_forward fc2 (v_part num_heads hd (linear_forward fc1 x)).
Proof.
  intros num_heads Hwf1 Hwf2 Hin Hhd Hheads Hin2 Hout Hs Hnz.
  assert (out_features fc1 = (num_heads * (3 * hd))%nat) as Hout' by lia.
  pose proof Hwf1 as (Hw1 & Hr1 & Hb1). pose proof Hwf2 as (Hw2 & Hr2 & Hb2).
  assert (∃ fc1',
            scale_fc_fc self fc1 fc2 scales
            = Ok (fc1', set_weight fc2
                          (set_data (weight fc2)
                             (map (λ row, zip_with Qcmult row (data scales))
                                  (data (weight fc2))))) ∧
            data (weight fc1')
            = imap (λ o row, map (qkv_scale hd (data scales) o) row)
                   (data (weight fc1)) ∧
            (data <$> bias_tensor (bias fc1'))
            = ((λ b, imap (qkv_scale hd (data scales)) (data b))
                 <$> bias_tensor (bias fc1))) as (fc1' & Hrun & Hw' & Hb').
  { unfold scale_fc_fc. fold num_heads.
    assert ((out_features fc1 =? in_features fc2 * 3)%nat = true) as ->
      by (by apply Nat.eqb_eq).
    rewrite (scale_qkv_weight_run num_heads hd) by (done || lia).
    rewrite bind_Ok, cols_mul_same by done.
    destruct (bias fc1) as [|b|b] eqn:Eb; simpl in Hb1 |- *.
    - eexists. split; [reflexivity|]. simpl. by rewrite Eb.
    - rewrite (scale_qkv_bias_run num_heads hd) by (done || lia). simpl.
      eexists. split; [reflexivity|]. done.
    - rewrite (scale_qkv_bias_run num_heads hd) by (done || lia). simpl.
      eexists. split; [reflexivity|]. done. }
  eexists _, _. split; [exact Hrun|]. intros x.
  rewrite (Qc_forward_qkv hd (data scales) fc1 fc1' x Hw' Hb').
  assert (length (linear_forward fc1 x) = (num_heads * (3 * hd))%nat) as Hly.
  { unfold linear_forward. destruct (bias_tensor (bias fc1)) as [b|].
    - rewrite length_zip_with, length_map. lia.
    - rewrite length_map. lia. }
  split.
  - intros o Ho. rewrite list_lookup_imap.
    destruct (linear_forward fc1 x !! o) as [y|]; [|done]. simpl.
    unfold qkv_scale. by rewrite Ho.
  - rewrite <- (qkv_row_imap num_heads hd) by (done || lia).
    rewrite v_part_qkv_row by (done || lia).
    apply Qc_forward_scaled_next; try done.
Qed.

Lemma scale_fc_fc_qkv_preserves_value_path_witness :
  ∃ fc1' fc2',
    scale_fc_fc (self_with 1 3) fc_qkv1 fc_out1 s_2 = Ok (fc1', fc2') ∧
    ∀ x,
      (∀ o, is_v 1 o = false →
            linear_forward fc1' x !! o = linear_forward fc_qkv1 x !! o) ∧
      linear_forward fc2' (v_part 1 1 (linear_forward fc1' x))
      = linear_forward fc_out1 (v_part 1 1 (linear_forward fc_qkv1 x)).
Proof.
  apply (scale_fc_fc_qkv_preserves_value_path (self_with 1 3) fc_qkv1 fc_out1 s_2 1).
  - repeat split; repeat constructor.
  - repeat split; repeat constructor.
  - simpl; lia.
  - lia.
  - simpl; lia.
  - reflexivity.
  - reflexivity.
  - reflexivity.
  - apply Qc_pos_nonzero. repeat constructor.
Defined.

Close Scope Qc_scope.
